(** * Catalog reconciliation of sales_cell: a shallow embedding

    The development follows the deterministic import path of
    [internal/adapters/httpserver]: the name normalizer
    ([normalizeBaseKey], [removeColorFromName]), the price-list parser
    ([parseUSDPrices]), the tiered matcher ([matchUSDPrice]), the unmatch
    classifier ([detectUnmatchReason]) and the orchestrator
    ([importFromXLSXCombined], [importFromPricesTextOnly], driven by
    [handleAdminImportCSV]) over the product repository.

    Modelling conventions.
    - A Go [string] is a sequence of bytes: [gostring := list ascii].
    - The functions of Go's [strings], [unicode] and [regexp] packages are
      modelled on their behaviour over ASCII text: case mapping touches
      the letters A-Z / a-z only, [unicode.IsSpace] is the six ASCII
      white-space bytes, the regexp class [\s] is RE2's (no vertical tab)
      and [\d] is 0-9.  Bytes above 127 are ordinary characters.
    - [float64] is IEEE-754 binary64, taken from [SpecFloat].
    - A Go [map] that is iterated is an association list: the theorems
      quantify over every listing, hence over every iteration order.
    - [uuid.New] is a generator of identifiers that are fresh for the
      store. *)

From Stdlib Require Import Ascii String.
From Stdlib Require Import List ZArith Lia Bool Arith PeanoNat.
From Stdlib Require Import Permutation.
From Stdlib Require Import Floats.SpecFloat.
Import ListNotations.

Set Implicit Arguments.

(** ** Go strings *)

Definition gostring := list ascii.

Coercion list_ascii_of_string : string >-> list.

Local Open Scope string_scope.
Local Open Scope list_scope.

Module Strings.

(** Character classes. *)

Definition byteIn (lo hi : nat) (c : ascii) : bool :=
  let n := nat_of_ascii c in (lo <=? n)%nat && (n <=? hi)%nat.

(** [unicode.IsSpace] on one-byte runes: tab, LF, VT, FF, CR, space. *)
Definition isSpace (c : ascii) : bool :=
  byteIn 9 13 c || (nat_of_ascii c =? 32)%nat.

(** The regexp class [\s] of RE2: tab, LF, FF, CR, space. *)
Definition reSpace (c : ascii) : bool :=
  isSpace c && negb (nat_of_ascii c =? 11)%nat.

(** The regexp class [\d], also the test [r >= '0' && r <= '9']. *)
Definition isDigit (c : ascii) : bool := byteIn 48 57 c.

Definition isUpper (c : ascii) : bool := byteIn 65 90 c.
Definition isLower (c : ascii) : bool := byteIn 97 122 c.

Definition toLowerByte (c : ascii) : ascii :=
  if isUpper c then ascii_of_nat (nat_of_ascii c + 32) else c.
Definition toUpperByte (c : ascii) : ascii :=
  if isLower c then ascii_of_nat (nat_of_ascii c - 32) else c.

Definition ToLower (s : gostring) : gostring := map toLowerByte s.
Definition ToUpper (s : gostring) : gostring := map toUpperByte s.

(** Equality of strings, [==] in Go. *)
Fixpoint eqb (a b : gostring) : bool :=
  match a, b with
  | [], [] => true
  | x :: a', y :: b' => Ascii.eqb x y && eqb a' b'
  | _, _ => false
  end.

Definition isEmpty (s : gostring) : bool :=
  match s with [] => true | _ => false end.

Fixpoint HasPrefix (s p : gostring) {struct p} : bool :=
  match p, s with
  | [], _ => true
  | x :: p', y :: s' => Ascii.eqb x y && HasPrefix s' p'
  | _ :: _, [] => false
  end.

Definition HasSuffix (s p : gostring) : bool := HasPrefix (rev s) (rev p).

Definition TrimSuffix (s suf : gostring) : gostring :=
  if HasSuffix s suf then firstn (length s - length suf) s else s.

Fixpoint Contains (s sub : gostring) : bool :=
  HasPrefix s sub ||
  match s with [] => false | _ :: t => Contains t sub end.

(** [strings.Index]: the byte offset of the first occurrence, or -1. *)
Fixpoint Index (s sub : gostring) : Z :=
  if HasPrefix s sub then 0%Z
  else match s with
       | [] => (-1)%Z
       | _ :: t => let i := Index t sub in
                   if (i <? 0)%Z then (-1)%Z else (i + 1)%Z
       end.

(** The longest prefix of bytes in a class, and the rest. *)
Fixpoint span (p : ascii -> bool) (s : gostring) : gostring * gostring :=
  match s with
  | [] => ([], [])
  | c :: t => if p c then let (a, b) := span p t in (c :: a, b)
              else ([], s)
  end.

Fixpoint dropWhile (p : ascii -> bool) (s : gostring) : gostring :=
  match s with
  | [] => []
  | c :: t => if p c then dropWhile p t else s
  end.

Definition TrimLeftFunc (p : ascii -> bool) (s : gostring) : gostring :=
  dropWhile p s.
Definition TrimRightFunc (p : ascii -> bool) (s : gostring) : gostring :=
  rev (dropWhile p (rev s)).
Definition TrimFunc (p : ascii -> bool) (s : gostring) : gostring :=
  TrimRightFunc p (TrimLeftFunc p s).

Definition TrimSpace (s : gostring) : gostring := TrimFunc isSpace s.

Definition inCutset (cutset : gostring) (c : ascii) : bool :=
  existsb (Ascii.eqb c) cutset.

(** [strings.Trim(s, cutset)]. *)
Definition Trim (s cutset : gostring) : gostring :=
  TrimFunc (inCutset cutset) s.

(** [strings.Fields]: the maximal runs of non-space bytes. *)
Fixpoint Fields (s : gostring) : list gostring :=
  match s with
  | [] => []
  | c :: t =>
      if isSpace c then Fields t
      else match t with
           | [] => [[c]]
           | d :: _ =>
               if isSpace d then [c] :: Fields t
               else match Fields t with
                    | w :: ws => (c :: w) :: ws
                    | [] => [[c]]
                    end
           end
  end.

Fixpoint Join (l : list gostring) (sep : gostring) : gostring :=
  match l with
  | [] => []
  | [w] => w
  | w :: ws => w ++ sep ++ Join ws sep
  end.

(** A left-to-right rewriting pass, the common shape of
    [strings.ReplaceAll] and [Regexp.ReplaceAllString]: at each position
    where [matcher] succeeds on the remaining text with [(out, n)], the
    [n] matched bytes are replaced by [out] and the scan resumes after
    them; elsewhere the byte is copied.  [skip] counts the bytes of the
    current match that are still to be dropped. *)
Section Rewrite.
Variable matcher : gostring -> option (gostring * nat).

Fixpoint rewriteFrom (skip : nat) (s : gostring) : gostring :=
  match s with
  | [] => []
  | c :: t =>
      match skip with
      | S k => rewriteFrom k t
      | O =>
          match matcher s with
          | Some (out, S n) => out ++ rewriteFrom n t
          | Some (out, O) => out ++ c :: rewriteFrom 0 t
          | None => c :: rewriteFrom 0 t
          end
      end
  end.

Definition rewriteAll (s : gostring) : gostring := rewriteFrom 0 s.

(** The leftmost match: its offset, its output and its length. *)
Fixpoint findFirst (s : gostring) : option (nat * gostring * nat) :=
  match matcher s with
  | Some (out, n) => Some (O, out, n)
  | None =>
      match s with
      | [] => None
      | _ :: t =>
          match findFirst t with
          | Some (i, out, n) => Some (S i, out, n)
          | None => None
          end
      end
  end.
End Rewrite.

(** [strings.ReplaceAll(s, old, new)] for a non-empty [old] (every call
    of the program passes a literal). *)
Definition literal (old new : gostring) (s : gostring)
  : option (gostring * nat) :=
  if HasPrefix s old then Some (new, length old) else None.

Definition ReplaceAll (s old new : gostring) : gostring :=
  rewriteAll (literal old new) s.

(** [strings.Split(s, sep)] for a non-empty [sep]. *)
Fixpoint splitFrom (sep : gostring) (skip : nat) (cur : gostring)
         (s : gostring) : list gostring :=
  match s with
  | [] => [rev cur]
  | c :: t =>
      match skip with
      | S k => splitFrom sep k cur t
      | O => if HasPrefix s sep
             then rev cur :: splitFrom sep (length sep - 1) [] t
             else splitFrom sep 0 (c :: cur) t
      end
  end.

Definition Split (s sep : gostring) : list gostring :=
  splitFrom sep 0 [] s.

(** [strings.EqualFold] on ASCII text. *)
Definition EqualFold (a b : gostring) : bool := eqb (ToLower a) (ToLower b).

End Strings.

Import Strings.

(** ** The regular expressions of the import code

    None of them has an anchor, and in each one every starred or plussed
    class is followed by a byte outside the class, so the leftmost-first
    match of RE2 at a position is the greedy one computed by [span]. *)

Module Regexps.

(** The inch mark, the double quote byte. *)
Definition DQ : ascii := "034"%char.

(** The text after a given first byte. *)
Definition after (c : ascii) (s : gostring) : option gostring :=
  match s with
  | x :: t => if Ascii.eqb x c then Some t else None
  | [] => None
  end.

(** Decimal inches: digits, a dot, digits, optional [\s] and the inch
    mark (written DQ, the double quote byte):
    [(\d+)\.\d+\s*DQ], replaced by [$1DQ] in the normalizer and by [$1]
    in the matcher. *)
Definition inchDecimal (keepQuote : bool) (s : gostring)
  : option (gostring * nat) :=
  let (d1, r1) := span isDigit s in
  match after "." r1 with
  | Some r2 =>
      let (d2, r3) := span isDigit r2 in
      let (w, r4) := span reSpace r3 in
      match after DQ r4 with
      | Some _ =>
          if isEmpty d1 || isEmpty d2 then None
          else Some (if keepQuote then d1 ++ [DQ] else d1,
                     length d1 + 1 + length d2 + length w + 1)
      | None => None
      end
  | None => None
  end.

(** [(\d+)\s+DQ], replaced by [$1DQ]. *)
Definition inchSpace (s : gostring) : option (gostring * nat) :=
  let (d1, r1) := span isDigit s in
  let (w, r2) := span reSpace r1 in
  match after DQ r2 with
  | Some _ =>
      if isEmpty d1 || isEmpty w then None
      else Some (d1 ++ [DQ], length d1 + length w + 1)
  | None => None
  end.

Definition notClose (c : ascii) : bool := negb (Ascii.eqb c ")").

(** A parenthesized group with the white space before it (and, when
    [trailing], after it): an opening parenthesis, any bytes other than
    a closing parenthesis, a closing parenthesis.  The normalizers
    replace it by one space, the matcher by nothing. *)
Definition parenGroup (trailing : bool) (out : gostring) (s : gostring)
  : option (gostring * nat) :=
  let (w1, r1) := span reSpace s in
  match after "(" r1 with
  | Some r2 =>
      let (body, r3) := span notClose r2 in
      match after ")" r3 with
      | Some r4 =>
          let w2 := if trailing then fst (span reSpace r4) else [] in
          Some (out, length w1 + 1 + length body + 1 + length w2)
      | None => None
      end
  | None => None
  end.

(** The first alternative, in order, that is a prefix of the text. *)
Fixpoint firstPrefix (alts : list gostring) (s : gostring)
  : option gostring :=
  match alts with
  | [] => None
  | a :: rest => if HasPrefix s a then Some a else firstPrefix rest s
  end.

Definition units : list gostring :=
  map list_ascii_of_string ["GB"; "TB"; "MHz"; "mm"].
Definition bigUnits : list gostring :=
  map list_ascii_of_string ["GB"; "TB"].

(** [(\d+)(GB|TB|MHz|mm)], replaced by [$1 $2]. *)
Definition capacityUnit (s : gostring) : option (gostring * nat) :=
  let (d1, r1) := span isDigit s in
  match firstPrefix units r1 with
  | Some u =>
      if isEmpty d1 then None
      else Some (d1 ++ " " ++ u, length d1 + length u)
  | None => None
  end.

(** [(\d+)/(\d+)\s*(GB|TB)], replaced by [$1/$2 $3]. *)
Definition dualCapacity (s : gostring) : option (gostring * nat) :=
  let (d1, r1) := span isDigit s in
  match after "/" r1 with
  | Some r2 =>
      let (d2, r3) := span isDigit r2 in
      let (w, r4) := span reSpace r3 in
      match firstPrefix bigUnits r4 with
      | Some u =>
          if isEmpty d1 || isEmpty d2 then None
          else Some (d1 ++ "/" ++ d2 ++ " " ++ u,
                     length d1 + 1 + length d2 + length w + length u)
      | None => None
      end
  | None => None
  end.

(** [ipad\s+(\d+)\s+(a\d+)], replaced by [ipad $2 $1]. *)
Definition ipadOrder (s : gostring) : option (gostring * nat) :=
  if HasPrefix s "ipad" then
    let r0 := skipn 4 s in
    let (w1, r1) := span reSpace r0 in
    let (d1, r2) := span isDigit r1 in
    let (w2, r3) := span reSpace r2 in
    match after "a" r3 with
    | Some r4 =>
        let (d2, _) := span isDigit r4 in
        if isEmpty w1 || isEmpty d1 || isEmpty w2 || isEmpty d2 then None
        else Some ("ipad " ++ ("a"%char :: d2) ++ " " ++ d1,
                   4 + length w1 + length d1 + length w2 + 1 + length d2)
    | None => None
    end
  else None.

Definition isPriceByte (c : ascii) : bool :=
  isDigit c || Ascii.eqb c "." || Ascii.eqb c ",".

(** The price token: a dollar sign, optional [\s], a digit, then any
    digits, dots and commas.  The output slot carries group 1, the
    amount without the dollar sign. *)
Definition priceRe (s : gostring) : option (gostring * nat) :=
  match after "$" s with
  | Some r0 =>
      let (w, r1) := span reSpace r0 in
      match r1 with
      | c :: r2 =>
          if isDigit c then
            let (ds, _) := span isPriceByte r2 in
            Some (c :: ds, 1 + length w + 1 + length ds)
          else None
      | [] => None
      end
  | None => None
  end.

End Regexps.

Import Regexps.

(** ** The name normalizer *)

Definition colors : list gostring :=
  map list_ascii_of_string
    [ "negro"; "black"; "blanco"; "white"; "azul"; "blue"; "rosa"; "pink";
      "amarillo"; "yellow"; "verde"; "green"; "silver"; "starlight";
      "midnight"; "purple";
      (* "púrpura", the u-acute as its two UTF-8 bytes *)
      String "p" (String (ascii_of_nat 195) (String (ascii_of_nat 186)
                                                    "rpura"));
      "morado"; "space"; "gray"; "grey"; "gris"; "oro"; "gold";
      "red"; "rojo"; "orange"; "naranja"; "coral"; "arena"; "sand";
      "cosmic"; "deep"; "pearl"; "perlado"; "oscuro"; "dark"; "light";
      "claro" ].

Definition removeColorFromName (s0 : gostring) : gostring :=
  let s := rewriteAll (parenGroup true " ") s0 in
  let s := TrimSpace s in
  let parts := Fields s in
  match rev parts with
  | [] => s
  | lastw :: before =>
      let last := ToLower lastw in
      if existsb (fun c => Strings.eqb last c || Contains last c) colors
      then TrimSpace (Join (rev before) " ")
      else
        match before with
        | prev :: before2 =>
            let lastTwo := ToLower (prev ++ " " ++ lastw) in
            if existsb (fun c => Contains lastTwo c) colors
            then TrimSpace (Join (rev before2) " ")
            else s
        | [] => s
        end
  end.

Definition normalizeBaseKey (s0 : gostring) : gostring :=
  let s := TrimSpace s0 in
  let s := ReplaceAll s ["009"%char] " " in
  let s := rewriteAll (inchDecimal true) s in
  let s := rewriteAll inchSpace s in
  let s := ReplaceAll s "'" [DQ] in
  let s := rewriteAll (parenGroup true " ") s in
  let s := Join (Fields s) " " in
  let s := rewriteAll capacityUnit s in
  let s := rewriteAll dualCapacity s in
  let s := ReplaceAll s "Wifi" "WiFi" in
  let s := ReplaceAll s "wifi" "WiFi" in
  let s := ReplaceAll s "wi-fi" "WiFi" in
  let s := ReplaceAll s "  " " " in
  let s := Join (Fields s) " " in
  s.

Definition slugify (s : gostring) : gostring :=
  ToLower (ReplaceAll (TrimSpace s) " " "-").

Definition inferBrandModel (s : gostring) : gostring * gostring :=
  match Fields s with
  | [] => ([], [])
  | brand :: rest => (brand, TrimSpace (Join rest " "))
  end.

Definition isSectionTitle (s0 : gostring) : bool :=
  let s := TrimSpace (ToUpper s0) in
  if isEmpty s then false else negb (existsb isDigit s).

Definition inferColors : list gostring :=
  map list_ascii_of_string
    [ "Negro"; "Black"; "Blanco"; "White"; "Azul"; "Blue"; "Rosa"; "Pink";
      "Amarillo"; "Yellow"; "Verde"; "Green"; "Silver"; "Starlight";
      "Midnight"; "Purple"; "Space Gray"; "Space Black"; "Natural";
      "Sage Green"; "Mist Blue"; "Lavender" ].

Definition inferColorFromName (s : gostring) : gostring :=
  let ls := ToLower s in
  match find (fun c => Contains ls (ToLower c)) inferColors with
  | Some c => c
  | None => []
  end.

Definition mapStock (s0 : gostring) : Z :=
  let s := TrimSpace (ToLower s0) in
  if isEmpty s then 0%Z
  else if Contains s "sin" then 0%Z
  else if Contains s "bajo" then 2%Z
  else 10%Z.

(** ** Unmatch reasons *)

Definition detectUnmatchReason (baseKey pricesText : gostring) : gostring :=
  let baseKeyLower := ToLower baseKey in
  let pricesTextLower := ToLower pricesText in
  if negb (Contains pricesTextLower baseKeyLower) then
    match Fields baseKey with
    | p0 :: p1 :: _ =>
        let partialName := ToLower (p0 ++ " " ++ p1) in
        if Contains pricesTextLower partialName
        then "formato_diferente" else "no_encontrado"
    | _ => "no_encontrado"
    end
  else
    let idx := Index pricesTextLower baseKeyLower in
    if (0 <=? idx)%Z then
      let snippet := skipn (Z.to_nat idx) pricesTextLower in
      let snippet :=
        if (150 <? length snippet)%nat then firstn 150 snippet else snippet in
      if Contains snippet "sin stock" then "sin_stock" else "precio_invalido"
    else "precio_invalido".

(** ** float64 *)

Module Float64.

Definition float64 := spec_float.
Definition prec : Z := 53.
Definition emax : Z := 1024.

Definition zero : float64 := S754_zero false.
Definition ofZ (n : Z) : float64 := binary_normalize prec emax n 0 false.
Definition mul : float64 -> float64 -> float64 := SFmul prec emax.
Definition add : float64 -> float64 -> float64 := SFadd prec emax.
Definition div : float64 -> float64 -> float64 := SFdiv prec emax.

(** The comparisons [x > 0] and [x <= 0]. *)
Definition gt0 (x : float64) : bool := SFltb zero x.
Definition le0 (x : float64) : bool := SFleb x zero.
(** [x != 0]. *)
Definition nonzero (x : float64) : bool := negb (SFeqb x zero).

(** The decimal [m / 10^k], rounded to nearest even. *)
Definition ofDecimal (m : Z) (k : nat) : float64 :=
  if (m <=? 0)%Z then zero
  else
    let '(mz, ez, lz) :=
      SFdiv_core_binary prec emax m 0 (10 ^ Z.of_nat k)%Z 0 in
    binary_round_aux prec emax false mz ez lz.

Definition digitVal (c : ascii) : Z := Z.of_nat (nat_of_ascii c - 48).

Definition digitsValue (s : gostring) : Z :=
  fold_left (fun acc c => (acc * 10 + digitVal c)%Z) s 0%Z.

(** [strconv.ParseFloat(s, 64)] with its error dropped, on the texts the
    price token can hold once the commas are removed: digits with at
    most one dot.  A text with a second dot is a syntax error, for which
    ParseFloat returns 0; any other text is outside the price token and
    is mapped to 0 as well. *)
Definition ParseFloat (s : gostring) : float64 :=
  let (ip, r) := span isDigit s in
  match r with
  | [] => if isEmpty ip then zero else ofDecimal (digitsValue ip) 0
  | c :: fp =>
      if Ascii.eqb c "." && forallb isDigit fp
         && negb (isEmpty ip && isEmpty fp)
      then ofDecimal (digitsValue (ip ++ fp)) (length fp)
      else zero
  end.

End Float64.

Import Float64.

(** ** Go maps

    A map is listed in the order in which its keys were first inserted;
    [set] overwrites in place, so a listing never repeats a key. *)

Section Assoc.
Variables (K V : Type) (keq : K -> K -> bool).

Fixpoint get (m : list (K * V)) (k : K) : option V :=
  match m with
  | [] => None
  | (k', v) :: rest => if keq k' k then Some v else get rest k
  end.

Fixpoint set (k : K) (v : V) (m : list (K * V)) : list (K * V) :=
  match m with
  | [] => [(k, v)]
  | (k', v') :: rest =>
      if keq k' k then (k, v) :: rest else (k', v') :: set k v rest
  end.
End Assoc.

(** [map[string]float64] *)
Definition PriceMap := list (gostring * float64).

Definition lookup (m : PriceMap) (k : gostring) : option float64 :=
  get Strings.eqb m k.

(** [m[k]], the zero value when the key is absent. *)
Definition priceOf (m : PriceMap) (k : gostring) : float64 :=
  match lookup m k with Some v => v | None => zero end.

(** [m[k] = v]. *)
Definition insert (k : gostring) (v : float64) (m : PriceMap) : PriceMap :=
  set Strings.eqb k v m.

(** ** The price-list parser *)

Definition dropPrice (s : gostring) : option (gostring * nat) :=
  match priceRe s with
  | Some (_, n) => Some ([], n)
  | None => None
  end.

(** The body of the loop over the lines. *)
Definition parseLine (res : PriceMap) (ln : gostring) : PriceMap :=
  let l := TrimSpace ln in
  if isEmpty l then res
  else if Contains (ToLower l) "sin stock"
          || Contains (ToLower l) "sin precio" then res
  else
    match findFirst priceRe l with
    | Some (_, m1, _) =>
        let usdStr := ReplaceAll m1 "," [] in
        let usd := ParseFloat usdStr in
        let name := TrimSpace (rewriteAll dropPrice l) in
        let name := Trim name ("-:" ++ ["009"%char] ++ " ") in
        let key := normalizeBaseKey name in
        if negb (isEmpty key) && gt0 usd then insert key usd res else res
    | None => res
    end.

Definition parseUSDPrices (text : gostring) : PriceMap :=
  if isEmpty (TrimSpace text) then []
  else fold_left parseLine (Split text ["010"%char]) [].

(** ** The tiered matcher *)

Definition suffixes : list gostring :=
  map list_ascii_of_string
    [" 5g ds"; " 4g ds"; " 5g"; " 4g"; " ds"; " wifi"; " wi-fi"; " lte"].

(** The no-break space U+00A0 in UTF-8. *)
Definition nbsp : gostring := ["194"%char; "160"%char].

(** The comparison form, the closure [normalize] of [matchUSDPrice]. *)
Definition normalize (s0 : gostring) : gostring :=
  let s := ToLower s0 in
  let s := rewriteAll (parenGroup false []) s in
  let s := rewriteAll (inchDecimal false) s in
  let s := ReplaceAll s [DQ] [] in
  let s := fold_left TrimSuffix suffixes s in
  let s := ReplaceAll s nbsp " " in
  let s := ReplaceAll s "+" " " in
  let s := Join (Fields s) " " in
  let s := rewriteAll ipadOrder s in
  TrimSpace s.

(** The first two or three words. *)
Definition signature (words : list gostring) : list gostring :=
  firstn (Nat.min 3 (length words)) words.

(** The number of signature words of the candidate that are in the set of
    signature words of the query. *)
Definition overlap (baseWords kWords : list gostring) : nat :=
  length (filter (fun w => existsb (Strings.eqb w) (signature baseWords))
                 (signature kWords)).

(** The test of the third tier on one entry of the map. *)
Definition partialHit (baseWords : list gostring) (k : gostring) : bool :=
  let keyPattern := Join (signature baseWords) " " in
  let kNorm := normalize k in
  (Contains kNorm keyPattern || Contains keyPattern kNorm)
  && (let kWords := Fields kNorm in
      (2 <=? length kWords)%nat
      && (let kPattern := Join (signature kWords) " " in
          (2 <=? overlap baseWords kWords)%nat
          && (8 <? length keyPattern)%nat
          && (8 <? length kPattern)%nat)).

Definition matchUSDPrice (m : PriceMap) (baseKey : gostring) : float64 :=
  match lookup m baseKey with
  | Some v => v
  | None =>
      let baseNorm := normalize baseKey in
      match find (fun kv => Strings.eqb (normalize (fst kv)) baseNorm) m with
      | Some (_, v) => v
      | None =>
          let baseWords := Fields baseNorm in
          if (2 <=? length baseWords)%nat then
            match find (fun kv => partialHit baseWords (fst kv)) m with
            | Some (_, v) => v
            | None => zero
            end
          else zero
      end
  end.

(** ** Domain: products and variants

    Only the columns that the import reads or writes are kept; the other
    columns of a row are carried through a save unchanged. *)

Definition uuid := nat.
Definition Nil : uuid := 0.

Module Product.
Record t := mk {
  ID : uuid;
  Slug : gostring;
  Name : gostring;
  BasePrice : float64;
  GrossPrice : float64;
  MarginPct : float64;
  Category : gostring;
  Brand : gostring;
  Model : gostring;
  Active : bool
}.

Definition withID (p : t) (id : uuid) : t :=
  mk id (Slug p) (Name p) (BasePrice p) (GrossPrice p) (MarginPct p)
     (Category p) (Brand p) (Model p) (Active p).
Definition withSlug (p : t) (s : gostring) : t :=
  mk (ID p) s (Name p) (BasePrice p) (GrossPrice p) (MarginPct p)
     (Category p) (Brand p) (Model p) (Active p).
Definition withActive (p : t) (a : bool) : t :=
  mk (ID p) (Slug p) (Name p) (BasePrice p) (GrossPrice p) (MarginPct p)
     (Category p) (Brand p) (Model p) a.
Definition withCategory (p : t) (c : gostring) : t :=
  mk (ID p) (Slug p) (Name p) (BasePrice p) (GrossPrice p) (MarginPct p)
     c (Brand p) (Model p) (Active p).
(** [p.GrossPrice = gross; p.MarginPct = margin; p.BasePrice = price]. *)
Definition withPrices (p : t) (gross margin price : float64) : t :=
  mk (ID p) (Slug p) (Name p) price gross margin
     (Category p) (Brand p) (Model p) (Active p).
End Product.

Module Variant.
Record t := mk {
  ID : uuid;
  ProductID : uuid;
  Color : gostring;
  Stock : Z
}.

Definition withID (v : t) (id : uuid) : t :=
  mk id (ProductID v) (Color v) (Stock v).
Definition withStock (v : t) (n : Z) : t :=
  mk (ID v) (ProductID v) (Color v) n.
End Variant.

(** ** The product repository (the catalog store)

    The two tables are listed in creation order.  [calls] records every
    call that reaches the repository. *)

Inductive RepoCall :=
| CallMarkAllInactive
| CallGetInactiveSlugs
| CallFindBySlug (slug : gostring)
| CallSave (p : Product.t)
| CallListVariants (productID : uuid)
| CallSaveVariant (v : Variant.t).

Record Repo := mkRepo {
  products : list Product.t;
  variants : list Variant.t;
  calls : list RepoCall
}.

Module ProductRepo.

Definition called (r : Repo) (c : RepoCall) : Repo :=
  mkRepo (products r) (variants r) (calls r ++ [c]).

(** [uuid.New()]: an identifier that no row of the store carries. *)
Definition newUUID (r : Repo) : uuid :=
  S (list_max (map Product.ID (products r) ++ map Variant.ID (variants r))).

Definition MarkAllInactive (r : Repo) : Repo :=
  called (mkRepo (map (fun p => Product.withActive p false) (products r))
                 (variants r) (calls r))
         CallMarkAllInactive.

Definition GetInactiveSlugs (r : Repo) : list gostring * Repo :=
  (map Product.Slug (filter (fun p => negb (Product.Active p)) (products r)),
   called r CallGetInactiveSlugs).

Definition FindBySlug (r : Repo) (slug : gostring)
  : option Product.t * Repo :=
  (find (fun p => Strings.eqb (Product.Slug p) slug) (products r),
   called r (CallFindBySlug slug)).

(** The unique index on the slug column: another row holds the slug. *)
Definition slugTaken (r : Repo) (p : Product.t) : bool :=
  existsb (fun q => Strings.eqb (Product.Slug q) (Product.Slug p)
                    && negb (Product.ID q =? Product.ID p)%nat)
          (products r).

(** [db.Save(p)]: update the row of that primary key, insert it when
    there is none; the statement fails, and changes nothing, when it
    would break the unique index. *)
Definition Save (r : Repo) (p : Product.t) : bool * Repo :=
  let r1 := called r (CallSave p) in
  if slugTaken r p then (false, r1)
  else if existsb (fun q => (Product.ID q =? Product.ID p)%nat) (products r)
  then (true,
        mkRepo (map (fun q => if (Product.ID q =? Product.ID p)%nat
                              then p else q) (products r))
               (variants r1) (calls r1))
  else (true, mkRepo (products r ++ [p]) (variants r1) (calls r1)).

Definition SaveVariant (r : Repo) (v0 : Variant.t) : Variant.t * Repo :=
  let v := if (Variant.ID v0 =? Nil)%nat
           then Variant.withID v0 (newUUID r) else v0 in
  let r1 := called r (CallSaveVariant v) in
  if existsb (fun w => (Variant.ID w =? Variant.ID v)%nat) (variants r)
  then (v, mkRepo (products r1)
                  (map (fun w => if (Variant.ID w =? Variant.ID v)%nat
                                 then v else w) (variants r))
                  (calls r1))
  else (v, mkRepo (products r1) (variants r ++ [v]) (calls r1)).

Definition ListVariants (r : Repo) (productID : uuid)
  : list Variant.t * Repo :=
  (filter (fun v => (Variant.ProductID v =? productID)%nat) (variants r),
   called r (CallListVariants productID)).

End ProductRepo.

(** The use-case layer [ProductUC] that the server calls. *)
Module ProductUC.

Definition GetBySlug (r : Repo) (slug : gostring)
  : option Product.t * Repo :=
  if isEmpty slug then (None, r) else ProductRepo.FindBySlug r slug.

(** [Create] assigns the identifier and the slug on the caller's struct,
    which is returned along with the store. *)
Definition Create (r : Repo) (p0 : Product.t) : Product.t * Repo :=
  let p := if (Product.ID p0 =? Nil)%nat
           then Product.withID p0 (ProductRepo.newUUID r) else p0 in
  let p := Product.withSlug p
             (ToLower (ReplaceAll (Product.Name p) " " "-")) in
  (p, snd (ProductRepo.Save r p)).

Definition CreateVariant (r : Repo) (v0 : Variant.t) : Variant.t * Repo :=
  let v := if (Variant.ID v0 =? Nil)%nat
           then Variant.withID v0 (ProductRepo.newUUID r) else v0 in
  ProductRepo.SaveVariant r v.

Definition UpdateVariant (r : Repo) (v : Variant.t) : Repo :=
  if (Variant.ID v =? Nil)%nat then r
  else snd (ProductRepo.SaveVariant r v).

Definition ListVariants (r : Repo) (productID : uuid)
  : list Variant.t * Repo :=
  if (productID =? Nil)%nat then ([], r)
  else ProductRepo.ListVariants r productID.

End ProductUC.

(** ** The import report and the server *)

Record ImportReport := mkReport {
  CreatedProducts : Z;
  UpdatedProducts : Z;
  CreatedVariants : Z;
  UpdatedVariants : Z;
  UnmatchedPrices : Z;
  DeprecatedProducts : Z;
  UnmatchedItems : list (gostring * Z);
  UnmatchedReasons : list (gostring * gostring);
  CreatedProductSlugs : list gostring;
  UpdatedProductSlugs : list gostring;
  DeprecatedSlugs : list gostring;
  CreatedVariantKeys : list gostring;
  UpdatedVariantKeys : list gostring
}.

Record Server := mkServer {
  repo : Repo;
  lastImport : option ImportReport
}.

(** A spreadsheet as [excelize] hands it over: [GetSheetList] lists the
    sheets, [GetRows] gives the rows of one sheet, or fails ([None]). *)
Definition Row := list gostring.
Definition Sheet := option (list Row).
Definition Workbook := list Sheet.

(** A Go run-time panic ends the request: the calls already made to the
    store stay, the rest of the handler does not run. *)
Inductive Step (A : Type) : Type :=
| Done (a : A)
| Panicked.
Arguments Done {A} a.
Arguments Panicked {A}.

(** The local variables of [importFromXLSXCombined]. *)
Record Pass := mkPass {
  createdP : Z;
  updatedP : Z;
  createdV : Z;
  updatedV : Z;
  unmatched : Z;
  unmatchedItems : list (gostring * Z);
  unmatchedReasons : list (gostring * gostring);
  createdProductSlugs : list gostring;
  updatedProductSlugs : list gostring;
  createdVariantKeys : list gostring;
  updatedVariantKeys : list gostring;
  activatedSlugs : list (gostring * bool);
  processedVariants : list (uuid * list (gostring * bool))
}.

Definition emptyPass : Pass :=
  mkPass 0 0 0 0 0 [] [] [] [] [] [] [] [].

(** [row[i]] trimmed, for an index the code has checked. *)
Definition cell (row : Row) (i : nat) : gostring :=
  if (i <? length row)%nat then TrimSpace (nth i row []) else [].

(** Column D, else column E. *)
Definition stockCell (row : Row) : gostring :=
  let stockStr := cell row 3 in
  if isEmpty stockStr then cell row 4 else stockStr.

(** [processedColors[colorKey]] *)
Definition processedColor (cs : list (gostring * bool)) (colorKey : gostring)
  : bool :=
  match get Strings.eqb cs colorKey with Some b => b | None => false end.

(** [processedVariants[id][colorKey] = true] *)
Definition markProcessed (pv : list (uuid * list (gostring * bool)))
           (id : uuid) (colorKey : gostring)
  : list (uuid * list (gostring * bool)) :=
  let cs := match get Nat.eqb pv id with Some cs => cs | None => [] end in
  set Nat.eqb id (set Strings.eqb colorKey true cs) pv.

(** The price of a row: the direct lookup, then the matcher. *)
Definition rowPrice (priceUSD : PriceMap) (baseKey : gostring) : float64 :=
  let usd := priceOf priceUSD baseKey in
  if le0 usd then
    let alt := matchUSDPrice priceUSD baseKey in
    if gt0 alt then alt else usd
  else usd.

Definition one : float64 := ofZ 1.
Definition hundred : float64 := ofZ 100.

(** [gross * (1.0 + margin/100.0)] *)
Definition withMargin (gross margin : float64) : float64 :=
  mul gross (add one (div margin hundred)).

(** The unmatched branch of a row. *)
Definition recordUnmatched (pricesText baseKey : gostring) (ps : Pass)
  : Pass :=
  let n := match get Strings.eqb (unmatchedItems ps) baseKey with
           | Some n => n | None => 0%Z end in
  let reason := detectUnmatchReason baseKey pricesText in
  mkPass (createdP ps) (updatedP ps) (createdV ps) (updatedV ps)
         (unmatched ps + 1)
         (set Strings.eqb baseKey (n + 1)%Z (unmatchedItems ps))
         (match get Strings.eqb (unmatchedReasons ps) baseKey with
          | Some _ => unmatchedReasons ps
          | None => set Strings.eqb baseKey reason (unmatchedReasons ps)
          end)
         (createdProductSlugs ps) (updatedProductSlugs ps)
         (createdVariantKeys ps) (updatedVariantKeys ps)
         (activatedSlugs ps) (processedVariants ps).

(** The product half of a priced row: find by slug, create or update. *)
Definition upsertProduct (r : Repo) (ps : Pass)
           (baseKey category : gostring) (gross margin price : float64)
  : Product.t * Repo * Pass :=
  let (brand, model) := inferBrandModel baseKey in
  let (found, r1) := ProductUC.GetBySlug r (slugify baseKey) in
  match found with
  | None =>
      let p0 := Product.mk Nil [] baseKey price gross margin
                           category brand model true in
      let (p, r2) := ProductUC.Create r1 p0 in
      let named := negb (isEmpty (Product.Slug p)) in
      (p, r2,
       mkPass (createdP ps + 1) (updatedP ps) (createdV ps) (updatedV ps)
              (unmatched ps) (unmatchedItems ps) (unmatchedReasons ps)
              (if named then createdProductSlugs ps ++ [Product.Slug p]
               else createdProductSlugs ps)
              (updatedProductSlugs ps)
              (createdVariantKeys ps) (updatedVariantKeys ps)
              (if named
               then set Strings.eqb (Product.Slug p) true (activatedSlugs ps)
               else activatedSlugs ps)
              (processedVariants ps))
  | Some q =>
      let p0 := Product.withActive (Product.withPrices q gross margin price)
                                   true in
      let (p, r2) := ProductUC.Create r1 p0 in
      let named := negb (isEmpty (Product.Slug p)) in
      (p, r2,
       mkPass (createdP ps) (updatedP ps + 1) (createdV ps) (updatedV ps)
              (unmatched ps) (unmatchedItems ps) (unmatchedReasons ps)
              (createdProductSlugs ps)
              (if named then updatedProductSlugs ps ++ [Product.Slug p]
               else updatedProductSlugs ps)
              (createdVariantKeys ps) (updatedVariantKeys ps)
              (if named
               then set Strings.eqb (Product.Slug p) true (activatedSlugs ps)
               else activatedSlugs ps)
              (processedVariants ps))
  end.

(** The search for the variant of a color among the stored ones. *)
Definition findVariant (vs : list Variant.t) (color : gostring)
  : option Variant.t :=
  find (fun v => EqualFold (TrimSpace (Variant.Color v)) (TrimSpace color)) vs.

(** The variant half of a priced row. *)
Definition upsertVariant (r : Repo) (ps : Pass) (p : Product.t)
           (color stockStr : gostring) (stock : Z) : Repo * Pass :=
  let pv := markProcessed (processedVariants ps) (Product.ID p)
                          (ToLower (TrimSpace color)) in
  let (vs, r1) := ProductUC.ListVariants r (Product.ID p) in
  let named := negb (isEmpty (Product.Slug p)) in
  let key := Product.Slug p ++ ":" ++ TrimSpace color in
  match findVariant vs color with
  | None =>
      let v := Variant.mk Nil (Product.ID p) color stock in
      let (_, r2) := ProductUC.CreateVariant r1 v in
      (r2,
       mkPass (createdP ps) (updatedP ps) (createdV ps + 1) (updatedV ps)
              (unmatched ps) (unmatchedItems ps) (unmatchedReasons ps)
              (createdProductSlugs ps) (updatedProductSlugs ps)
              (if named then createdVariantKeys ps ++ [key]
               else createdVariantKeys ps)
              (updatedVariantKeys ps)
              (activatedSlugs ps) pv)
  | Some existing =>
      let existing' :=
        if negb (isEmpty (TrimSpace stockStr)) && (0 <=? stock)%Z
        then Variant.withStock existing stock else existing in
      let r2 := ProductUC.UpdateVariant r1 existing' in
      (r2,
       mkPass (createdP ps) (updatedP ps) (createdV ps) (updatedV ps + 1)
              (unmatched ps) (unmatchedItems ps) (unmatchedReasons ps)
              (createdProductSlugs ps) (updatedProductSlugs ps)
              (createdVariantKeys ps)
              (if named then updatedVariantKeys ps ++ [key]
               else updatedVariantKeys ps)
              (activatedSlugs ps) pv)
  end.

(** One iteration of the loop over the rows of a sheet.  The state of the
    loop is the store, the local variables and the current category. *)
Definition processRow (priceUSD : PriceMap) (pricesText : gostring)
           (fxRate defaultMargin : float64)
           (r : Repo) (ps : Pass) (category : gostring) (row : Row)
  : Repo * Step (Pass * gostring) :=
  if (length row =? 0)%nat then (r, Done (ps, category))
  else
    let name := cell row 1 in
    let color := cell row 2 in
    let stockStr := stockCell row in
    if isSectionTitle name
    then (r, Done (ps, ToLower (TrimSpace name)))
    else if isEmpty name then (r, Done (ps, category))
    else
      (* [row[2]] is read without a length check *)
      match nth_error row 2 with
      | None => (r, Panicked)
      | Some c2 =>
          if EqualFold (TrimSpace c2) "Color" then (r, Done (ps, category))
          else
            let baseKey := normalizeBaseKey (removeColorFromName name) in
            let color :=
              if isEmpty color then inferColorFromName name else color in
            let stock := mapStock stockStr in
            let usd := rowPrice priceUSD baseKey in
            if le0 usd
            then (r, Done (recordUnmatched pricesText baseKey ps, category))
            else
              let gross := mul usd fxRate in
              let margin := defaultMargin in
              let price := withMargin gross margin in
              let '(p, r1, ps1) :=
                upsertProduct r ps baseKey category gross margin price in
              let (r2, ps2) := upsertVariant r1 ps1 p color stockStr stock in
              (r2, Done (ps2, category))
      end.

(** The loop over the rows of one sheet. *)
Fixpoint processRows (priceUSD : PriceMap) (pricesText : gostring)
         (fxRate defaultMargin : float64)
         (r : Repo) (ps : Pass) (category : gostring) (rows : list Row)
  : Repo * Step Pass :=
  match rows with
  | [] => (r, Done ps)
  | row :: rest =>
      match processRow priceUSD pricesText fxRate defaultMargin
                       r ps category row with
      | (r1, Done (ps1, category1)) =>
          processRows priceUSD pricesText fxRate defaultMargin
                      r1 ps1 category1 rest
      | (r1, Panicked) => (r1, Panicked)
      end
  end.

(** The loop over the sheets. *)
Fixpoint processSheets (priceUSD : PriceMap) (pricesText : gostring)
         (fxRate defaultMargin : float64)
         (r : Repo) (ps : Pass) (sheets : Workbook) : Repo * Step Pass :=
  match sheets with
  | [] => (r, Done ps)
  | sh :: rest =>
      match sh with
      | None | Some [] =>
          processSheets priceUSD pricesText fxRate defaultMargin r ps rest
      | Some rows =>
          match processRows priceUSD pricesText fxRate defaultMargin
                            r ps [] rows with
          | (r1, Done ps1) =>
              processSheets priceUSD pricesText fxRate defaultMargin
                            r1 ps1 rest
          | (r1, Panicked) => (r1, Panicked)
          end
      end
  end.

(** Step 1.5: the variants of the processed products whose color was not
    seen in this pass get stock 0.  [processed] is the listing of the map
    [processedVariants] in the order of the [range]. *)
Definition sweepVariant (processedColors : list (gostring * bool))
           (r : Repo) (v : Variant.t) : Repo :=
  let colorKey := ToLower (TrimSpace (Variant.Color v)) in
  if negb (processedColor processedColors colorKey)
  then ProductUC.UpdateVariant r (Variant.withStock v 0)
  else r.

Definition sweepProduct (r : Repo)
           (entry : uuid * list (gostring * bool)) : Repo :=
  let (productID, processedColors) := entry in
  let (allVariants, r1) := ProductUC.ListVariants r productID in
  fold_left (sweepVariant processedColors) allVariants r1.

Definition stockZeroSweep (processed : list (uuid * list (gostring * bool)))
           (r : Repo) : Repo :=
  fold_left sweepProduct processed r.

Definition Counts5 : Type := Z * Z * Z * Z * Z.
Definition Counts4 : Type := Z * Z * Z * Z.

(** [wb] is the outcome of [excelize.OpenReader] on the uploaded bytes,
    [None] when it returns an error. *)
Definition importFromXLSXCombined (s : Server) (wb : option Workbook)
           (priceUSD : PriceMap) (pricesText : gostring)
           (fxRate defaultMargin : float64) : Server * Step Counts5 :=
  match wb with
  | None => (s, Done (0, 0, 0, 0, 0)%Z)
  | Some sheets =>
      (* step 1: every product inactive *)
      let r0 := ProductRepo.MarkAllInactive (repo s) in
      match processSheets priceUSD pricesText fxRate defaultMargin
                          r0 emptyPass sheets with
      | (r1, Panicked) => (mkServer r1 (lastImport s), Panicked)
      | (r1, Done ps) =>
          let r2 := stockZeroSweep (processedVariants ps) r1 in
          (* step 2: the products left inactive *)
          let (inactiveSlugs, r3) := ProductRepo.GetInactiveSlugs r2 in
          let rep :=
            mkReport (createdP ps) (updatedP ps) (createdV ps) (updatedV ps)
                     (unmatched ps) (Z.of_nat (length inactiveSlugs))
                     (unmatchedItems ps) (unmatchedReasons ps)
                     (createdProductSlugs ps) (updatedProductSlugs ps)
                     inactiveSlugs
                     (createdVariantKeys ps) (updatedVariantKeys ps) in
          (mkServer r3 (Some rep),
           Done (createdP ps, updatedP ps, createdV ps, updatedV ps,
                 unmatched ps))
      end
  end.

(** The base keys of the spreadsheet, [excelProducts]. *)
Definition excelRowKey (row : Row) : list gostring :=
  if (1 <? length row)%nat then
    let name := TrimSpace (nth 1 row []) in
    if negb (isEmpty name) && negb (isSectionTitle name)
    then [normalizeBaseKey (removeColorFromName name)] else []
  else [].

Definition excelProducts (wb : option Workbook) : list gostring :=
  match wb with
  | None => []
  | Some sheets =>
      flat_map (fun sh : Sheet =>
                  match sh with
                  | None => []
                  | Some rows => flat_map excelRowKey rows
                  end) sheets
  end.

(** The section of the price text in which the product is listed. *)
Fixpoint sectionOf (baseLower currentSection : gostring)
         (lines : list gostring) : gostring :=
  match lines with
  | [] => []
  | line :: rest =>
      let lineTrim := TrimSpace line in
      if isEmpty lineTrim then sectionOf baseLower currentSection rest
      else if isSectionTitle lineTrim
      then sectionOf baseLower (ToLower lineTrim) rest
      else if Contains (ToLower lineTrim) baseLower then currentSection
      else sectionOf baseLower currentSection rest
  end.

Definition hasAny (s : gostring) (keys : list string) : bool :=
  existsb (fun k => Contains s (list_ascii_of_string k)) keys.

(** The category of last resort, from keywords of the name; the accented
    o of the last category is its two UTF-8 bytes. *)
Definition categoryByName (baseLower : gostring) : gostring :=
  if hasAny baseLower ["macbook"; "notebook"; "nb "] then "notebooks"
  else if hasAny baseLower ["ipad"; "tablet"] then "tablets"
  else if Contains baseLower "watch" && negb (Contains baseLower "iphone")
  then "pencil para ipad usb-c"
  else if hasAny baseLower ["airpods"; "airtag"; "pencil"]
  then "pencil para ipad usb-c"
  else if Contains baseLower "jbl"
  then (if Contains baseLower "auri" then "audio-auris"
        else "audio-parlantes")
  else if hasAny baseLower ["ps5"; "xbox"; "nintendo"; "quest"]
  then "consolas/gaming"
  else if hasAny baseLower ["amazfit"; "garmin"; "smart band"; "galaxy fit";
                            "poco watch"; "x-view"]
  then "smartwatches"
  else if hasAny baseLower ["echo"; "kindle"; "gopro"; "insta360"]
  then ("electr" : gostring) ++ ["195"%char; "179"%char] ++ "nica liviana"
  else [].

(** The body of the loop of [importFromPricesTextOnly] over the price
    map. *)
Definition importPriceOnlyEntry (excel : list gostring)
           (pricesText : gostring) (fxRate defaultMargin : float64)
           (acc : Repo * Counts4) (entry : gostring * float64)
  : Repo * Counts4 :=
  let '(r, (cP, uP, cV, uV)) := acc in
  let (baseKey, usd) := entry in
  if existsb (Strings.eqb baseKey) excel then acc
  else if le0 usd then acc
  else
    let gross := mul usd fxRate in
    let margin := defaultMargin in
    let price := withMargin gross margin in
    let (brand, model) := inferBrandModel baseKey in
    let baseLower := ToLower baseKey in
    let category := sectionOf baseLower [] (Split pricesText ["010"%char]) in
    let category :=
      if isEmpty category then categoryByName baseLower else category in
    let (found, r1) := ProductUC.GetBySlug r (slugify baseKey) in
    let '(p, r2, cP, uP) :=
      match found with
      | None =>
          let (p, r2) :=
            ProductUC.Create r1 (Product.mk Nil [] baseKey price gross margin
                                            category brand model true) in
          (p, r2, (cP + 1)%Z, uP)
      | Some q =>
          let q1 := Product.withActive
                      (Product.withPrices q gross margin price) true in
          let q2 := if isEmpty (Product.Category q1)
                       && negb (isEmpty category)
                    then Product.withCategory q1 category else q1 in
          let (p, r2) := ProductUC.Create r1 q2 in
          (p, r2, cP, (uP + 1)%Z)
      end in
    let (vs, r3) := ProductUC.ListVariants r2 (Product.ID p) in
    if (length vs =? 0)%nat then
      let (_, r4) :=
        ProductUC.CreateVariant r3 (Variant.mk Nil (Product.ID p) [] 10) in
      (r4, (cP, uP, (cV + 1)%Z, uV))
    else (r3, (cP, uP, cV, uV)).

Definition importFromPricesTextOnly (s : Server) (priceUSD : PriceMap)
           (pricesText : gostring) (fxRate defaultMargin : float64)
           (xlsxData : option Workbook) : Server * Counts4 :=
  let excel := excelProducts xlsxData in
  let (r, counts) :=
    fold_left (importPriceOnlyEntry excel pricesText fxRate defaultMargin)
              priceUSD (repo s, (0, 0, 0, 0)%Z) in
  (mkServer r (lastImport s), counts).

(** The answer of the import handler. *)
Inductive Response :=
| BadRequest (msg : gostring)
| OK (created_products updated_products created_variants updated_variants
      unmatched : Z) (report : option ImportReport).

(** [handleAdminImportCSV] once the form is decoded, on the deterministic
    path ([use_openai] not set): [pricesText] is the trimmed form field,
    [wb] the opened upload. *)
Definition handleAdminImportCSV (s : Server) (wb : option Workbook)
           (pricesText : gostring) (fxRate defaultMargin : float64)
  : Server * Step Response :=
  if le0 fxRate then (s, Done (BadRequest "fx"))
  else
    let priceMap := parseUSDPrices pricesText in
    match importFromXLSXCombined s wb priceMap pricesText
                                 fxRate defaultMargin with
    | (s1, Panicked) => (s1, Panicked)
    | (s1, Done (cP, uP, cV, uV, un)) =>
        let '(s2, (cp, up, cv, uv)) :=
          importFromPricesTextOnly s1 priceMap pricesText
                                   fxRate defaultMargin wb in
        (s2, Done (OK (cP + cp) (uP + up) (cV + cv) (uV + uv) un
                      (lastImport s2)))
    end.

(** ** Helpers of the other handlers *)

(** [secureCompare]: the comparison of the admin key.  [v] is a byte; the
    or and the exclusive or of bytes are bytes, so that no truncation
    occurs. *)
Definition secureCompare (a b : gostring) : bool :=
  if negb (length a =? length b)%nat then false
  else
    let v := fold_left (fun (v : N) (xy : ascii * ascii) =>
                          N.lor v (N.lxor (N_of_ascii (fst xy))
                                          (N_of_ascii (snd xy))))
                       (combine a b) 0%N in
    N.eqb v 0.

(** The table of shipping costs by province. *)
Definition provinceCosts : list (gostring * float64) :=
  map (fun p : string => (list_ascii_of_string p, ofZ 9000))
    [ "Santa Fe"; "Buenos Aires"; "CABA"; "Cordoba"; "Entre Rios";
      "Corrientes"; "Chaco"; "Misiones"; "Formosa"; "Santiago del Estero";
      "Tucuman"; "Salta"; "Jujuy"; "Catamarca"; "La Rioja"; "San Juan";
      "San Luis"; "Mendoza"; "La Pampa"; "Neuquen"; "Rio Negro"; "Chubut";
      "Santa Cruz"; "Tierra del Fuego" ].

Definition shippingCostFor (province : gostring) : float64 :=
  match get Strings.eqb provinceCosts province with
  | Some v => v
  | None => if isEmpty province then zero else ofZ 9000
  end.








(** ** The cart *)

(** Go's [int] on the platforms of the program: 64 bits, two's
    complement, wrapping on overflow. *)
Definition wrap64 (z : Z) : Z :=
  ((z + 2 ^ 63) mod 2 ^ 64 - 2 ^ 63)%Z.

Record cartItem := mkCartItem {
  itemSlug : gostring;
  itemColor : gostring;
  itemQty : Z;
  itemPrice : float64
}.

Record cartLine := mkCartLine {
  lineSlug : gostring;
  lineColor : gostring;
  lineQty : Z;
  lineUnitPrice : float64;
  lineSubtotal : float64;
  lineName : gostring;
  lineImage : gostring
}.

(** The first loop of [aggregateCart]: the map from [slug|color] to the
    line of that key. *)
Definition addItem (m : list (gostring * cartLine)) (it : cartItem)
  : list (gostring * cartLine) :=
  if (itemQty it <=? 0)%Z then m
  else
    let key := itemSlug it ++ "|" ++ itemColor it in
    let line :=
      match get Strings.eqb m key with
      | Some line => line
      | None => mkCartLine (itemSlug it) (itemColor it) 0 (itemPrice it)
                           zero [] []
      end in
    set Strings.eqb key
        (mkCartLine (lineSlug line) (lineColor line)
                    (wrap64 (lineQty line + itemQty it))
                    (lineUnitPrice line) (lineSubtotal line)
                    (lineName line) (lineImage line))
        m.

(** The body of the second loop.  [lookup] gives the product of a slug
    and the addresses of its images, or nothing. *)
Definition priceLine (lookup : gostring -> option (Product.t * list gostring))
           (l : cartLine) : cartLine :=
  let l1 :=
    match lookup (lineSlug l) with
    | Some (p, images) =>
        mkCartLine (lineSlug l) (lineColor l) (lineQty l)
                   (if nonzero (Product.BasePrice p)
                    then Product.BasePrice p else lineUnitPrice l)
                   (lineSubtotal l)
                   (Product.Name p)
                   (match images with
                    | url :: _ => url
                    | [] => lineImage l
                    end)
    | None => l
    end in
  mkCartLine (lineSlug l1) (lineColor l1) (lineQty l1) (lineUnitPrice l1)
             (mul (lineUnitPrice l1) (ofZ (lineQty l1)))
             (lineName l1) (lineImage l1).

(** [aggregateCart], the lines in the order in which their keys first
    occur among the items (Go ranges over the map in an order of its
    own). *)
Definition aggregateCart (items : list cartItem)
           (lookup : gostring -> option (Product.t * list gostring))
  : list cartLine :=
  map (fun kl => priceLine lookup (snd kl)) (fold_left addItem items []).

(** * Properties *)

Unset Implicit Arguments.

Arguments normalizeBaseKey : simpl never.
Arguments removeColorFromName : simpl never.
Arguments normalize : simpl never.
Arguments detectUnmatchReason : simpl never.
Arguments matchUSDPrice : simpl never.
Arguments parseLine : simpl never.
Arguments inferColorFromName : simpl never.
Arguments mapStock : simpl never.
Arguments isSectionTitle : simpl never.
Arguments slugify : simpl never.
Arguments inferBrandModel : simpl never.
Arguments withMargin : simpl never.
Arguments ProductRepo.newUUID : simpl never.

(** ** Strings: elementary facts *)

Section StringFacts.

Lemma eqb_refl (a : gostring) : Strings.eqb a a = true.
Proof.
  induction a as [|x a IH]; simpl; [reflexivity|].
  now rewrite Ascii.eqb_refl.
Qed.

Lemma eqb_eq (a b : gostring) : Strings.eqb a b = true <-> a = b.
Proof.
  split.
  - revert b; induction a as [|x a IH]; intros [|y b]; simpl;
      try discriminate; [reflexivity|].
    intros H. apply andb_true_iff in H as [Hx Hab].
    apply Ascii.eqb_eq in Hx. now rewrite Hx, (IH b Hab).
  - intros ->. apply eqb_refl.
Qed.

Lemma eqb_neq (a b : gostring) : Strings.eqb a b = false <-> a <> b.
Proof.
  rewrite <- eqb_eq. destruct (Strings.eqb a b); split; congruence.
Qed.

Lemma isEmpty_nil (s : gostring) : isEmpty s = true <-> s = [].
Proof. destruct s; simpl; split; congruence. Qed.

Lemma isEmpty_false (s : gostring) : isEmpty s = false <-> s <> [].
Proof. destruct s; simpl; split; congruence. Qed.

End StringFacts.

(** ** float64: the sign tests *)

Lemma gt0_not_le0 (v : float64) : gt0 v = true -> le0 v = false.
Proof.
  destruct v as [[|]|[|]| |[|] m e]; simpl; try discriminate; reflexivity.
Qed.

Lemma le0_zero : le0 zero = true.
Proof. reflexivity. Qed.

(** ** Go maps *)

Section AssocFacts.
Variables (K V : Type) (keq : K -> K -> bool).
Hypothesis keq_eq : forall a b, keq a b = true <-> a = b.

Lemma get_In (m : list (K * V)) k v : get keq m k = Some v -> In (k, v) m.
Proof.
  induction m as [|[k' v'] m IH]; simpl; [discriminate|].
  destruct (keq k' k) eqn:E.
  - intros [= ->]. apply keq_eq in E. subst. now left.
  - intros H. right. now apply IH.
Qed.

Lemma get_None (m : list (K * V)) k :
  get keq m k = None <-> forall v, ~ In (k, v) m.
Proof.
  induction m as [|[k' v'] m IH]; simpl.
  - split; [intros _ v []|reflexivity].
  - destruct (keq k' k) eqn:E.
    + apply keq_eq in E. subst. split; [discriminate|].
      intros H. exfalso. apply (H v'). now left.
    + rewrite IH. split.
      * intros H v [[= Hk _]|Hin]; [|now apply (H v)].
        apply keq_eq in Hk. congruence.
      * intros H v Hin. apply (H v). now right.
Qed.

Lemma In_set (m : list (K * V)) k v k0 v0 :
  In (k, v) (set keq k0 v0 m) -> (k, v) = (k0, v0) \/ In (k, v) m.
Proof.
  induction m as [|[k' v'] m IH]; simpl.
  - intros [H|[]]. now left.
  - destruct (keq k' k0); simpl.
    + intros [H|H]; [now left|right; now right].
    + intros [H|H]; [right; now left|].
      destruct (IH H) as [H1|H1]; [now left|right; now right].
Qed.

Lemma get_set_same (m : list (K * V)) k v : get keq (set keq k v m) k = Some v.
Proof.
  assert (Hr : keq k k = true) by now apply keq_eq.
  induction m as [|[k' v'] m IH]; simpl.
  - now rewrite Hr.
  - destruct (keq k' k) eqn:E; simpl; [now rewrite Hr|now rewrite E].
Qed.

Lemma get_set_other (m : list (K * V)) k v k1 :
  k1 <> k -> get keq (set keq k v m) k1 = get keq m k1.
Proof.
  intros Hne.
  assert (Hf : keq k k1 = false).
  { destruct (keq k k1) eqn:E; [|reflexivity].
    apply keq_eq in E. congruence. }
  induction m as [|[k' v'] m IH]; simpl.
  - now rewrite Hf.
  - destruct (keq k' k) eqn:E; simpl.
    + apply keq_eq in E. subst k'. now rewrite Hf.
    + now rewrite IH.
Qed.
End AssocFacts.

(** ** The price-list parser *)

(** The entries of a price map are priced under a name. *)
Definition wellPriced (m : PriceMap) : Prop :=
  forall k v, In (k, v) m -> k <> [] /\ gt0 v = true.

Lemma parseLine_wellPriced (res : PriceMap) (ln : gostring) :
  wellPriced res -> wellPriced (parseLine res ln).
Proof.
  intros Hres. unfold parseLine.
  destruct (isEmpty (TrimSpace ln)); [assumption|].
  destruct (_ || _); [assumption|].
  destruct (findFirst priceRe (TrimSpace ln)) as [[[i m1] n]|]; [|assumption].
  match goal with |- context [negb (isEmpty ?k) && gt0 ?u] =>
    destruct (isEmpty k) eqn:Ek; destruct (gt0 u) eqn:Eu; simpl;
    try assumption
  end.
  intros k v Hin. apply In_set in Hin as [[= -> ->]|Hin]; [|now apply Hres].
  split; [|assumption]. now apply isEmpty_false.
Qed.

Lemma fold_parseLine_wellPriced (lines : list gostring) (res : PriceMap) :
  wellPriced res -> wellPriced (fold_left parseLine lines res).
Proof.
  revert res; induction lines as [|ln lines IH]; intros res Hres; simpl.
  - assumption.
  - apply IH. now apply parseLine_wellPriced.
Qed.

Lemma parseUSDPrices_wellPriced (text : gostring) :
  wellPriced (parseUSDPrices text).
Proof.
  unfold parseUSDPrices. destruct (isEmpty (TrimSpace text)).
  - intros k v [].
  - apply fold_parseLine_wellPriced. intros k v [].
Qed.

(** C10: every entry of the map returned by [parseUSDPrices] has a
    non-empty key and a strictly positive USD value; hence the price read
    for a key, [priceOf], passes the test [usd <= 0] by which the
    orchestrator classifies a row as unmatched exactly when the map has no
    entry for the key. *)
Theorem C10_parsed_prices_positive (text : gostring) :
  (forall k v, In (k, v) (parseUSDPrices text) -> k <> [] /\ gt0 v = true)
  /\ (forall k, le0 (priceOf (parseUSDPrices text) k) = true
                <-> lookup (parseUSDPrices text) k = None).
Proof.
  split; [apply parseUSDPrices_wellPriced|].
  intros k. unfold priceOf.
  destruct (lookup (parseUSDPrices text) k) as [v|] eqn:E.
  - apply (get_In _ _ Strings.eqb eqb_eq) in E.
    apply parseUSDPrices_wellPriced in E as [_ Hv].
    rewrite (gt0_not_le0 _ Hv). split; discriminate.
  - split; [reflexivity|intros _; apply le0_zero].
Qed.

(** ** Color stripping *)

(** When the last word is itself a color, only that word is removed: the
    check of the last two words is not reached. *)
Lemma removeColor_last_word_only (before : list gostring) (lastw : gostring) :
  let s := Join (rev (lastw :: before)) " " in
  Fields (TrimSpace (rewriteAll (parenGroup true " ") s)) = rev (lastw :: before) ->
  existsb (fun c => Strings.eqb (ToLower lastw) c || Contains (ToLower lastw) c)
          colors = true ->
  removeColorFromName s = TrimSpace (Join (rev before) " ").
Proof.
  intros s Hf Hc. unfold removeColorFromName. fold s.
  rewrite Hf, rev_involutive. now rewrite Hc.
Qed.

(** C5: the color-stripping helper on the two names of the claim.  The
    single trailing color word is removed; of the two-word phrase only
    the last word is, because [oscuro] is in the color list and the test of
    the last word wins. *)
Theorem C5_removeColor_examples :
  removeColorFromName "Moto G35 Negro" = "Moto G35"
  /\ removeColorFromName "iPhone 17 Azul Oscuro" = "iPhone 17 Azul"
  /\ removeColorFromName "iPhone 17 Azul Oscuro" <> "iPhone 17".
Proof.
  assert (H2 : removeColorFromName "iPhone 17 Azul Oscuro" = "iPhone 17 Azul").
  { apply (removeColor_last_word_only
             ["Azul" : gostring; "17" : gostring; "iPhone" : gostring]
             "Oscuro"); vm_compute; reflexivity. }
  split; [vm_compute; reflexivity|].
  split; [exact H2|].
  rewrite H2. intros H. apply eqb_eq in H. vm_compute in H. discriminate.
Qed.

(** ** One pass over a small catalog *)

Definition LF : gostring := ["010"%char].

(** A stored notebook and a stored phone, both active. *)
Definition c1_repo : Repo :=
  mkRepo
    [ Product.mk 1 "macbook-air-m4" "Macbook Air M4" zero zero zero
                 "notebooks" "Macbook" "Air M4" true;
      Product.mk 2 "old-phone-1" "Old Phone 1" zero zero zero
                 [] "Old" "Phone 1" true ]
    [] [].

(** One sheet: a section title and one phone row. *)
Definition c1_workbook : option Workbook :=
  Some [ Some [ [ [] ; "MOTOROLA" : gostring ];
                [ [] ; "Moto G55 8/256 GB 5G DS" : gostring;
                  "Negro" : gostring; [] ; "Disponible" : gostring ] ] ].

(** The price list: the phone of the sheet, and the notebook, which no
    sheet lists. *)
Definition c1_prices : gostring :=
  "Moto G55 8/256 GB 5G DS   $255" ++ LF ++ "Macbook Air M4   $1000".

Definition slugAndActive (p : Product.t) : gostring * bool :=
  (Product.Slug p, Product.Active p).

(** C1, at a failing input: the stored notebook is priced by the price
    list only.  The pass ends with the notebook active, and yet its slug
    is in [DeprecatedSlugs], because [importFromXLSXCombined] reads the
    inactive slugs before [importFromPricesTextOnly] runs.  The phone of
    the spreadsheet is active and not listed; the untouched phone is
    inactive and listed. *)
Theorem C1_price_only_product_listed_deprecated :
  let s' := fst (handleAdminImportCSV (mkServer c1_repo None) c1_workbook
                                      c1_prices (ofZ 1485) (ofZ 20)) in
  map slugAndActive (products (repo s'))
  = [ ("macbook-air-m4" : gostring, true);
      ("old-phone-1" : gostring, false);
      ("moto-g55-8/256-gb-5g-ds" : gostring, true) ]
  /\ option_map DeprecatedSlugs (lastImport s')
     = Some [ "macbook-air-m4" : gostring; "old-phone-1" : gostring ].
Proof.
  cbv zeta. split.
  - vm_compute. reflexivity.
  - vm_compute. reflexivity.
Qed.

(** ** Prefixes and occurrences *)

Lemma HasPrefix_app (p b : gostring) : HasPrefix (p ++ b) p = true.
Proof.
  induction p as [|x p IH]; simpl; [reflexivity|].
  now rewrite Ascii.eqb_refl.
Qed.

Lemma HasPrefix_spec (s p : gostring) :
  HasPrefix s p = true <-> exists b, s = p ++ b.
Proof.
  split.
  - revert s; induction p as [|x p IH]; intros s H; simpl in *.
    + now exists s.
    + destruct s as [|y s]; [discriminate|].
      apply andb_true_iff in H as [Hx Hp]. apply Ascii.eqb_eq in Hx.
      destruct (IH s Hp) as [b ->]. exists b. now subst.
  - intros [b ->]. apply HasPrefix_app.
Qed.

Lemma Contains_prefix (s p : gostring) :
  HasPrefix s p = true -> Contains s p = true.
Proof. destruct s; simpl; intros ->; reflexivity. Qed.

Lemma Contains_spec (s p : gostring) :
  Contains s p = true <-> exists a b, s = a ++ p ++ b.
Proof.
  split.
  - induction s as [|c s IH]; simpl; intros H.
    + rewrite orb_false_r in H. apply HasPrefix_spec in H as [b Hb].
      now exists [], b.
    + apply orb_true_iff in H as [H|H].
      * apply HasPrefix_spec in H as [b Hb]. now exists [], b.
      * destruct (IH H) as (a & b & ->). now exists (c :: a), b.
  - intros (a & b & ->). induction a as [|c a IH]; simpl.
    + apply Contains_prefix, HasPrefix_app.
    + rewrite IH. apply orb_true_r.
Qed.

(** ** Trimming *)

Lemma dropWhile_all (p : ascii -> bool) (s : gostring) :
  forallb p s = true -> dropWhile p s = [].
Proof.
  induction s as [|c s IH]; simpl; [reflexivity|].
  intros H. apply andb_true_iff in H as [Hc Hs]. now rewrite Hc, IH.
Qed.

Lemma dropWhile_nil_all (p : ascii -> bool) (s : gostring) :
  dropWhile p s = [] -> forallb p s = true.
Proof.
  induction s as [|c s IH]; simpl; [reflexivity|].
  destruct (p c); [exact IH|discriminate].
Qed.

Lemma forallb_rev (p : ascii -> bool) (s : gostring) :
  forallb p (rev s) = forallb p s.
Proof.
  induction s as [|c s IH]; simpl; [reflexivity|].
  rewrite forallb_app, IH. simpl. rewrite andb_true_r. apply andb_comm.
Qed.

Lemma dropWhile_suffix (p : ascii -> bool) (s : gostring) :
  exists a, s = a ++ dropWhile p s /\ forallb p a = true.
Proof.
  induction s as [|c s (a & Ha & Hp)]; simpl.
  - now exists [].
  - destruct (p c) eqn:E.
    + exists (c :: a). simpl. rewrite E, Hp. split; [now f_equal|reflexivity].
    + now exists [].
Qed.

Lemma TrimFunc_all (p : ascii -> bool) (s : gostring) :
  forallb p s = true -> TrimFunc p s = [].
Proof.
  intros H. unfold TrimFunc, TrimRightFunc, TrimLeftFunc.
  now rewrite (dropWhile_all _ _ H).
Qed.

Lemma TrimFunc_nil_all (p : ascii -> bool) (s : gostring) :
  TrimFunc p s = [] -> forallb p s = true.
Proof.
  unfold TrimFunc, TrimRightFunc, TrimLeftFunc. intros H.
  apply (f_equal (@rev ascii)) in H. rewrite rev_involutive in H. simpl in H.
  apply dropWhile_nil_all in H. rewrite forallb_rev in H.
  destruct (dropWhile_suffix p s) as (a & Ha & Hp).
  rewrite Ha, forallb_app, Hp, H. reflexivity.
Qed.

(** A word that starts with a byte outside the class survives the
    trimming of what precedes it. *)
Lemma dropWhile_keeps (p : ascii -> bool) (a : gostring) (x : ascii)
      (r : gostring) :
  p x = false -> exists a', dropWhile p (a ++ x :: r) = a' ++ x :: r.
Proof.
  intros Hx. induction a as [|c a [a' IH]]; simpl.
  - rewrite Hx. now exists [].
  - destruct (p c).
    + now exists a'.
    + now exists (c :: a).
Qed.


Lemma TrimRight_keeps (p : ascii -> bool) (a : gostring) (y : ascii)
      (b : gostring) :
  p y = false ->
  exists b', TrimRightFunc p (a ++ y :: b) = a ++ y :: b'.
Proof.
  intros Hy. unfold TrimRightFunc.
  rewrite rev_app_distr. cbn [rev]. rewrite <- app_assoc. cbn [app].
  destruct (dropWhile_keeps p (rev b) y (rev a) Hy) as [b' ->].
  exists (rev b'). rewrite rev_app_distr. cbn [rev].
  rewrite rev_involutive, <- app_assoc. reflexivity.
Qed.

Lemma TrimFunc_keeps (p : ascii -> bool) (a w b : gostring) (x y : ascii) :
  p x = false -> p y = false ->
  exists a' b', TrimFunc p (a ++ x :: w ++ y :: b) = a' ++ x :: w ++ y :: b'.
Proof.
  intros Hx Hy. unfold TrimFunc, TrimLeftFunc.
  destruct (dropWhile_keeps p a x (w ++ y :: b) Hx) as [a' ->].
  replace (a' ++ x :: w ++ y :: b) with ((a' ++ x :: w) ++ y :: b)
    by now rewrite <- app_assoc.
  destruct (TrimRight_keeps p (a' ++ x :: w) y b Hy) as [b' ->].
  exists a', b'. now rewrite <- app_assoc.
Qed.

Lemma toLowerByte_isSpace (c : ascii) : isSpace (toLowerByte c) = isSpace c.
Proof.
  destruct c as [[|] [|] [|] [|] [|] [|] [|] [|]]; reflexivity.
Qed.

Lemma dropWhile_map (p : ascii -> bool) (f : ascii -> ascii) (s : gostring) :
  (forall c, p (f c) = p c) ->
  dropWhile p (map f s) = map f (dropWhile p s).
Proof.
  intros Hf. induction s as [|c s IH]; simpl; [reflexivity|].
  rewrite Hf. now destruct (p c).
Qed.

Lemma TrimSpace_ToLower (s : gostring) :
  TrimSpace (ToLower s) = ToLower (TrimSpace s).
Proof.
  unfold TrimSpace, TrimFunc, TrimRightFunc, TrimLeftFunc, ToLower.
  rewrite (dropWhile_map _ _ _ toLowerByte_isSpace), <- map_rev.
  rewrite (dropWhile_map _ _ _ toLowerByte_isSpace), <- map_rev.
  reflexivity.
Qed.

(** An occurrence of a word that neither starts nor ends with white space
    is an occurrence in the trimmed text. *)
Lemma Contains_TrimSpace (s w : gostring) (x y : ascii) :
  isSpace x = false -> isSpace y = false ->
  Contains s (x :: w ++ [y]) = true ->
  Contains (TrimSpace s) (x :: w ++ [y]) = true.
Proof.
  intros Hx Hy H. apply Contains_spec in H as (a & b & ->).
  replace (a ++ (x :: w ++ [y]) ++ b) with (a ++ x :: w ++ y :: b)
    by (cbn [app]; now rewrite <- app_assoc).
  destruct (TrimFunc_keeps isSpace a w b x y Hx Hy) as (a' & b' & E).
  unfold TrimSpace. rewrite E. apply Contains_spec. exists a', b'.
  cbn [app]. now rewrite <- app_assoc.
Qed.

(** ** Lines that the parser skips *)

(** A line is excluded when it is blank or carries one of the two
    markers, in any letter case. *)
Definition excludedLine (ln : gostring) : bool :=
  isEmpty (TrimSpace ln)
  || Contains (ToLower ln) "sin stock"
  || Contains (ToLower ln) "sin precio".

Lemma marker_in_trimmed (ln w : gostring) (x y : ascii) :
  isSpace x = false -> isSpace y = false ->
  Contains (ToLower ln) (x :: w ++ [y]) = true ->
  Contains (ToLower (TrimSpace ln)) (x :: w ++ [y]) = true.
Proof.
  intros Hx Hy H. rewrite <- TrimSpace_ToLower.
  now apply Contains_TrimSpace.
Qed.

Lemma parseLine_excluded (res : PriceMap) (ln : gostring) :
  excludedLine ln = true -> parseLine res ln = res.
Proof.
  unfold excludedLine, parseLine. intros H.
  destruct (isEmpty (TrimSpace ln)); [reflexivity|]. simpl in H.
  apply orb_true_iff in H as [H|H].
  - apply (marker_in_trimmed ln "in stoc" "s" "k") in H;
      [|reflexivity|reflexivity].
    cbn [app] in H.
    change (Contains (ToLower (TrimSpace ln)) "sin stock" = true) in H.
    now rewrite H.
  - apply (marker_in_trimmed ln "in preci" "s" "o") in H;
      [|reflexivity|reflexivity].
    change (Contains (ToLower (TrimSpace ln)) "sin precio" = true) in H.
    rewrite H. now rewrite orb_true_r.
Qed.

Lemma fold_parseLine_filter (lines : list gostring) (res : PriceMap) :
  fold_left parseLine lines res
  = fold_left parseLine (filter (fun l => negb (excludedLine l)) lines) res.
Proof.
  revert res. induction lines as [|ln lines IH]; intros res; simpl.
  - reflexivity.
  - destruct (excludedLine ln) eqn:E; simpl.
    + rewrite (parseLine_excluded res ln E). apply IH.
    + apply IH.
Qed.

(** The pieces of a split text are made of bytes of the text. *)
Lemma splitFrom_bytes (P : ascii -> Prop) (sep : gostring) (s : gostring) :
  forall skip cur, Forall P s -> Forall P cur ->
  Forall (Forall P) (splitFrom sep skip cur s).
Proof.
  induction s as [|c s IH]; intros skip cur Hs Hcur; simpl.
  - constructor; [|constructor]. now apply Forall_rev.
  - inversion Hs as [|? ? Hc Hs']; subst.
    destruct skip as [|k]; [|now apply IH].
    destruct (HasPrefix (c :: s) sep).
    + constructor; [now apply Forall_rev|]. apply IH; [assumption|constructor].
    + apply IH; [assumption|now constructor].
Qed.

Lemma blank_text_lines (text : gostring) :
  isEmpty (TrimSpace text) = true ->
  Forall (fun l => excludedLine l = true) (Split text LF).
Proof.
  intros H. apply isEmpty_nil, TrimFunc_nil_all in H.
  assert (Hall : Forall (fun c => isSpace c = true) text).
  { apply Forall_forall. now apply forallb_forall. }
  pose proof (splitFrom_bytes (fun c => isSpace c = true) LF text 0 []
                              Hall (Forall_nil _)) as Hl.
  unfold Split. eapply Forall_impl; [|exact Hl].
  intros l Hl'. unfold excludedLine.
  assert (E : TrimSpace l = []).
  { apply TrimFunc_all, forallb_forall. now apply Forall_forall. }
  now rewrite E.
Qed.

Lemma filter_all_excluded (lines : list gostring) :
  Forall (fun l => excludedLine l = true) lines ->
  filter (fun l => negb (excludedLine l)) lines = [].
Proof.
  induction 1 as [|l lines Hl _ IH]; simpl; [reflexivity|].
  now rewrite Hl.
Qed.

(** C6: [parseUSDPrices] is a total function to price maps.  It returns
    the empty map on an input made of white space only (the empty text
    included); a line that is blank, or that holds [sin stock] or
    [sin precio] in any letter case, leaves the map under construction
    as it is, so that the parsed map is the one obtained from the other
    lines alone; and the line of the claim yields no key. *)
Theorem C6_parse_skips_excluded_lines :
  (forall text, forallb isSpace text = true -> parseUSDPrices text = [])
  /\ (forall res ln, excludedLine ln = true -> parseLine res ln = res)
  /\ (forall text,
        parseUSDPrices text
        = fold_left parseLine
                    (filter (fun l => negb (excludedLine l)) (Split text LF))
                    [])
  /\ parseUSDPrices "iPhone 17 256 GB   Sin Stock" = [].
Proof.
  split; [|split; [|split]].
  - intros text H. unfold parseUSDPrices.
    now rewrite (TrimFunc_all _ _ H : TrimSpace text = []).
  - apply parseLine_excluded.
  - intros text. unfold parseUSDPrices.
    destruct (isEmpty (TrimSpace text)) eqn:E.
    + now rewrite (filter_all_excluded _ (blank_text_lines text E)).
    + apply fold_parseLine_filter.
  - vm_compute. reflexivity.
Qed.

(** ** The first occurrence of a text *)

(** [i] is the offset of the first occurrence of [p] in [s]. *)
Definition firstOccurrence (s p : gostring) (i : nat) : Prop :=
  HasPrefix (skipn i s) p = true
  /\ forall j, j < i -> HasPrefix (skipn j s) p = false.

Lemma firstOccurrence_unique (s p : gostring) (i j : nat) :
  firstOccurrence s p i -> firstOccurrence s p j -> i = j.
Proof.
  intros [Hi Hi'] [Hj Hj'].
  destruct (Nat.lt_trichotomy i j) as [H|[H|H]]; [|assumption|].
  - rewrite (Hj' i H) in Hi. discriminate.
  - rewrite (Hi' j H) in Hj. discriminate.
Qed.

Lemma Index_absent (s p : gostring) :
  Contains s p = false -> Index s p = (-1)%Z.
Proof.
  induction s as [|c s IH]; simpl; intros H;
    apply orb_false_iff in H as [Hp Hs]; rewrite Hp; [reflexivity|].
  now rewrite (IH Hs).
Qed.

Lemma Index_first (s p : gostring) :
  Contains s p = true ->
  exists i, Index s p = Z.of_nat i /\ firstOccurrence s p i.
Proof.
  induction s as [|c s IH]; simpl; intros H.
  - rewrite orb_false_r in H. rewrite H. exists 0. split; [reflexivity|].
    split; [exact H|]. intros j Hj. inversion Hj.
  - destruct (HasPrefix (c :: s) p) eqn:Hp.
    + exists 0. split; [reflexivity|]. split; [exact Hp|].
      intros j Hj. inversion Hj.
    + simpl in H. destruct (IH H) as (i & Hi & Hocc & Hbefore).
      exists (S i). rewrite Hi.
      destruct (Z.ltb_spec (Z.of_nat i) 0) as [Hneg|_]; [lia|].
      split; [lia|]. split; [exact Hocc|].
      intros [|j] Hj; [exact Hp|]. apply Hbefore. lia.
Qed.

Lemma firstOccurrence_Contains (s p : gostring) (i : nat) :
  firstOccurrence s p i -> Contains s p = true.
Proof.
  intros [H _]. apply HasPrefix_spec in H as [b Hb].
  apply Contains_spec. exists (firstn i s), b.
  now rewrite <- Hb, firstn_skipn.
Qed.

(** ** Unmatch reasons *)

(** The first two words of the key, lower-cased, occur in the text. *)
Definition prefixOccurs (baseKey text : gostring) : bool :=
  match Fields baseKey with
  | p0 :: p1 :: _ => Contains text (ToLower (p0 ++ " " ++ p1))
  | _ => false
  end.

(** [sin stock] occurs within the 150 bytes that start at offset [i]. *)
Definition flaggedNear (text : gostring) (i : nat) : bool :=
  Contains (firstn 150 (skipn i text)) "sin stock".

Lemma snippet_firstn (s : gostring) :
  (if (150 <? length s)%nat then firstn 150 s else s) = firstn 150 s.
Proof.
  destruct (Nat.ltb_spec 150 (length s)); [reflexivity|].
  symmetry. now apply firstn_all2.
Qed.

Lemma detectUnmatchReason_cases (baseKey pricesText : gostring) :
  let key := ToLower baseKey in
  let text := ToLower pricesText in
  (Contains text key = false
   /\ detectUnmatchReason baseKey pricesText
      = if prefixOccurs baseKey text then "formato_diferente" : gostring
        else "no_encontrado")
  \/ (exists i, firstOccurrence text key i
      /\ detectUnmatchReason baseKey pricesText
         = if flaggedNear text i then "sin_stock" : gostring
           else "precio_invalido").
Proof.
  intros key text. unfold detectUnmatchReason. fold key text.
  destruct (Contains text key) eqn:E; simpl.
  - right. destruct (Index_first _ _ E) as (i & Hi & Hocc).
    exists i. split; [exact Hocc|]. rewrite Hi.
    destruct (Z.leb_spec 0 (Z.of_nat i)) as [_|Hneg]; [|lia].
    rewrite Nat2Z.id, snippet_firstn. reflexivity.
  - left. split; [reflexivity|]. unfold prefixOccurs.
    destruct (Fields baseKey) as [|p0 [|p1 rest]]; reflexivity.
Qed.

(** C8: [detectUnmatchReason] returns one of four reasons, each under
    its own condition on the lower-cased key and price text, and the four
    conditions exclude one another. *)
Theorem C8_unmatch_reason (baseKey pricesText : gostring) :
  let key := ToLower baseKey in
  let text := ToLower pricesText in
  let r := detectUnmatchReason baseKey pricesText in
  (r = "no_encontrado"
   <-> Contains text key = false /\ prefixOccurs baseKey text = false)
  /\ (r = "formato_diferente"
      <-> Contains text key = false /\ prefixOccurs baseKey text = true)
  /\ (r = "sin_stock"
      <-> exists i, firstOccurrence text key i /\ flaggedNear text i = true)
  /\ (r = "precio_invalido"
      <-> exists i, firstOccurrence text key i /\ flaggedNear text i = false)
  /\ (r = "no_encontrado" \/ r = "formato_diferente"
      \/ r = "sin_stock" \/ r = "precio_invalido").
Proof.
  intros key text r.
  pose proof (detectUnmatchReason_cases baseKey pricesText) as H.
  cbv zeta in H. fold key text r in H.
  destruct H as [[Habs Hr]|(i & Hocc & Hr)].
  - assert (Hno : forall j, ~ firstOccurrence text key j).
    { intros j Hj. apply firstOccurrence_Contains in Hj. congruence. }
    destruct (prefixOccurs baseKey text); rewrite Hr;
      (repeat split; try discriminate; try tauto;
       try (intros [_ H]; discriminate H);
       try (intros (j & Hj & _); now destruct (Hno j))).
  - assert (Hin : Contains text key = true)
      by now apply firstOccurrence_Contains in Hocc.
    assert (Huniq : forall j, firstOccurrence text key j -> j = i)
      by (intros j Hj; exact (firstOccurrence_unique _ _ _ _ Hj Hocc)).
    destruct (flaggedNear text i) eqn:Hf; rewrite Hr;
      (repeat split; try discriminate; try tauto;
       try (intros [H _]; congruence);
       try (intros _; now exists i);
       try (intros (j & Hj & Hfj); apply Huniq in Hj; subst j; congruence)).
Qed.

(** ** The tiers of the matcher *)

(** Tier 1: the direct lookup. *)
Definition exactTier (m : PriceMap) (baseKey : gostring) : option float64 :=
  lookup m baseKey.

(** Tier 2: the first entry whose comparison form is the one of the
    key. *)
Definition normalizedTier (m : PriceMap) (baseKey : gostring)
  : option float64 :=
  option_map snd
    (find (fun kv => Strings.eqb (normalize (fst kv)) (normalize baseKey)) m).

(** Tier 3: the first entry that passes the keyword test. *)
Definition partialTier (m : PriceMap) (baseKey : gostring) : option float64 :=
  let baseWords := Fields (normalize baseKey) in
  if (2 <=? length baseWords)%nat
  then option_map snd (find (fun kv => partialHit baseWords (fst kv)) m)
  else None.

(** The guard of the third tier, on the comparison forms of the key and
    of a candidate: two shared signature words, and two signatures longer
    than eight bytes. *)
Definition partialGuard (baseKey k : gostring) : Prop :=
  let baseWords := Fields (normalize baseKey) in
  let kWords := Fields (normalize k) in
  2 <= overlap baseWords kWords
  /\ 8 < length (Join (signature baseWords) " ")
  /\ 8 < length (Join (signature kWords) " ").

Lemma matchUSDPrice_tiers (m : PriceMap) (baseKey : gostring) :
  matchUSDPrice m baseKey
  = match exactTier m baseKey with
    | Some v => v
    | None =>
        match normalizedTier m baseKey with
        | Some v => v
        | None =>
            match partialTier m baseKey with
            | Some v => v
            | None => zero
            end
        end
    end.
Proof.
  unfold matchUSDPrice, exactTier, normalizedTier, partialTier.
  destruct (lookup m baseKey); [reflexivity|].
  destruct (find _ m) as [[k v]|]; [reflexivity|]. cbn [option_map].
  match goal with |- context [(2 <=? ?n)%nat] => destruct (2 <=? n)%nat end;
    [|reflexivity].
  destruct (find _ m) as [[k v]|]; reflexivity.
Qed.

Lemma normalizedTier_None (m : PriceMap) (baseKey : gostring) :
  normalizedTier m baseKey = None
  <-> forall k v, In (k, v) m -> normalize k <> normalize baseKey.
Proof.
  unfold normalizedTier. split.
  - destruct (find _ m) as [kv|] eqn:E; [discriminate|]. intros _ k v Hin.
    apply (find_none _ _ E) in Hin. simpl in Hin. now apply eqb_neq.
  - intros H. destruct (find _ m) as [[k v]|] eqn:E; [|reflexivity].
    apply find_some in E as [Hin Heq]. simpl in Heq.
    apply eqb_eq in Heq. now destruct (H k v Hin).
Qed.

Lemma partialHit_guard (baseKey k : gostring) :
  partialHit (Fields (normalize baseKey)) k = true -> partialGuard baseKey k.
Proof.
  unfold partialHit, partialGuard. intros H.
  apply andb_true_iff in H as [_ H].
  apply andb_true_iff in H as [_ H].
  apply andb_true_iff in H as [H H3].
  apply andb_true_iff in H as [H1 H2].
  apply Nat.leb_le in H1. apply Nat.ltb_lt in H2, H3. auto.
Qed.

Lemma partialTier_guard (m : PriceMap) (baseKey : gostring) (v : float64) :
  partialTier m baseKey = Some v ->
  exists k, In (k, v) m /\ partialGuard baseKey k.
Proof.
  unfold partialTier.
  match goal with |- context [(2 <=? ?n)%nat] => destruct (2 <=? n)%nat end;
    [|discriminate].
  destruct (find _ m) as [[k v']|] eqn:E; [|discriminate].
  intros [= <-]. apply find_some in E as [Hin Hhit]. simpl in *.
  exists k. split; [assumption|]. now apply partialHit_guard.
Qed.

(** C7: a nonzero price that [matchUSDPrice] returns when neither the
    exact tier nor the normalized tier produces one is the price of an
    entry that passes the guard of the partial tier; and when no tier
    matches the result is 0. *)
Theorem C7_partial_tier_guard (m : PriceMap) (baseKey : gostring) :
  (exactTier m baseKey = None ->
   normalizedTier m baseKey = None ->
   nonzero (matchUSDPrice m baseKey) = true ->
   exists k, In (k, matchUSDPrice m baseKey) m /\ partialGuard baseKey k)
  /\ (exactTier m baseKey = None ->
      normalizedTier m baseKey = None ->
      partialTier m baseKey = None ->
      matchUSDPrice m baseKey = zero).
Proof.
  rewrite matchUSDPrice_tiers. split.
  - intros -> -> Hnz.
    destruct (partialTier m baseKey) as [v|] eqn:E.
    + now apply partialTier_guard.
    + discriminate Hnz.
  - now intros -> -> ->.
Qed.

(** ** The variants table *)

(** The primary key of the variants table: no nil identifier, no
    identifier twice. *)
Definition variantKeysOK (vs : list Variant.t) : Prop :=
  Forall (fun v => Variant.ID v <> Nil) vs /\ NoDup (map Variant.ID vs).

(** [vs] with the row of the identifier of [v] replaced by [v]. *)
Definition replaceVariant (v : Variant.t) (vs : list Variant.t)
  : list Variant.t :=
  map (fun w => if (Variant.ID w =? Variant.ID v)%nat then v else w) vs.

Lemma replaceVariant_ids (v : Variant.t) (vs : list Variant.t) :
  map Variant.ID (replaceVariant v vs) = map Variant.ID vs.
Proof.
  unfold replaceVariant. rewrite map_map. apply map_ext. intros w.
  destruct (Nat.eqb_spec (Variant.ID w) (Variant.ID v)); congruence.
Qed.

Lemma existsb_id_In (v : Variant.t) (vs : list Variant.t) :
  In v vs -> existsb (fun w => (Variant.ID w =? Variant.ID v)%nat) vs = true.
Proof.
  intros H. apply existsb_exists. exists v. split; [assumption|].
  apply Nat.eqb_refl.
Qed.

Lemma newUUID_fresh (r : Repo) (v : Variant.t) :
  In v (variants r) -> Variant.ID v < ProductRepo.newUUID r.
Proof.
  intros H. unfold ProductRepo.newUUID. apply Nat.lt_succ_r.
  assert (Hall := proj1 (list_max_le
                 (map Product.ID (products r) ++ map Variant.ID (variants r))
                 _) (Nat.le_refl _)).
  rewrite Forall_forall in Hall. apply Hall.
  apply in_or_app. right. now apply in_map.
Qed.

Lemma newUUID_not_Nil (r : Repo) : ProductRepo.newUUID r <> Nil.
Proof. unfold ProductRepo.newUUID, Nil. discriminate. Qed.

(** Saving a variant whose identifier is stored rewrites that row. *)
Lemma SaveVariant_stored (r : Repo) (v : Variant.t) :
  Variant.ID v <> Nil ->
  existsb (fun w => (Variant.ID w =? Variant.ID v)%nat) (variants r) = true ->
  variants (snd (ProductRepo.SaveVariant r v)) = replaceVariant v (variants r)
  /\ products (snd (ProductRepo.SaveVariant r v)) = products r.
Proof.
  intros Hid Hex. unfold ProductRepo.SaveVariant.
  destruct (Nat.eqb_spec (Variant.ID v) Nil) as [E|_]; [contradiction|].
  rewrite Hex. simpl. split; reflexivity.
Qed.

Lemma UpdateVariant_stored (r : Repo) (v : Variant.t) :
  Variant.ID v <> Nil ->
  existsb (fun w => (Variant.ID w =? Variant.ID v)%nat) (variants r) = true ->
  variants (ProductUC.UpdateVariant r v) = replaceVariant v (variants r)
  /\ products (ProductUC.UpdateVariant r v) = products r.
Proof.
  intros Hid Hex. unfold ProductUC.UpdateVariant.
  destruct (Nat.eqb_spec (Variant.ID v) Nil) as [E|_]; [contradiction|].
  now apply SaveVariant_stored.
Qed.

(** Creating a variant appends a row under a fresh identifier. *)
Lemma CreateVariant_new (r : Repo) (pid : uuid) (color : gostring) (n : Z) :
  let v := Variant.mk (ProductRepo.newUUID r) pid color n in
  variants (snd (ProductUC.CreateVariant r (Variant.mk Nil pid color n)))
  = variants r ++ [v]
  /\ products (snd (ProductUC.CreateVariant r (Variant.mk Nil pid color n)))
     = products r.
Proof.
  intros v. unfold ProductUC.CreateVariant, ProductRepo.SaveVariant.
  cbn [Variant.ID Variant.withID Nat.eqb Nil].
  fold v.
  destruct (Nat.eqb_spec (Variant.ID v) 0) as [E|_].
  { exfalso. now apply (newUUID_not_Nil r). }
  destruct (existsb _ (variants r)) eqn:Hex.
  - exfalso. apply existsb_exists in Hex as (w & Hin & Hw).
    apply Nat.eqb_eq in Hw. apply newUUID_fresh in Hin.
    simpl in Hw. lia.
  - simpl. split; reflexivity.
Qed.

Lemma variantKeysOK_replace (v : Variant.t) (vs : list Variant.t) :
  Variant.ID v <> Nil -> variantKeysOK vs -> variantKeysOK (replaceVariant v vs).
Proof.
  intros Hv [Hnn Hnd]. split.
  - unfold replaceVariant. apply Forall_map. eapply Forall_impl; [|exact Hnn].
    intros w Hw. simpl. now destruct (Variant.ID w =? Variant.ID v)%nat.
  - now rewrite replaceVariant_ids.
Qed.

Lemma variantKeysOK_new (r : Repo) (pid : uuid) (color : gostring) (n : Z) :
  variantKeysOK (variants r) ->
  variantKeysOK
    (variants r ++ [Variant.mk (ProductRepo.newUUID r) pid color n]).
Proof.
  intros [Hnn Hnd]. split.
  - apply Forall_app. split; [assumption|].
    constructor; [apply newUUID_not_Nil|constructor].
  - rewrite map_app. simpl.
    apply NoDup_app; [assumption|constructor; [intros []|constructor]|].
    intros x Hx [<-|[]]. apply in_map_iff in Hx as (w & Hw & Hin).
    apply newUUID_fresh in Hin. simpl in Hw. lia.
Qed.

(** ** The stock-zero sweep *)

Definition colorKey (v : Variant.t) : gostring :=
  ToLower (TrimSpace (Variant.Color v)).

(** The variant is one that the sweep of a map entry sets to 0. *)
Definition sweeps (entry : uuid * list (gostring * bool)) (v : Variant.t)
  : bool :=
  (Variant.ProductID v =? fst entry)%nat
  && negb (processedColor (snd entry) (colorKey v)).

(** What the sweep of the processed products leaves of a stored
    variant. *)
Definition sweptVariant (processed : list (uuid * list (gostring * bool)))
           (v : Variant.t) : Variant.t :=
  match get Nat.eqb processed (Variant.ProductID v) with
  | Some colors =>
      if processedColor colors (colorKey v) then v else Variant.withStock v 0
  | None => v
  end.

(** Two rows that differ at most by their stock. *)
Definition sameButStock (v w : Variant.t) : Prop :=
  Variant.withStock v 0 = Variant.withStock w 0.

Lemma sameButStock_fields (v w : Variant.t) :
  sameButStock v w ->
  Variant.ID v = Variant.ID w /\ Variant.ProductID v = Variant.ProductID w
  /\ Variant.Color v = Variant.Color w.
Proof.
  destruct v, w. unfold sameButStock, Variant.withStock. simpl.
  intros [= -> -> ->]. auto.
Qed.

Lemma NoDup_ids_same (vs : list Variant.t) (v w : Variant.t) :
  NoDup (map Variant.ID vs) -> In v vs -> In w vs ->
  Variant.ID v = Variant.ID w -> v = w.
Proof.
  induction vs as [|x vs IH]; simpl; intros Hnd Hv Hw Hid; [contradiction|].
  inversion Hnd as [|? ? Hnotin Hnd']; subst.
  destruct Hv as [->|Hv], Hw as [->|Hw]; try reflexivity.
  - exfalso. apply Hnotin. rewrite Hid. now apply in_map.
  - exfalso. apply Hnotin. rewrite <- Hid. now apply in_map.
  - now apply IH.
Qed.

Lemma sweepVariant_eq (colors : list (gostring * bool)) (r : Repo)
      (v : Variant.t) :
  sweepVariant colors r v
  = if processedColor colors (colorKey v) then r
    else ProductUC.UpdateVariant r (Variant.withStock v 0).
Proof.
  unfold sweepVariant, colorKey.
  now destruct (processedColor colors _).
Qed.

(** The inner loop: the rows of [vs] that the condition selects are set
    to 0, the others stay. *)
Lemma sweep_fold (colors : list (gostring * bool)) (vs : list Variant.t) :
  forall r,
    variantKeysOK (variants r) ->
    (forall v, In v vs -> exists w, In w (variants r) /\ sameButStock w v) ->
    let r' := fold_left (sweepVariant colors) vs r in
    variants r'
    = map (fun w =>
             if existsb (fun v => (Variant.ID v =? Variant.ID w)%nat
                                  && negb (processedColor colors (colorKey v)))
                        vs
             then Variant.withStock w 0 else w) (variants r)
    /\ products r' = products r.
Proof.
  induction vs as [|v vs IH]; intros r Hok Hsnap; cbn [fold_left existsb].
  - split; [|reflexivity]. rewrite <- (map_id (variants r)) at 1.
    reflexivity.
  - rewrite sweepVariant_eq.
    destruct (processedColor colors (colorKey v)) eqn:Hc; cbn [negb].
    + destruct (IH r Hok) as [Hv Hp].
      { intros x Hx. apply Hsnap. now right. }
      split; [|exact Hp]. cbv zeta in Hv. rewrite Hv. apply map_ext.
      intros w. now rewrite andb_false_r.
    + destruct (Hsnap v (or_introl eq_refl)) as (w0 & Hw0 & Hsame).
      destruct (sameButStock_fields _ _ Hsame) as (Hid & _ & _).
      assert (Hnn : Variant.ID (Variant.withStock v 0) <> Nil).
      { simpl. rewrite <- Hid. destruct Hok as [Hnn _].
        rewrite Forall_forall in Hnn. now apply Hnn. }
      assert (Hex : existsb (fun w => (Variant.ID w
                                       =? Variant.ID (Variant.withStock v 0))%nat)
                            (variants r) = true).
      { apply existsb_exists. exists w0. split; [assumption|].
        simpl. now apply Nat.eqb_eq. }
      destruct (UpdateVariant_stored r _ Hnn Hex) as [Hv1 Hp1].
      set (r1 := ProductUC.UpdateVariant r (Variant.withStock v 0)) in *.
      assert (Hrep : variants r1
                     = map (fun w => if (Variant.ID w =? Variant.ID v)%nat
                                     then Variant.withStock w 0 else w)
                           (variants r)).
      { rewrite Hv1. unfold replaceVariant. apply map_ext_in. intros w Hw.
        simpl. destruct (Nat.eqb_spec (Variant.ID w) (Variant.ID v)) as [E|_];
          [|reflexivity].
        assert (w = w0).
        { destruct Hok as [_ Hnd].
          apply (NoDup_ids_same _ _ _ Hnd Hw Hw0). congruence. }
        subst w0. symmetry. exact Hsame. }
      destruct (IH r1) as [Hv Hp].
      { rewrite Hv1. apply variantKeysOK_replace; assumption. }
      { intros x Hx. destruct (Hsnap x (or_intror Hx)) as (w & Hw & Hs).
        exists (if (Variant.ID w =? Variant.ID v)%nat
                then Variant.withStock w 0 else w).
        split.
        - rewrite Hrep. apply in_map_iff. now exists w.
        - destruct (Variant.ID w =? Variant.ID v)%nat; [|assumption].
          unfold sameButStock in *. rewrite <- Hs. now destruct w. }
      cbv zeta in Hv, Hp.
      split; [|now rewrite Hp]. rewrite Hv, Hrep, map_map.
      apply map_ext. intros w. rewrite andb_true_r.
      destruct (Nat.eqb_spec (Variant.ID w) (Variant.ID v)) as [E|E].
      * rewrite <- E, Nat.eqb_refl. cbn [orb].
        match goal with |- (if ?b then _ else _) = _ => destruct b end;
          now destruct w.
      * destruct (Nat.eqb_spec (Variant.ID v) (Variant.ID w)) as [E'|_];
          [congruence|]. reflexivity.
Qed.

Definition zeroIf (b : bool) (w : Variant.t) : Variant.t :=
  if b then Variant.withStock w 0 else w.

Lemma variantKeysOK_zeroIf (f : Variant.t -> bool) (vs : list Variant.t) :
  variantKeysOK vs -> variantKeysOK (map (fun w => zeroIf (f w) w) vs).
Proof.
  intros [Hnn Hnd]. split.
  - apply Forall_map. eapply Forall_impl; [|exact Hnn].
    intros w Hw. unfold zeroIf. now destruct (f w).
  - rewrite map_map.
    replace (map (fun w => Variant.ID (zeroIf (f w) w)) vs)
      with (map Variant.ID vs); [assumption|].
    apply map_ext. intros w. unfold zeroIf. now destruct (f w).
Qed.

Lemma existsb_pointwise {A : Type} (f g : A -> bool) (l : list A) :
  (forall x, f x = g x) -> existsb f l = existsb g l.
Proof.
  intros H. induction l as [|x l IH]; simpl; [reflexivity|].
  now rewrite H, IH.
Qed.

Lemma sweeps_zeroIf (entry : uuid * list (gostring * bool)) (b : bool)
      (w : Variant.t) :
  sweeps entry (zeroIf b w) = sweeps entry w.
Proof. unfold zeroIf. now destruct b. Qed.

(** The sweep of one entry of the map. *)
Lemma sweepProduct_variants (r : Repo)
      (entry : uuid * list (gostring * bool)) :
  variantKeysOK (variants r) -> fst entry <> Nil ->
  variants (sweepProduct r entry)
  = map (fun w => zeroIf (sweeps entry w) w) (variants r)
  /\ products (sweepProduct r entry) = products r.
Proof.
  destruct entry as [pid colors]. cbn [fst]. intros Hok Hpid.
  unfold sweepProduct, ProductUC.ListVariants.
  destruct (Nat.eqb_spec pid Nil) as [E|_]; [contradiction|].
  cbn [ProductRepo.ListVariants].
  set (vs := filter (fun v => (Variant.ProductID v =? pid)%nat) (variants r)).
  set (r0 := ProductRepo.called r (CallListVariants pid)).
  destruct (sweep_fold colors vs r0) as [Hv Hp].
  - exact Hok.
  - intros v Hv. apply filter_In in Hv as [Hin _]. now exists v.
  - cbv zeta in Hv, Hp. split; [|exact Hp]. rewrite Hv.
    apply map_ext_in. intros w Hw. unfold zeroIf, sweeps. cbn [fst snd].
    match goal with |- (if ?b then _ else _) = (if ?c then _ else _) =>
      assert (Hbc : b = c); [|now rewrite Hbc] end.
    apply eq_true_iff_eq. rewrite existsb_exists, andb_true_iff. split.
    + intros (v & Hin & Hcond). apply andb_true_iff in Hcond as [Hid Hc].
      apply Nat.eqb_eq in Hid. apply filter_In in Hin as [Hin Hpv].
      assert (v = w).
      { destruct Hok as [_ Hnd]. now apply (NoDup_ids_same _ _ _ Hnd). }
      subst v. auto.
    + intros [Hpw Hc]. exists w. split.
      * apply filter_In. auto.
      * now rewrite Nat.eqb_refl.
Qed.

(** The whole sweep, for any listing of the map. *)
Lemma stockZeroSweep_variants
      (processed : list (uuid * list (gostring * bool))) :
  forall r,
    variantKeysOK (variants r) ->
    Forall (fun e => fst e <> Nil) processed ->
    variants (stockZeroSweep processed r)
    = map (fun w => zeroIf (existsb (fun e => sweeps e w) processed) w)
          (variants r)
    /\ products (stockZeroSweep processed r) = products r.
Proof.
  unfold stockZeroSweep.
  induction processed as [|e processed IH]; intros r Hok Hnn;
    cbn [fold_left existsb].
  - split; [|reflexivity]. rewrite <- (map_id (variants r)) at 1.
    reflexivity.
  - inversion Hnn as [|? ? He Hnn']; subst.
    destruct (sweepProduct_variants r e Hok He) as [Hv1 Hp1].
    destruct (IH (sweepProduct r e)) as [Hv Hp].
    + rewrite Hv1. now apply variantKeysOK_zeroIf.
    + assumption.
    + split; [|now rewrite Hp]. rewrite Hv, Hv1, map_map.
      apply map_ext. intros w.
      replace (existsb (fun e0 => sweeps e0 (zeroIf (sweeps e w) w)) processed)
        with (existsb (fun e0 => sweeps e0 w) processed)
        by (apply existsb_pointwise; intros e0; now rewrite sweeps_zeroIf).
      unfold zeroIf. destruct (sweeps e w); cbn [orb]; [|reflexivity].
      destruct (existsb _ processed); now destruct w.
Qed.

Lemma existsb_sweeps_get (processed : list (uuid * list (gostring * bool)))
      (w : Variant.t) :
  NoDup (map fst processed) ->
  zeroIf (existsb (fun e => sweeps e w) processed) w = sweptVariant processed w.
Proof.
  unfold sweptVariant.
  induction processed as [|[pid colors] processed IH]; intros Hnd;
    cbn [existsb get]; [reflexivity|].
  inversion Hnd as [|? ? Hnotin Hnd']; subst.
  unfold sweeps at 1. cbn [fst snd]. rewrite (Nat.eqb_sym pid).
  destruct (Nat.eqb_spec (Variant.ProductID w) pid) as [E|E]; cbn [andb orb].
  - assert (Hrest : existsb (fun e => sweeps e w) processed = false).
    { apply not_true_is_false. intros H.
      apply existsb_exists in H as ([pid' c'] & Hin & Hs).
      unfold sweeps in Hs. cbn [fst] in Hs.
      apply andb_true_iff in Hs as [Hp _]. apply Nat.eqb_eq in Hp.
      apply Hnotin. apply in_map_iff. exists (pid', c'). split; [|assumption].
      simpl. congruence. }
    rewrite Hrest, orb_false_r. unfold zeroIf.
    now destruct (processedColor colors (colorKey w)).
  - now apply IH.
Qed.


(** ** Invariants of the loop over the rows *)

Section SetKeys.
Variables (K V : Type) (keq : K -> K -> bool).
Hypothesis keq_eq : forall a b, keq a b = true <-> a = b.

Lemma set_keys (m : list (K * V)) (k : K) (v : V) :
  map fst (set keq k v m)
  = if existsb (keq k) (map fst m) then map fst m else map fst m ++ [k].
Proof.
  induction m as [|[k' v'] m IH]; simpl; [reflexivity|].
  destruct (keq k' k) eqn:E.
  - apply keq_eq in E. subst k'.
    rewrite (proj2 (keq_eq k k) eq_refl). reflexivity.
  - assert (E' : keq k k' = false).
    { destruct (keq k k') eqn:E'; [|reflexivity].
      apply keq_eq in E'. subst k'.
      now rewrite (proj2 (keq_eq k k) eq_refl) in E. }
    rewrite E'. simpl. rewrite IH.
    now destruct (existsb (keq k) (map fst m)).
Qed.

Lemma set_keys_NoDup (m : list (K * V)) (k : K) (v : V) :
  NoDup (map fst m) -> NoDup (map fst (set keq k v m)).
Proof.
  intros Hnd. rewrite set_keys.
  destruct (existsb (keq k) (map fst m)) eqn:E; [assumption|].
  apply NoDup_app; [assumption|constructor; [intros []|constructor]|].
  intros x Hx [<-|[]].
  assert (existsb (keq k) (map fst m) = true); [|congruence].
  apply existsb_exists. exists k. split; [assumption|now apply keq_eq].
Qed.

Lemma set_keys_Forall (P : K -> Prop) (m : list (K * V)) (k : K) (v : V) :
  P k -> Forall P (map fst m) -> Forall P (map fst (set keq k v m)).
Proof.
  intros Hk Hm. rewrite set_keys.
  destruct (existsb (keq k) (map fst m)); [assumption|].
  apply Forall_app. split; [assumption|]. now constructor.
Qed.
End SetKeys.

(** What the loop keeps true of the store and of its bookkeeping. *)
Definition passOK (r : Repo) (ps : Pass) : Prop :=
  variantKeysOK (variants r)
  /\ Forall (fun id => id <> Nil) (map fst (processedVariants ps))
  /\ NoDup (map fst (processedVariants ps)).

Lemma Save_variants (r : Repo) (p : Product.t) :
  variants (snd (ProductRepo.Save r p)) = variants r.
Proof.
  unfold ProductRepo.Save. destruct (ProductRepo.slugTaken r p); [reflexivity|].
  now destruct (existsb _ (products r)).
Qed.

Lemma Create_variants (r : Repo) (p : Product.t) :
  variants (snd (ProductUC.Create r p)) = variants r.
Proof. unfold ProductUC.Create. cbn [snd]. apply Save_variants. Qed.

Lemma Create_ID (r : Repo) (p : Product.t) :
  Product.ID (fst (ProductUC.Create r p)) <> Nil.
Proof.
  unfold ProductUC.Create. cbn [fst Product.withSlug Product.ID].
  destruct (Nat.eqb_spec (Product.ID p) Nil) as [E|E]; [|exact E].
  apply newUUID_not_Nil.
Qed.

Lemma GetBySlug_variants (r : Repo) (slug : gostring) :
  variants (snd (ProductUC.GetBySlug r slug)) = variants r.
Proof. unfold ProductUC.GetBySlug. now destruct (isEmpty slug). Qed.

Lemma upsertProduct_frame (r : Repo) (ps : Pass) (baseKey category : gostring)
      (gross margin price : float64) :
  let '(p, r1, ps1) :=
    upsertProduct r ps baseKey category gross margin price in
  variants r1 = variants r
  /\ processedVariants ps1 = processedVariants ps
  /\ Product.ID p <> Nil.
Proof.
  unfold upsertProduct.
  destruct (inferBrandModel baseKey) as [brand model].
  pose proof (GetBySlug_variants r (slugify baseKey)) as Hg.
  destruct (ProductUC.GetBySlug r (slugify baseKey)) as [found r1].
  cbn [snd] in Hg.
  destruct found as [q|].
  - match goal with |- context [ProductUC.Create r1 ?p0] =>
      pose proof (Create_variants r1 p0) as Hc;
      pose proof (Create_ID r1 p0) as Hi;
      destruct (ProductUC.Create r1 p0) as [p r2] end.
    cbn [fst snd] in *. repeat split; [congruence|assumption].
  - match goal with |- context [ProductUC.Create r1 ?p0] =>
      pose proof (Create_variants r1 p0) as Hc;
      pose proof (Create_ID r1 p0) as Hi;
      destruct (ProductUC.Create r1 p0) as [p r2] end.
    cbn [fst snd] in *. repeat split; [congruence|assumption].
Qed.

Lemma ListVariants_sound (r : Repo) (pid : uuid) :
  variants (snd (ProductUC.ListVariants r pid)) = variants r
  /\ forall v, In v (fst (ProductUC.ListVariants r pid)) -> In v (variants r).
Proof.
  unfold ProductUC.ListVariants. destruct (pid =? Nil)%nat; cbn [fst snd].
  - split; [reflexivity|intros v []].
  - split; [reflexivity|]. intros v Hv. now apply filter_In in Hv.
Qed.

Lemma markProcessed_keys (pv : list (uuid * list (gostring * bool)))
      (id : uuid) (c : gostring) :
  id <> Nil ->
  Forall (fun k => k <> Nil) (map fst pv) -> NoDup (map fst pv) ->
  Forall (fun k => k <> Nil) (map fst (markProcessed pv id c))
  /\ NoDup (map fst (markProcessed pv id c)).
Proof.
  intros Hid Hnn Hnd. unfold markProcessed. split.
  - now apply (set_keys_Forall _ _ Nat.eqb Nat.eqb_eq).
  - now apply (set_keys_NoDup _ _ Nat.eqb Nat.eqb_eq).
Qed.

(** The stock that a priced row leaves on the variant it found. *)
Definition rowStock (existing : Variant.t) (stockStr : gostring) (stock : Z)
  : Variant.t :=
  if negb (isEmpty (TrimSpace stockStr)) && (0 <=? stock)%Z
  then Variant.withStock existing stock else existing.

Lemma upsertVariant_spec (r : Repo) (ps : Pass) (p : Product.t)
      (color stockStr : gostring) (stock : Z) :
  let vs := fst (ProductUC.ListVariants r (Product.ID p)) in
  let r2 := fst (upsertVariant r ps p color stockStr stock) in
  let ps2 := snd (upsertVariant r ps p color stockStr stock) in
  processedVariants ps2
  = markProcessed (processedVariants ps) (Product.ID p)
                  (ToLower (TrimSpace color))
  /\ products r2 = products r
  /\ match findVariant vs color with
     | None =>
         variants r2
         = variants r
             ++ [Variant.mk (ProductRepo.newUUID r) (Product.ID p) color stock]
     | Some existing =>
         Variant.ID existing <> Nil ->
         variants r2
         = replaceVariant (rowStock existing stockStr stock) (variants r)
     end.
Proof.
  intros vs. unfold upsertVariant. fold vs.
  destruct (ListVariants_sound r (Product.ID p)) as [Hlv Hin]. fold vs in Hin.
  destruct (ProductUC.ListVariants r (Product.ID p)) as [vs' r1] eqn:El.
  cbn [fst snd] in *. subst vs.
  assert (Hp1 : products r1 = products r).
  { unfold ProductUC.ListVariants in El.
    destruct (Product.ID p =? Nil)%nat; injection El as _ <-; reflexivity. }
  destruct (findVariant vs' color) as [existing|] eqn:Ef.
  - cbn [fst snd]. split; [reflexivity|].
    fold (rowStock existing stockStr stock).
    assert (Hex : In existing (variants r1)).
    { rewrite Hlv. apply Hin. now apply find_some in Ef. }
    assert (Hid : Variant.ID (rowStock existing stockStr stock)
                  = Variant.ID existing).
    { unfold rowStock. now destruct (_ && _). }
    split.
    + destruct (Nat.eqb_spec (Variant.ID existing) Nil) as [E|E].
      * unfold ProductUC.UpdateVariant. rewrite Hid, E. exact Hp1.
      * destruct (UpdateVariant_stored r1 (rowStock existing stockStr stock))
          as [_ Hp]; [congruence| |congruence].
        rewrite Hid. now apply existsb_id_In.
    + intros Hnn.
      destruct (UpdateVariant_stored r1 (rowStock existing stockStr stock))
        as [Hv _]; [congruence| |congruence].
      rewrite Hid. now apply existsb_id_In.
  - pose proof (CreateVariant_new r1 (Product.ID p) color stock) as Hc.
    cbv zeta in Hc.
    destruct (ProductUC.CreateVariant r1 _) as [v r2]. cbn [fst snd] in *.
    destruct Hc as [Hv Hp]. split; [reflexivity|]. split; [congruence|].
    rewrite Hv, Hlv. unfold ProductRepo.newUUID. now rewrite Hlv, Hp1.
Qed.

Lemma findVariant_In (vs : list Variant.t) (color : gostring)
      (existing : Variant.t) :
  findVariant vs color = Some existing -> In existing vs.
Proof. intros H. now apply find_some in H. Qed.

Lemma rowStock_ID (existing : Variant.t) (stockStr : gostring) (stock : Z) :
  Variant.ID (rowStock existing stockStr stock) = Variant.ID existing.
Proof. unfold rowStock. now destruct (_ && _). Qed.

Lemma upsertVariant_passOK (r : Repo) (ps : Pass) (p : Product.t)
      (color stockStr : gostring) (stock : Z) :
  Product.ID p <> Nil -> passOK r ps ->
  passOK (fst (upsertVariant r ps p color stockStr stock))
         (snd (upsertVariant r ps p color stockStr stock)).
Proof.
  intros Hp (Hok & Hnn & Hnd).
  destruct (upsertVariant_spec r ps p color stockStr stock) as (Hpv & _ & Hv).
  unfold passOK. rewrite Hpv.
  destruct (markProcessed_keys (processedVariants ps) (Product.ID p)
                               (ToLower (TrimSpace color)) Hp Hnn Hnd)
    as [Hnn' Hnd'].
  split; [|split; assumption].
  destruct (findVariant _ color) as [existing|] eqn:Ef.
  - assert (Hin : In existing (variants r)).
    { apply (proj2 (ListVariants_sound r (Product.ID p))).
      now apply findVariant_In in Ef. }
    assert (Hid : Variant.ID existing <> Nil).
    { destruct Hok as [Hall _]. rewrite Forall_forall in Hall.
      now apply Hall. }
    rewrite (Hv Hid). apply variantKeysOK_replace; [|assumption].
    now rewrite rowStock_ID.
  - rewrite Hv. now apply variantKeysOK_new.
Qed.

(** ** Rows *)

(** The join key and the color of a row. *)
Definition rowKey (row : Row) : gostring :=
  normalizeBaseKey (removeColorFromName (cell row 1)).

Definition rowColor (row : Row) : gostring :=
  if isEmpty (cell row 2) then inferColorFromName (cell row 1)
  else cell row 2.

(** A data row: a name with a digit in column B, a column C that is
    present and is not the header [Color]. *)
Definition isDataRow (row : Row) : bool :=
  negb (isSectionTitle (cell row 1))
  && negb (isEmpty (cell row 1))
  && match nth_error row 2 with
     | Some c2 => negb (EqualFold (TrimSpace c2) "Color")
     | None => false
     end.

(** A priced data row upserts its product, then its variant. *)
Lemma processRow_priced (priceUSD : PriceMap) (pricesText : gostring)
      (fxRate defaultMargin : float64) (r : Repo) (ps : Pass)
      (category : gostring) (row : Row) :
  isDataRow row = true ->
  le0 (rowPrice priceUSD (rowKey row)) = false ->
  processRow priceUSD pricesText fxRate defaultMargin r ps category row
  = let gross := mul (rowPrice priceUSD (rowKey row)) fxRate in
    let '(p, r1, ps1) :=
      upsertProduct r ps (rowKey row) category gross defaultMargin
                    (withMargin gross defaultMargin) in
    let (r2, ps2) :=
      upsertVariant r1 ps1 p (rowColor row) (stockCell row)
                    (mapStock (stockCell row)) in
    (r2, Done (ps2, category)).
Proof.
  unfold isDataRow, processRow. intros Hd Hp.
  apply andb_true_iff in Hd as [Hd Hc]. apply andb_true_iff in Hd as [Hs Hn].
  apply negb_true_iff in Hs, Hn.
  destruct (nth_error row 2) as [c2|] eqn:E2; [|discriminate].
  apply negb_true_iff in Hc.
  assert (Hlen : (length row =? 0)%nat = false).
  { destruct row; [discriminate E2|reflexivity]. }
  rewrite Hlen, Hs, Hn, Hc. fold (rowKey row). fold (rowColor row).
  rewrite Hp. reflexivity.
Qed.

Lemma recordUnmatched_processed (pricesText baseKey : gostring) (ps : Pass) :
  processedVariants (recordUnmatched pricesText baseKey ps)
  = processedVariants ps.
Proof. reflexivity. Qed.

Lemma processRow_passOK (priceUSD : PriceMap) (pricesText : gostring)
      (fxRate defaultMargin : float64) (r : Repo) (ps : Pass)
      (category : gostring) (row : Row) (r' : Repo) (ps' : Pass)
      (category' : gostring) :
  passOK r ps ->
  processRow priceUSD pricesText fxRate defaultMargin r ps category row
  = (r', Done (ps', category')) ->
  passOK r' ps'.
Proof.
  intros Hok. unfold processRow.
  destruct (length row =? 0)%nat; [now intros [= <- <- _]|].
  destruct (isSectionTitle (cell row 1)); [now intros [= <- <- _]|].
  destruct (isEmpty (cell row 1)); [now intros [= <- <- _]|].
  destruct (nth_error row 2) as [c2|]; [|discriminate].
  destruct (EqualFold (TrimSpace c2) "Color"); [now intros [= <- <- _]|].
  fold (rowKey row). fold (rowColor row).
  destruct (le0 (rowPrice priceUSD (rowKey row))).
  { intros [= <- <- _]. exact Hok. }
  match goal with |- context [upsertProduct r ps ?k ?c ?g ?m ?pr] =>
    pose proof (upsertProduct_frame r ps k c g m pr) as Hf;
    destruct (upsertProduct r ps k c g m pr) as [[p r1] ps1] end.
  destruct Hf as (Hv & Hpv & Hid).
  assert (Hok1 : passOK r1 ps1).
  { unfold passOK in *. now rewrite Hv, Hpv. }
  pose proof (upsertVariant_passOK r1 ps1 p (rowColor row) (stockCell row)
                (mapStock (stockCell row)) Hid Hok1) as Hok2.
  destruct (upsertVariant r1 ps1 p (rowColor row) (stockCell row)
                          (mapStock (stockCell row))) as [r2 ps2].
  now intros [= <- <- _].
Qed.

Lemma processRows_passOK (priceUSD : PriceMap) (pricesText : gostring)
      (fxRate defaultMargin : float64) (rows : list Row) :
  forall r ps category r' ps',
    passOK r ps ->
    processRows priceUSD pricesText fxRate defaultMargin r ps category rows
    = (r', Done ps') ->
    passOK r' ps'.
Proof.
  induction rows as [|row rows IH]; intros r ps category r' ps' Hok; simpl.
  - now intros [= <- <-].
  - destruct (processRow priceUSD pricesText fxRate defaultMargin
                         r ps category row) as [r1 [[ps1 c1]|]] eqn:E;
      [|discriminate].
    apply IH. eapply processRow_passOK; eassumption.
Qed.

Lemma processSheets_passOK (priceUSD : PriceMap) (pricesText : gostring)
      (fxRate defaultMargin : float64) (sheets : Workbook) :
  forall r ps r' ps',
    passOK r ps ->
    processSheets priceUSD pricesText fxRate defaultMargin r ps sheets
    = (r', Done ps') ->
    passOK r' ps'.
Proof.
  induction sheets as [|sh sheets IH]; intros r ps r' ps' Hok; simpl.
  - now intros [= <- <-].
  - destruct sh as [[|row rows]|]; [now apply IH| |now apply IH].
    destruct (processRows priceUSD pricesText fxRate defaultMargin
                          r ps [] (row :: rows)) as [r1 [ps1|]] eqn:E;
      [|discriminate].
    apply IH. eapply processRows_passOK; eassumption.
Qed.

Lemma emptyPass_OK (r : Repo) : variantKeysOK (variants r) -> passOK r emptyPass.
Proof.
  intros H. split; [assumption|]. split; constructor.
Qed.

(** ** The stock of a variant after a priced row *)

Lemma TrimFunc_within (p : ascii -> bool) (s : gostring) :
  exists a b, s = a ++ TrimFunc p s ++ b.
Proof.
  unfold TrimFunc, TrimRightFunc, TrimLeftFunc.
  destruct (dropWhile_suffix p s) as (a & Ha & _).
  destruct (dropWhile_suffix p (rev (dropWhile p s))) as (b & Hb & _).
  exists a, (rev b). rewrite Ha at 1. f_equal.
  rewrite <- (rev_involutive (dropWhile p s)) at 1.
  rewrite Hb at 1. now rewrite rev_app_distr.
Qed.

Lemma Contains_within (s a b w : gostring) :
  Contains s w = true -> Contains (a ++ s ++ b) w = true.
Proof.
  intros H. apply Contains_spec in H as (x & y & ->).
  apply Contains_spec. exists (a ++ x), (y ++ b).
  now rewrite <- !app_assoc.
Qed.

Lemma Contains_TrimSpace_eq (s w : gostring) (x y : ascii) :
  isSpace x = false -> isSpace y = false ->
  Contains (TrimSpace s) (x :: w ++ [y]) = Contains s (x :: w ++ [y]).
Proof.
  intros Hx Hy. apply eq_true_iff_eq. split.
  - intros H. destruct (TrimFunc_within isSpace s) as (a & b & E).
    rewrite E. now apply Contains_within.
  - now apply Contains_TrimSpace.
Qed.

(** The stock rule of the claim on the text of the stock cell: no text,
    the stock stays; [sin], 0; else [bajo], 2; else 10. *)
Definition stockTier (stockStr : gostring) (old : Z) : Z :=
  if isEmpty (TrimSpace stockStr) then old
  else if Contains (ToLower stockStr) "sin" then 0%Z
  else if Contains (ToLower stockStr) "bajo" then 2%Z
  else 10%Z.


Lemma ToLower_nil (s : gostring) : isEmpty (ToLower s) = isEmpty s.
Proof. now destruct s. Qed.




(** A stored phone with two colors, and a stored tablet. *)
Definition c2_repo : Repo :=
  mkRepo
    [ Product.mk 1 "moto-g35" "Moto G35" zero zero zero
                 "motorola" "Moto" "G35" true;
      Product.mk 2 "tab-a9" "Tab A9" zero zero zero
                 "tablets" "Tab" "A9" true ]
    [ Variant.mk 3 1 "Negro" 7;
      Variant.mk 4 1 "Azul" 5;
      Variant.mk 5 2 "Gris" 4 ]
    [].

Definition c2_prices : PriceMap := parseUSDPrices "Moto G35   $100".

(** The phone in black, upper case, with an empty stock cell. *)
Definition c2_row : Row :=
  [ [] ; "Moto G35 Negro" : gostring; "NEGRO" : gostring ].


(** The four stock texts of the claim on the stored black variant. *)
Example stock_rule_cells :
  let stockAfter cellD :=
    option_map Variant.Stock
      (find (fun v => (Variant.ID v =? 3)%nat)
            (variants (fst (processRow c2_prices "Moto G35   $100"
                                       (ofZ 1485) (ofZ 20)
                                       c2_repo emptyPass []
                                       (c2_row ++ [cellD])))))
  in
  stockAfter [] = Some 7%Z
  /\ stockAfter "Sin Stock" = Some 0%Z
  /\ stockAfter "Bajo" = Some 2%Z
  /\ stockAfter "Disponible" = Some 10%Z.
Proof. cbv zeta. repeat split; vm_compute; reflexivity. Qed.


(** The sheet lists the phone in black only. *)
Definition c3_workbook : Workbook :=
  [ Some [ [ [] ; "MOTOROLA" : gostring ];
           [ [] ; "Moto G35 Negro" : gostring; "Negro" : gostring;
             [] ; "Disponible" : gostring ] ] ].

Definition c3_run : Repo * Step Pass :=
  processSheets c2_prices "Moto G35   $100" (ofZ 1485) (ofZ 20)
                c2_repo emptyPass c3_workbook.

Definition c3_pass : Pass :=
  match snd c3_run with Done ps => ps | Panicked => emptyPass end.


(** On that sheet the blue variant of the phone goes to 0, the black one
    takes the stock of its row, and the tablet keeps its stock. *)
Example sweep_outcome :
  map (fun v => (Variant.Color v, Variant.Stock v))
      (variants (stockZeroSweep (processedVariants c3_pass) (fst c3_run)))
  = [ ("Negro" : gostring, 10%Z); ("Azul" : gostring, 0%Z);
      ("Gris" : gostring, 4%Z) ].
Proof. vm_compute. reflexivity. Qed.

(** The sweep inside [importFromXLSXCombined] is the one of the
    theorem. *)
Lemma importFromXLSXCombined_sweep (s : Server) (sheets : Workbook)
      (priceUSD : PriceMap) (pricesText : gostring)
      (fxRate defaultMargin : float64) (r1 : Repo) (ps1 : Pass) :
  variantKeysOK (variants (repo s)) ->
  processSheets priceUSD pricesText fxRate defaultMargin
                (ProductRepo.MarkAllInactive (repo s)) emptyPass sheets
  = (r1, Done ps1) ->
  variants (repo (fst (importFromXLSXCombined s (Some sheets) priceUSD
                                              pricesText fxRate defaultMargin)))
  = map (sweptVariant (processedVariants ps1)) (variants r1).
Proof.
  intros Hok Hrun. unfold importFromXLSXCombined. rewrite Hrun.
  cbn [ProductRepo.GetInactiveSlugs fst repo ProductRepo.called variants].
  destruct (processSheets_passOK _ _ _ _ _ _ _ _ _
              (emptyPass_OK (ProductRepo.MarkAllInactive (repo s)) Hok) Hrun)
    as (Hok1 & Hnn & Hnd).
  assert (Hnn' : Forall (fun e => fst e <> Nil) (processedVariants ps1)).
  { apply Forall_forall. intros e He. rewrite Forall_forall in Hnn.
    now apply Hnn, in_map. }
  destruct (stockZeroSweep_variants (processedVariants ps1) r1 Hok1 Hnn')
    as [Hv _].
  rewrite Hv. apply map_ext. intros w. now apply existsb_sweeps_get.
Qed.

(** ** Rewriting passes *)

Section RewriteFacts.
Variable m : gostring -> option (gostring * nat).

(** A match consumes at least one byte and no more than there are. *)
Definition bounded : Prop :=
  forall t out n, m t = Some (out, n) -> 0 < n <= length t.

Lemma rewriteFrom_skipn (s : gostring) :
  forall k, rewriteFrom m k s = rewriteAll m (skipn k s).
Proof.
  induction s as [|c s IH]; intros k.
  - now destruct k.
  - destruct k as [|k]; [reflexivity|]. simpl. apply IH.
Qed.

Lemma rewriteAll_nil : rewriteAll m [] = [].
Proof. reflexivity. Qed.

Lemma rewriteAll_copy (c : ascii) (t : gostring) :
  m (c :: t) = None -> rewriteAll m (c :: t) = c :: rewriteAll m t.
Proof. unfold rewriteAll. simpl. now intros ->. Qed.

Lemma rewriteAll_match (t out : gostring) (n : nat) :
  m t = Some (out, n) -> 0 < n <= length t ->
  rewriteAll m t = out ++ rewriteAll m (skipn n t).
Proof.
  intros Hm [Hn Hlen]. destruct t as [|c t]; [simpl in Hlen; lia|].
  unfold rewriteAll at 1. simpl. rewrite Hm.
  destruct n as [|n]; [lia|]. now rewrite rewriteFrom_skipn.
Qed.

(** Induction along the pass. *)
Lemma rewriteAll_ind (P : gostring -> gostring -> Prop) :
  bounded ->
  P [] [] ->
  (forall c t, m (c :: t) = None ->
               P t (rewriteAll m t) -> P (c :: t) (c :: rewriteAll m t)) ->
  (forall t out n, m t = Some (out, n) -> 0 < n <= length t ->
                   P (skipn n t) (rewriteAll m (skipn n t)) ->
                   P t (out ++ rewriteAll m (skipn n t))) ->
  forall s, P s (rewriteAll m s).
Proof.
  intros Hb Hnil Hcopy Hmatch s.
  remember (length s) as k eqn:Hk. revert s Hk.
  induction k as [k IH] using lt_wf_ind. intros s Hk.
  destruct s as [|c t]; [exact Hnil|].
  destruct (m (c :: t)) as [[out n]|] eqn:E.
  - pose proof (Hb _ _ _ E) as Hn.
    rewrite (rewriteAll_match _ _ _ E Hn). apply (Hmatch _ _ _ E Hn).
    apply (IH (length (skipn n (c :: t)))); [|reflexivity].
    rewrite length_skipn. subst k. lia.
  - rewrite (rewriteAll_copy _ _ E). apply (Hcopy _ _ E).
    apply (IH (length t)); [subst k; simpl; lia|reflexivity].
Qed.

(** A pass whose every match rewrites a text into itself changes
    nothing; so does a pass without match. *)
Lemma rewriteAll_same (s : gostring) :
  (forall a t out n, s = a ++ t -> m t = Some (out, n) ->
                     0 < n <= length t /\ out = firstn n t) ->
  rewriteAll m s = s.
Proof.
  remember (length s) as k eqn:Hk. revert s Hk.
  induction k as [k IH] using lt_wf_ind. intros s Hk Hs.
  destruct s as [|c t]; [reflexivity|].
  destruct (m (c :: t)) as [[out n]|] eqn:E.
  - destruct (Hs [] _ _ _ eq_refl E) as [Hn ->].
    rewrite (rewriteAll_match _ _ _ E Hn).
    rewrite (IH (length (skipn n (c :: t)))); [apply firstn_skipn| |reflexivity|].
    + rewrite length_skipn. subst k. lia.
    + intros a t' out' n' Ha. apply (Hs (firstn n (c :: t) ++ a)).
      now rewrite <- app_assoc, <- Ha, firstn_skipn.
  - rewrite (rewriteAll_copy _ _ E). f_equal.
    apply (IH (length t)); [subst k; simpl; lia|reflexivity|].
    intros a t' out' n' Ha. apply (Hs (c :: a)). simpl. now rewrite Ha.
Qed.

Lemma rewriteAll_none (s : gostring) :
  (forall a t, s = a ++ t -> m t = None) -> rewriteAll m s = s.
Proof.
  intros H. apply rewriteAll_same. intros a t out n Ha E.
  rewrite (H a t Ha) in E. discriminate.
Qed.

(** The bytes of the result: copied bytes and bytes of the outputs. *)
Lemma rewriteAll_Forall (Q : ascii -> Prop) :
  bounded ->
  (forall t out n, m t = Some (out, n) -> Forall Q t -> Forall Q out) ->
  forall s, Forall Q s -> Forall Q (rewriteAll m s).
Proof.
  intros Hb Hout.
  apply (rewriteAll_ind (fun s o => Forall Q s -> Forall Q o)); [assumption|..].
  - trivial.
  - intros c t _ IH Hs. inversion Hs; subst. constructor; auto.
  - intros t out n E Hn IH Hs. apply Forall_app. split.
    + now apply (Hout _ _ _ E).
    + apply IH. rewrite <- (firstn_skipn n t) in Hs.
      now apply Forall_app in Hs.
Qed.

(** The same when the copied bytes are good because no match starts at
    them. *)
Lemma rewriteAll_Forall_copy (Q : ascii -> Prop) :
  bounded ->
  (forall c t, m (c :: t) = None -> Q c) ->
  (forall t out n, m t = Some (out, n) -> Forall Q out) ->
  forall s, Forall Q (rewriteAll m s).
Proof.
  intros Hb Hc Hout.
  apply (rewriteAll_ind (fun s o => Forall Q o)); [assumption|..].
  - constructor.
  - intros c t E IH. constructor; [now apply (Hc c t)|assumption].
  - intros t out n E Hn IH. apply Forall_app. split; [|assumption].
    now apply (Hout _ _ _ E).
Qed.

(** A pass whose matches keep the bytes of a class keeps them overall. *)
Lemma rewriteAll_filter (keep : ascii -> bool) :
  bounded ->
  (forall t out n, m t = Some (out, n) ->
                   filter keep out = filter keep (firstn n t)) ->
  forall s, filter keep (rewriteAll m s) = filter keep s.
Proof.
  intros Hb Hout.
  apply (rewriteAll_ind (fun s o => filter keep o = filter keep s));
    [assumption|..].
  - reflexivity.
  - intros c t _ IH. simpl. now rewrite IH.
  - intros t out n E Hn IH.
    rewrite <- (firstn_skipn n t) at 2.
    now rewrite !filter_app, IH, (Hout _ _ _ E).
Qed.

(** *** Occurrences in the result *)

(** No output of a match starts with a byte of [q]. *)
Definition noHead (q : gostring) : Prop :=
  forall t out n, m t = Some (out, n) ->
                  exists x out', out = x :: out' /\ ~ In x q.

(** A prefix of the result made of such bytes was copied. *)
Lemma rewriteAll_prefix (q : gostring) :
  noHead q ->
  forall t, HasPrefix (rewriteAll m t) q = true -> HasPrefix t q = true.
Proof.
  intros Hh. induction q as [|x q IH]; intros t H; [reflexivity|].
  assert (Hh' : noHead q).
  { intros t' out n E. destruct (Hh _ _ _ E) as (y & out' & -> & Hy).
    exists y, out'. split; [reflexivity|]. intros Hin. apply Hy. now right. }
  destruct t as [|c t]; [discriminate H|].
  destruct (m (c :: t)) as [[out n]|] eqn:E.
  - exfalso. destruct (Hh _ _ _ E) as (y & out' & -> & Hy).
    unfold rewriteAll in H. simpl in H. rewrite E in H.
    assert (Hy' : Ascii.eqb x y = false).
    { apply Ascii.eqb_neq. intros ->. apply Hy. now left. }
    destruct n; simpl in H; rewrite Hy' in H; discriminate.
  - rewrite (rewriteAll_copy _ _ E) in H. simpl in H |- *.
    apply andb_true_iff in H as [Hx Hq]. rewrite Hx. now apply IH.
Qed.

Lemma Contains_cons_false (c : ascii) (t q : gostring) :
  Contains (c :: t) q = false <->
  HasPrefix (c :: t) q = false /\ Contains t q = false.
Proof. simpl. apply orb_false_iff. Qed.

Lemma Contains_app_false (a b q : gostring) :
  (forall j, j < length a -> HasPrefix (skipn j a ++ b) q = false) ->
  Contains b q = false -> Contains (a ++ b) q = false.
Proof.
  intros Ha Hb. induction a as [|c a IH]; [assumption|].
  change ((c :: a) ++ b) with (c :: a ++ b).
  apply Contains_cons_false. split.
  - apply (Ha 0). simpl. lia.
  - apply IH. intros j Hj. apply (Ha (S j)). simpl. lia.
Qed.

(** [q] does not occur in the result when it clashes with every output
    at every offset, cannot start at a copied byte, and is made, after
    its first byte, of bytes that start no output. *)
Lemma rewriteAll_absent (q : gostring) :
  bounded -> q <> [] ->
  noHead (tl q) ->
  (forall t out n, m t = Some (out, n) ->
                   forall o j, j < length out ->
                               HasPrefix (skipn j out ++ o) q = false) ->
  forall s,
    (forall a c t, s = a ++ c :: t -> m (c :: t) = None ->
                   HasPrefix (c :: t) q = false) ->
    Contains (rewriteAll m s) q = false.
Proof.
  intros Hb Hq Hh Hclash.
  apply (rewriteAll_ind
           (fun s o => (forall a c t, s = a ++ c :: t -> m (c :: t) = None ->
                                      HasPrefix (c :: t) q = false) ->
                       Contains o q = false)); [assumption|..].
  - intros _. destruct q; [contradiction|reflexivity].
  - intros c t E IH Hs. apply Contains_cons_false. split.
    + destruct q as [|x q]; [contradiction|].
      destruct (HasPrefix (c :: rewriteAll m t) (x :: q)) eqn:Hp;
        [|reflexivity].
      simpl in Hp. apply andb_true_iff in Hp as [Hx Hp].
      apply (rewriteAll_prefix q Hh) in Hp.
      rewrite <- (Hs [] c t eq_refl E). simpl. now rewrite Hx, Hp.
    + apply IH. intros a c' t' Ha. apply (Hs (c :: a)). simpl. now rewrite Ha.
  - intros t out n E Hn IH Hs. apply Contains_app_false.
    + intros j Hj. now apply (Hclash _ _ _ E).
    + apply IH. intros a c' t' Ha. apply (Hs (firstn n t ++ a)).
      now rewrite <- app_assoc, <- Ha, firstn_skipn.
Qed.

End RewriteFacts.

(** ** Spans and matchers *)

Lemma span_app (p : ascii -> bool) (s : gostring) :
  s = fst (span p s) ++ snd (span p s).
Proof.
  induction s as [|c s IH]; simpl; [reflexivity|].
  destruct (p c); [|reflexivity].
  destruct (span p s) as [a b]. simpl in *. now f_equal.
Qed.

Lemma span_all (p : ascii -> bool) (s : gostring) :
  forallb p (fst (span p s)) = true.
Proof.
  induction s as [|c s IH]; simpl; [reflexivity|].
  destruct (p c) eqn:E; [|reflexivity].
  destruct (span p s) as [a b]. simpl in *. now rewrite E.
Qed.

Lemma span_stop (p : ascii -> bool) (s : gostring) :
  match snd (span p s) with
  | [] => True
  | c :: _ => p c = false
  end.
Proof.
  induction s as [|c s IH]; simpl; [exact I|].
  destruct (p c) eqn:E; [|exact E].
  now destruct (span p s) as [a b].
Qed.

(** The span of a run followed by a stop is the run. *)
Lemma span_run (p : ascii -> bool) (a b : gostring) :
  forallb p a = true ->
  match b with [] => True | c :: _ => p c = false end ->
  span p (a ++ b) = (a, b).
Proof.
  intros Ha Hb. induction a as [|x a IH]; simpl in *.
  - destruct b as [|c b]; [reflexivity|]. simpl. now rewrite Hb.
  - apply andb_true_iff in Ha as [Hx Ha]. now rewrite Hx, (IH Ha).
Qed.

Lemma HasPrefix_length (s p : gostring) :
  HasPrefix s p = true -> length p <= length s.
Proof.
  intros H. apply HasPrefix_spec in H as [b ->]. rewrite length_app. lia.
Qed.

Lemma HasPrefix_firstn (s p : gostring) :
  HasPrefix s p = true -> firstn (length p) s = p.
Proof.
  intros H. apply HasPrefix_spec in H as [b ->].
  now rewrite firstn_app, firstn_all, Nat.sub_diag, firstn_O, app_nil_r.
Qed.

Lemma firstPrefix_Some (alts : list gostring) (s u : gostring) :
  firstPrefix alts s = Some u -> In u alts /\ HasPrefix s u = true.
Proof.
  induction alts as [|a alts IH]; simpl; [discriminate|].
  destruct (HasPrefix s a) eqn:E.
  - intros [= <-]. split; [now left|assumption].
  - intros H. destruct (IH H). split; [now right|assumption].
Qed.

Lemma firstPrefix_None (alts : list gostring) (s u : gostring) :
  firstPrefix alts s = None -> In u alts -> HasPrefix s u = false.
Proof.
  induction alts as [|a alts IH]; simpl; [contradiction|].
  destruct (HasPrefix s a) eqn:E; [discriminate|].
  intros H [<-|Hin]; [assumption|now apply IH].
Qed.

(** *** Literal replacement *)

Lemma literal_Some (old new t out : gostring) (n : nat) :
  literal old new t = Some (out, n) ->
  HasPrefix t old = true /\ out = new /\ n = length old.
Proof.
  unfold literal. destruct (HasPrefix t old); [|discriminate].
  now intros [= <- <-].
Qed.

Lemma literal_None (old new t : gostring) :
  literal old new t = None <-> HasPrefix t old = false.
Proof.
  unfold literal. destruct (HasPrefix t old); split; congruence.
Qed.

Lemma literal_bounded (old new : gostring) :
  old <> [] -> bounded (literal old new).
Proof.
  intros Hold t out n E. apply literal_Some in E as (Hp & _ & ->).
  apply HasPrefix_length in Hp. destruct old; [contradiction|].
  simpl in *. lia.
Qed.

Lemma ReplaceAll_absent_id (s old new : gostring) :
  Contains s old = false -> ReplaceAll s old new = s.
Proof.
  intros H. apply rewriteAll_none. intros a t ->.
  apply literal_None. destruct (HasPrefix t old) eqn:E; [|reflexivity].
  apply HasPrefix_spec in E as [b ->].
  assert (Contains (a ++ old ++ b) old = true); [|congruence].
  apply Contains_spec. now exists a, b.
Qed.

(** *** The capacity units *)

Lemma capacityUnit_Some (t out : gostring) (n : nat) :
  capacityUnit t = Some (out, n) ->
  exists d1 u rest,
    t = d1 ++ u ++ rest /\ d1 <> [] /\ forallb isDigit d1 = true
    /\ In u units /\ out = d1 ++ " " ++ u /\ n = length d1 + length u.
Proof.
  unfold capacityUnit.
  pose proof (span_app isDigit t) as Ht.
  pose proof (span_all isDigit t) as Hd.
  destruct (span isDigit t) as [d1 r1]. cbn [fst snd] in *.
  destruct (firstPrefix units r1) as [u|] eqn:Eu; [|discriminate].
  destruct (isEmpty d1) eqn:Ed; [discriminate|].
  intros [= <- <-]. apply firstPrefix_Some in Eu as [Hu Hp].
  apply HasPrefix_spec in Hp as [rest ->].
  exists d1, u, rest. repeat split; try assumption.
  now apply isEmpty_false.
Qed.

Lemma capacityUnit_bounded : bounded capacityUnit.
Proof.
  intros t out n E.
  apply capacityUnit_Some in E as (d1 & u & rest & -> & Hd & _ & _ & _ & ->).
  rewrite !length_app. destruct d1; [contradiction|]. simpl. lia.
Qed.

Lemma dualCapacity_Some (t out : gostring) (n : nat) :
  dualCapacity t = Some (out, n) ->
  exists d1 d2 w u rest,
    t = d1 ++ "/"%char :: d2 ++ w ++ u ++ rest
    /\ d1 <> [] /\ forallb isDigit d1 = true
    /\ d2 <> [] /\ forallb isDigit d2 = true
    /\ forallb reSpace w = true
    /\ In u bigUnits
    /\ out = d1 ++ "/" ++ d2 ++ " " ++ u
    /\ n = length d1 + 1 + length d2 + length w + length u.
Proof.
  unfold dualCapacity.
  pose proof (span_app isDigit t) as Ht.
  pose proof (span_all isDigit t) as Hd1.
  destruct (span isDigit t) as [d1 r1]. cbn [fst snd] in *.
  unfold after. destruct r1 as [|x r2]; [discriminate|].
  destruct (Ascii.eqb_spec x "/") as [->|]; [|discriminate].
  pose proof (span_app isDigit r2) as Hr2.
  pose proof (span_all isDigit r2) as Hd2.
  destruct (span isDigit r2) as [d2 r3]. cbn [fst snd] in *.
  pose proof (span_app reSpace r3) as Hr3.
  pose proof (span_all reSpace r3) as Hw.
  destruct (span reSpace r3) as [w r4]. cbn [fst snd] in *.
  destruct (firstPrefix bigUnits r4) as [u|] eqn:Eu; [|discriminate].
  destruct (isEmpty d1) eqn:E1; [discriminate|].
  destruct (isEmpty d2) eqn:E2; [discriminate|]. cbn [orb].
  intros [= <- <-]. apply firstPrefix_Some in Eu as [Hu Hp].
  apply HasPrefix_spec in Hp as [rest ->].
  exists d1, d2, w, u, rest. subst r3 r2.
  repeat split; try assumption; now apply isEmpty_false.
Qed.

Lemma dualCapacity_bounded : bounded dualCapacity.
Proof.
  intros t out n E.
  apply dualCapacity_Some in E
    as (d1 & d2 & w & u & rest & -> & Hd & _ & _ & _ & _ & _ & _ & ->).
  rewrite length_app. simpl. rewrite !length_app.
  destruct d1; [contradiction|]. simpl. lia.
Qed.

(** *** Parenthesized groups *)

Lemma parenGroup_Some (trailing : bool) (o t out : gostring) (n : nat) :
  parenGroup trailing o t = Some (out, n) ->
  exists w1 body w2 rest,
    t = w1 ++ "("%char :: body ++ ")"%char :: w2 ++ rest
    /\ forallb reSpace w1 = true /\ forallb reSpace w2 = true
    /\ out = o /\ n = length w1 + 1 + length body + 1 + length w2.
Proof.
  unfold parenGroup.
  pose proof (span_app reSpace t) as Ht.
  pose proof (span_all reSpace t) as Hw1.
  destruct (span reSpace t) as [w1 r1]. cbn [fst snd] in *.
  unfold after. destruct r1 as [|x r2]; [discriminate|].
  destruct (Ascii.eqb_spec x "(") as [->|]; [|discriminate].
  pose proof (span_app notClose r2) as Hr2.
  destruct (span notClose r2) as [body r3]. cbn [fst snd] in *.
  destruct r3 as [|y r4]; [discriminate|].
  destruct (Ascii.eqb_spec y ")") as [->|]; [|discriminate].
  intros [= <- <-]. destruct trailing.
  - pose proof (span_app reSpace r4) as Hr4.
    pose proof (span_all reSpace r4) as Hw2.
    destruct (span reSpace r4) as [w2 rest]. cbn [fst snd] in *.
    exists w1, body, w2, rest. subst r4 r2. now repeat split.
  - exists w1, body, [], r4. subst r2. now repeat split.
Qed.

Lemma parenGroup_bounded (trailing : bool) (o : gostring) :
  bounded (parenGroup trailing o).
Proof.
  intros t out n E.
  apply parenGroup_Some in E as (w1 & body & w2 & rest & -> & _ & _ & _ & ->).
  rewrite length_app. simpl. rewrite length_app. simpl.
  rewrite length_app. lia.
Qed.

(** ** Fields and Join *)

Definition nonSpace (c : ascii) : bool := negb (isSpace c).

Lemma Fields_space (c : ascii) (t : gostring) :
  isSpace c = true -> Fields (c :: t) = Fields t.
Proof. simpl. now intros ->. Qed.

Lemma Fields_word (t : gostring) :
  forall c, isSpace c = false ->
            Fields (c :: t)
            = (c :: fst (span nonSpace t)) :: Fields (snd (span nonSpace t)).
Proof.
  induction t as [|d t IH]; intros c Hc.
  - simpl. now rewrite Hc.
  - change (Fields (c :: d :: t))
      with (if isSpace c then Fields (d :: t)
            else if isSpace d then [c] :: Fields (d :: t)
                 else match Fields (d :: t) with
                      | w :: ws => (c :: w) :: ws
                      | [] => [[c]]
                      end).
    rewrite Hc. cbn [span]. unfold nonSpace at 1 3.
    destruct (isSpace d) eqn:Hd; cbn [negb fst snd]; [reflexivity|].
    rewrite (IH d Hd).
    now destruct (span nonSpace t) as [a b].
Qed.

(** Induction along the fields of a text. *)
Lemma Fields_ind (P : gostring -> Prop) :
  P [] ->
  (forall c t, isSpace c = true -> P t -> P (c :: t)) ->
  (forall c t, isSpace c = false ->
               P (snd (span nonSpace t)) -> P (c :: t)) ->
  forall s, P s.
Proof.
  intros Hnil Hsp Hw s.
  remember (length s) as k eqn:Hk. revert s Hk.
  induction k as [k IH] using lt_wf_ind. intros s Hk.
  destruct s as [|c t]; [exact Hnil|].
  destruct (isSpace c) eqn:Hc.
  - apply Hsp; [assumption|]. apply (IH (length t)); [subst; simpl; lia|reflexivity].
  - apply Hw; [assumption|].
    apply (IH (length (snd (span nonSpace t)))); [|reflexivity].
    subst k. simpl. rewrite (span_app nonSpace t) at 2.
    rewrite length_app. lia.
Qed.

(** A word: not empty, no white space. *)
Definition isWord (w : gostring) : Prop :=
  w <> [] /\ forallb nonSpace w = true.

Lemma Fields_words (s : gostring) : Forall isWord (Fields s).
Proof.
  induction s as [|c t Hc IH|c t Hc IH] using Fields_ind.
  - constructor.
  - now rewrite (Fields_space _ _ Hc).
  - rewrite (Fields_word _ _ Hc). constructor; [|assumption].
    split; [discriminate|]. simpl. unfold nonSpace at 1. rewrite Hc.
    apply span_all.
Qed.

(** Every field is a piece of the text. *)
Lemma Fields_within (s w : gostring) :
  In w (Fields s) -> exists a b, s = a ++ w ++ b.
Proof.
  induction s as [|c t Hc IH|c t Hc IH] using Fields_ind.
  - intros [].
  - rewrite (Fields_space _ _ Hc). intros H.
    destruct (IH H) as (a & b & ->). now exists (c :: a), b.
  - rewrite (Fields_word _ _ Hc). intros [<-|H].
    + exists [], (snd (span nonSpace t)). simpl. f_equal. apply span_app.
    + destruct (IH H) as (a & b & E).
      exists (c :: fst (span nonSpace t) ++ a), b.
      rewrite (span_app nonSpace t) at 1. rewrite E. simpl.
      now rewrite <- app_assoc.
Qed.

Lemma Fields_bytes (Q : ascii -> Prop) (s : gostring) :
  Forall Q s -> Forall (Forall Q) (Fields s).
Proof.
  intros Hs. apply Forall_forall. intros w Hw.
  destruct (Fields_within _ _ Hw) as (a & b & ->).
  apply Forall_app in Hs as [_ Hs]. now apply Forall_app in Hs as [Hs _].
Qed.

(** [Join] on a non-empty list. *)
Lemma Join_cons (w : gostring) (ws : list gostring) (sep : gostring) :
  ws <> [] -> Join (w :: ws) sep = w ++ sep ++ Join ws sep.
Proof. destruct ws; [contradiction|reflexivity]. Qed.

Lemma Join_bytes (Q : ascii -> Prop) (ws : list gostring) (sep : gostring) :
  Forall (Forall Q) ws -> Forall Q sep -> Forall Q (Join ws sep).
Proof.
  intros Hws Hsep. induction Hws as [|w ws Hw Hws IH]; [constructor|].
  destruct ws as [|w' ws]; [exact Hw|].
  rewrite Join_cons by discriminate.
  apply Forall_app. split; [assumption|]. apply Forall_app. now split.
Qed.

Lemma Join_nonempty (w : gostring) (ws : list gostring) (sep : gostring) :
  w <> [] -> Join (w :: ws) sep <> [].
Proof.
  intros Hw. destruct ws; [exact Hw|]. rewrite Join_cons by discriminate.
  destruct w; [contradiction|discriminate].
Qed.

Lemma Join_head (w : gostring) (ws : list gostring) (sep : gostring) :
  exists b, Join (w :: ws) sep = w ++ b
            /\ (b = [] \/ exists b', ws <> [] /\ b = sep ++ b').
Proof.
  destruct ws as [|w' ws].
  - exists []. simpl. rewrite app_nil_r. auto.
  - exists (sep ++ Join (w' :: ws) sep). split; [reflexivity|].
    right. exists (Join (w' :: ws) sep). split; [discriminate|reflexivity].
Qed.

(** The fields of joined words are the words. *)
Lemma Fields_app_word (w b : gostring) :
  isWord w ->
  match b with [] => True | c :: _ => isSpace c = true end ->
  Fields (w ++ b) = w :: Fields b.
Proof.
  intros [Hne Hw] Hb. destruct w as [|c w]; [contradiction|].
  simpl in Hw. apply andb_true_iff in Hw as [Hc Hw].
  unfold nonSpace in Hc. apply negb_true_iff in Hc.
  change ((c :: w) ++ b) with (c :: w ++ b). rewrite (Fields_word _ _ Hc).
  rewrite (span_run nonSpace w b Hw).
  - reflexivity.
  - destruct b; [exact I|]. unfold nonSpace. now rewrite Hb.
Qed.

Lemma Fields_Join (ws : list gostring) :
  Forall isWord ws -> Fields (Join ws " ") = ws.
Proof.
  induction 1 as [|w ws Hw Hws IH]; [reflexivity|].
  destruct ws as [|w' ws].
  - simpl. rewrite <- (app_nil_r w) at 1.
    now rewrite (Fields_app_word w [] Hw I).
  - rewrite Join_cons by discriminate.
    rewrite (Fields_app_word w _ Hw); [|reflexivity].
    change (" " ++ Join (w' :: ws) " ")
      with (" "%char :: Join (w' :: ws) " ").
    rewrite Fields_space by reflexivity. now rewrite IH.
Qed.

(** Collapsing the white space twice is collapsing it once. *)
Lemma Join_Fields_idem (s : gostring) :
  Join (Fields (Join (Fields s) " ")) " " = Join (Fields s) " ".
Proof. now rewrite (Fields_Join _ (Fields_words s)). Qed.

(** *** What the collapse keeps *)

(** The bytes of a class without white space pass through. *)
Lemma Fields_filter (keep : ascii -> bool) (s : gostring) :
  (forall c, keep c = true -> isSpace c = false) ->
  concat (map (filter keep) (Fields s)) = filter keep s.
Proof.
  intros Hk.
  induction s as [|c t Hc IH|c t Hc IH] using Fields_ind.
  - reflexivity.
  - rewrite (Fields_space _ _ Hc). simpl.
    destruct (keep c) eqn:E; [|assumption].
    apply Hk in E. congruence.
  - rewrite (Fields_word _ _ Hc). cbn [map concat]. rewrite IH.
    rewrite <- filter_app.
    change ((c :: fst (span nonSpace t)) ++ snd (span nonSpace t))
      with (c :: fst (span nonSpace t) ++ snd (span nonSpace t)).
    now rewrite <- span_app.
Qed.

Lemma Join_filter (keep : ascii -> bool) (ws : list gostring) :
  keep " "%char = false ->
  filter keep (Join ws " ") = concat (map (filter keep) ws).
Proof.
  intros Hk. induction ws as [|w ws IH]; [reflexivity|].
  destruct ws as [|w' ws].
  - simpl. now rewrite app_nil_r.
  - rewrite Join_cons by discriminate. rewrite filter_app.
    change (" " ++ Join (w' :: ws) " ") with (" "%char :: Join (w' :: ws) " ").
    cbn [filter]. rewrite Hk, IH. reflexivity.
Qed.

Lemma collapse_filter (keep : ascii -> bool) (s : gostring) :
  (forall c, keep c = true -> isSpace c = false) ->
  filter keep (Join (Fields s) " ") = filter keep s.
Proof.
  intros Hk. rewrite Join_filter.
  - now apply Fields_filter.
  - destruct (keep " "%char) eqn:E; [|reflexivity]. now apply Hk in E.
Qed.

(** A prefix that stops before a foreign byte. *)
Lemma HasPrefix_stop (a b q : gostring) (x : ascii) :
  ~ In x q -> HasPrefix (a ++ x :: b) q = true -> HasPrefix a q = true.
Proof.
  revert a. induction q as [|y q IH]; intros a Hx H; [reflexivity|].
  destruct a as [|c a]; simpl in H |- *.
  - apply andb_true_iff in H as [Hy _]. apply Ascii.eqb_eq in Hy.
    exfalso. apply Hx. now left.
  - apply andb_true_iff in H as [Hy Hq]. rewrite Hy. simpl.
    apply (IH a); [|assumption]. intros Hin. apply Hx. now right.
Qed.

(** An occurrence on one side of a foreign byte. *)
Lemma Contains_split (a b q : gostring) (x : ascii) :
  q <> [] -> ~ In x q ->
  Contains (a ++ x :: b) q = true ->
  Contains a q = true \/ Contains b q = true.
Proof.
  intros Hq Hx. induction a as [|c a IH]; intros H.
  - right. simpl in H. apply orb_true_iff in H as [H|H]; [|assumption].
    exfalso. destruct q as [|y q]; [contradiction|]. simpl in H.
    apply andb_true_iff in H as [Hy _]. apply Ascii.eqb_eq in Hy.
    apply Hx. now left.
  - change ((c :: a) ++ x :: b) with (c :: a ++ x :: b) in H.
    simpl in H. apply orb_true_iff in H as [H|H].
    + left. apply Contains_prefix.
      apply (HasPrefix_stop (c :: a) b q x Hx H).
    + destruct (IH H) as [Ha|Hb]; [left|now right].
      simpl. rewrite Ha. apply orb_true_r.
Qed.

Lemma Join_occurrence (ws : list gostring) (q : gostring) :
  q <> [] -> ~ In " "%char q ->
  Contains (Join ws " ") q = true ->
  exists w, In w ws /\ Contains w q = true.
Proof.
  intros Hq Hsp. induction ws as [|w ws IH]; intros H.
  - destruct q; [contradiction|discriminate H].
  - destruct ws as [|w' ws].
    + exists w. split; [now left|assumption].
    + rewrite Join_cons in H by discriminate.
      change (" " ++ Join (w' :: ws) " ")
        with (" "%char :: Join (w' :: ws) " ") in H.
      apply (Contains_split _ _ _ _ Hq Hsp) in H as [H|H].
      * exists w. split; [now left|assumption].
      * destruct (IH H) as (v & Hv & Hc). exists v. split; [now right|assumption].
Qed.

(** A text without blank that is absent from [s] is absent from the
    collapse of [s]. *)
Lemma collapse_absent (s q : gostring) :
  q <> [] -> ~ In " "%char q ->
  Contains s q = false -> Contains (Join (Fields s) " ") q = false.
Proof.
  intros Hq Hsp Hs.
  destruct (Contains (Join (Fields s) " ") q) eqn:E; [|reflexivity].
  apply (Join_occurrence _ _ Hq Hsp) in E as (w & Hw & Hc).
  destruct (Fields_within _ _ Hw) as (a & b & ->).
  rewrite (Contains_within w a b q Hc) in Hs. discriminate.
Qed.

(** *** The shape of a collapsed text *)

Lemma word_head (w : gostring) :
  isWord w -> exists c w', w = c :: w' /\ isSpace c = false.
Proof.
  intros [Hne Hw]. destruct w as [|c w']; [contradiction|].
  exists c, w'. split; [reflexivity|]. simpl in Hw.
  apply andb_true_iff in Hw as [Hc _]. now apply negb_true_iff in Hc.
Qed.

Lemma word_last (w : gostring) :
  isWord w -> exists w' z, w = w' ++ [z] /\ isSpace z = false.
Proof.
  intros [Hne Hw]. destruct (exists_last Hne) as (w' & z & ->).
  exists w', z. split; [reflexivity|].
  rewrite forallb_app in Hw. apply andb_true_iff in Hw as [_ Hz].
  simpl in Hz. rewrite andb_true_r in Hz. now apply negb_true_iff in Hz.
Qed.

Lemma Join_words_head (ws : list gostring) :
  Forall isWord ws ->
  Join ws " " = [] \/ exists c t, Join ws " " = c :: t /\ isSpace c = false.
Proof.
  intros H. destruct H as [|w ws Hw _]; [now left|]. right.
  destruct (word_head w Hw) as (c & w' & -> & Hc).
  destruct (Join_head (c :: w') ws " ") as (b & -> & _).
  now exists c, (w' ++ b).
Qed.

Lemma Join_words_last (ws : list gostring) :
  Forall isWord ws ->
  Join ws " " = [] \/ exists t z, Join ws " " = t ++ [z] /\ isSpace z = false.
Proof.
  induction 1 as [|w ws Hw Hws IH]; [now left|]. right.
  destruct ws as [|w' ws].
  - simpl. now apply word_last.
  - rewrite Join_cons by discriminate.
    destruct IH as [E|(t & z & E & Hz)].
    + exfalso. inversion Hws as [|? ? [Hne _] _]; subst.
      now apply (Join_nonempty w' ws " " Hne).
    + exists (w ++ " " ++ t), z. rewrite E. split; [|assumption].
      now rewrite <- !app_assoc.
Qed.

Lemma dropWhile_head (p : ascii -> bool) (c : ascii) (t : gostring) :
  p c = false -> dropWhile p (c :: t) = c :: t.
Proof. simpl. now intros ->. Qed.

Lemma TrimSpace_words (ws : list gostring) :
  Forall isWord ws -> TrimSpace (Join ws " ") = Join ws " ".
Proof.
  intros H. unfold TrimSpace, TrimFunc, TrimRightFunc, TrimLeftFunc.
  destruct (Join_words_head ws H) as [E|(c & t & E & Hc)];
    [now rewrite E|].
  rewrite E, (dropWhile_head _ _ _ Hc), <- E.
  destruct (Join_words_last ws H) as [E'|(t' & z & E' & Hz)];
    [now rewrite E'|].
  rewrite E', rev_app_distr. simpl rev at 1. cbn [app dropWhile].
  rewrite Hz. simpl. now rewrite rev_involutive.
Qed.

(** The only white space of a collapsed text is the blank. *)
Definition blankOnly (c : ascii) : Prop := isSpace c = true -> c = " "%char.

Lemma words_blankOnly (ws : list gostring) :
  Forall isWord ws -> Forall blankOnly (Join ws " ").
Proof.
  intros H. apply Join_bytes.
  - eapply Forall_impl; [|exact H]. intros w [_ Hw].
    apply Forall_forall. intros c Hc Hs.
    rewrite forallb_forall in Hw. apply Hw in Hc.
    unfold nonSpace in Hc. rewrite Hs in Hc. discriminate.
  - constructor; [|constructor]. now intros _.
Qed.

Lemma HasPrefix_head_ne (x c : ascii) (p s : gostring) :
  x <> c -> HasPrefix (c :: s) (x :: p) = false.
Proof.
  intros H. change (Ascii.eqb x c && HasPrefix s p = false).
  apply Ascii.eqb_neq in H. now rewrite H.
Qed.

(** No two blanks in a row. *)
Lemma words_single_blank (ws : list gostring) :
  Forall isWord ws -> Contains (Join ws " ") "  " = false.
Proof.
  induction 1 as [|w ws Hw Hws IH]; [reflexivity|].
  assert (Hword : forall b, Contains b "  " = false ->
                            match b with
                            | [] => True
                            | c :: _ => isSpace c = false
                            end ->
                            Contains (w ++ " "%char :: b) "  " = false).
  { intros b Hb Hhd. apply Contains_app_false.
    - intros j Hj. destruct Hw as [_ Hw].
      destruct (skipn j w) as [|c r] eqn:E.
      + apply (f_equal (@length ascii)) in E. rewrite length_skipn in E.
        simpl in E. lia.
      + assert (Hc : nonSpace c = true).
        { rewrite forallb_forall in Hw. apply Hw.
          rewrite <- (firstn_skipn j w), E. apply in_or_app. right. now left. }
        change ((c :: r) ++ " "%char :: b) with (c :: r ++ " "%char :: b).
        apply HasPrefix_head_ne. intros <-. discriminate Hc.
    - apply Contains_cons_false. split; [|assumption].
      destruct b as [|c b]; [reflexivity|].
      destruct (HasPrefix (" "%char :: c :: b) "  ") eqn:E; [|reflexivity].
      apply HasPrefix_spec in E as [r E].
      change ("  " ++ r) with (" "%char :: " "%char :: r) in E.
      injection E as -> _. discriminate Hhd. }
  destruct ws as [|w' ws].
  - change (Join [w] " ") with w.
    destruct (Contains w "  ") eqn:E; [|reflexivity].
    apply Contains_spec in E as (a & b & E).
    destruct Hw as [_ Hw]. rewrite forallb_forall in Hw.
    assert (nonSpace " " = true); [|discriminate].
    apply Hw. rewrite E. apply in_or_app. right. now left.
  - rewrite Join_cons by discriminate.
    apply (Hword _ IH).
    destruct (Join_words_head (w' :: ws) Hws) as [E|(c & t & E & Hc)].
    + inversion Hws as [|? ? [Hne _] _]; subst.
      now destruct (Join_nonempty w' ws " " Hne).
    + now rewrite E.
Qed.

(** ** The steps of the normalizer *)

(** The text of the normalizer after its first four steps, and after each
    of the later ones. *)
Definition afterQuotes (s0 : gostring) : gostring :=
  ReplaceAll
    (rewriteAll inchSpace
       (rewriteAll (inchDecimal true)
          (ReplaceAll (TrimSpace s0) ["009"%char] " ")))
    "'" [DQ].

Definition collapse (s : gostring) : gostring := Join (Fields s) " ".

Definition wifiForms (s : gostring) : gostring :=
  ReplaceAll (ReplaceAll (ReplaceAll s "Wifi" "WiFi") "wifi" "WiFi")
             "wi-fi" "WiFi".

(** Steps five to ten. *)
Definition afterParens (s4 : gostring) : gostring :=
  collapse
    (ReplaceAll
       (wifiForms
          (rewriteAll dualCapacity
             (rewriteAll capacityUnit
                (collapse (rewriteAll (parenGroup true " ") s4)))))
       "  " " ").

Lemma normalizeBaseKey_steps (s0 : gostring) :
  normalizeBaseKey s0 = afterParens (afterQuotes s0).
Proof. reflexivity. Qed.

Lemma firstn_exact {A : Type} (a b : list A) (n : nat) :
  n = length a -> firstn n (a ++ b) = a.
Proof.
  intros ->. now rewrite firstn_app, firstn_all, Nat.sub_diag, firstn_O,
               app_nil_r.
Qed.

(** *** The bytes that the steps write *)

(** A property of bytes that holds of every byte the later steps can
    write. *)
Definition writable (Q : ascii -> Prop) : Prop :=
  Forall Q (" /GBTMHzmWiF" : gostring).

Lemma writable_units (Q : ascii -> Prop) (u : gostring) :
  writable Q -> In u units -> Forall Q u.
Proof.
  unfold writable. intros H Hu. rewrite Forall_forall in H.
  apply Forall_forall. intros c Hc. apply H.
  simpl in Hu. destruct Hu as [<-|[<-|[<-|[<-|[]]]]];
    simpl in Hc |- *; intuition (subst; auto 20).
Qed.

Lemma bigUnits_units (u : gostring) : In u bigUnits -> In u units.
Proof. simpl. intuition. Qed.

Lemma writable_literal (Q : ascii -> Prop) (new : gostring) :
  writable Q -> incl new (" /GBTMHzmWiF" : gostring) -> Forall Q new.
Proof.
  unfold writable. intros H Hn. rewrite Forall_forall in H.
  apply Forall_forall. intros c Hc. apply H. now apply Hn.
Qed.

Lemma forallb_Forall_app (Q : ascii -> Prop) (a b : gostring) :
  Forall Q (a ++ b) -> Forall Q a.
Proof. intros H. now apply Forall_app in H. Qed.

Lemma capacityUnit_bytes (Q : ascii -> Prop) :
  writable Q ->
  forall t out n, capacityUnit t = Some (out, n) -> Forall Q t -> Forall Q out.
Proof.
  intros Hq t out n E Ht.
  apply capacityUnit_Some in E as (d1 & u & rest & -> & _ & _ & Hu & -> & _).
  apply Forall_app in Ht as [Hd _].
  apply Forall_app. split; [assumption|]. apply Forall_app. split.
  - apply (writable_literal Q " " Hq). intros c [<-|[]]. now left.
  - now apply writable_units.
Qed.

Lemma dualCapacity_bytes (Q : ascii -> Prop) :
  writable Q ->
  forall t out n, dualCapacity t = Some (out, n) -> Forall Q t -> Forall Q out.
Proof.
  intros Hq t out n E Ht.
  apply dualCapacity_Some in E
    as (d1 & d2 & w & u & rest & -> & _ & _ & _ & _ & _ & Hu & -> & _).
  apply Forall_app in Ht as [Hd1 Ht]. inversion Ht as [|? ? Hs Ht']; subst.
  apply Forall_app in Ht' as [Hd2 _].
  apply Forall_app. split; [assumption|].
  apply Forall_app. split; [now constructor|].
  apply Forall_app. split; [assumption|].
  apply Forall_app. split.
  - apply (writable_literal Q " " Hq). intros c [<-|[]]. now left.
  - apply writable_units; [assumption|now apply bigUnits_units].
Qed.

Lemma literal_bytes (Q : ascii -> Prop) (old new : gostring) :
  Forall Q new ->
  forall t out n, literal old new t = Some (out, n) -> Forall Q t ->
                  Forall Q out.
Proof.
  intros Hn t out n E _. now apply literal_Some in E as (_ & -> & _).
Qed.

Lemma parenGroup_bytes (Q : ascii -> Prop) (trailing : bool) (o : gostring) :
  Forall Q o ->
  forall t out n, parenGroup trailing o t = Some (out, n) -> Forall Q t ->
                  Forall Q out.
Proof.
  intros Ho t out n E _.
  now apply parenGroup_Some in E as (_ & _ & _ & _ & _ & _ & _ & -> & _).
Qed.

Lemma collapse_bytes (Q : ascii -> Prop) (s : gostring) :
  writable Q -> Forall Q s -> Forall Q (collapse s).
Proof.
  intros Hq Hs. apply Join_bytes; [now apply Fields_bytes|].
  apply (writable_literal Q " " Hq). intros c [<-|[]]. now left.
Qed.

Lemma ReplaceAll_bytes (Q : ascii -> Prop) (s old new : gostring) :
  old <> [] -> Forall Q new -> Forall Q s -> Forall Q (ReplaceAll s old new).
Proof.
  intros Hold Hnew. apply rewriteAll_Forall.
  - now apply literal_bounded.
  - now apply literal_bytes.
Qed.

Lemma wifiForms_bytes (Q : ascii -> Prop) (s : gostring) :
  writable Q -> Forall Q s -> Forall Q (wifiForms s).
Proof.
  intros Hq Hs.
  assert (Hw : Forall Q ("WiFi" : gostring)).
  { apply (writable_literal Q _ Hq). intros c Hc. simpl in Hc |- *.
    intuition (subst; auto 20). }
  unfold wifiForms.
  repeat (apply ReplaceAll_bytes; [discriminate|assumption|]).
  assumption.
Qed.

(** Steps five to ten write no byte of their own outside [writable]. *)
Lemma afterParens_bytes (Q : ascii -> Prop) (s4 : gostring) :
  writable Q -> Forall Q s4 -> Forall Q (afterParens s4).
Proof.
  intros Hq Hs. unfold afterParens.
  assert (Hb : Forall Q (" " : gostring)).
  { apply (writable_literal Q " " Hq). intros c [<-|[]]. now left. }
  apply collapse_bytes; [assumption|].
  apply ReplaceAll_bytes; [discriminate|assumption|].
  apply wifiForms_bytes; [assumption|].
  apply rewriteAll_Forall;
    [apply dualCapacity_bounded|now apply dualCapacity_bytes|].
  apply rewriteAll_Forall;
    [apply capacityUnit_bounded|now apply capacityUnit_bytes|].
  apply collapse_bytes; [assumption|].
  apply rewriteAll_Forall;
    [apply parenGroup_bounded|now apply parenGroup_bytes|assumption].
Qed.

(** After step four there is no single quote left. *)
Definition notSQ (c : ascii) : Prop := c <> "'"%char.

Lemma afterQuotes_notSQ (s0 : gostring) : Forall notSQ (afterQuotes s0).
Proof.
  unfold afterQuotes, ReplaceAll. apply rewriteAll_Forall_copy.
  - apply literal_bounded. discriminate.
  - intros c t E. apply literal_None in E. intros ->. discriminate E.
  - intros t out n E. apply literal_Some in E as (_ & -> & _).
    constructor; [discriminate|constructor].
Qed.

Lemma normalizeBaseKey_notSQ (s0 : gostring) :
  Forall notSQ (normalizeBaseKey s0).
Proof.
  rewrite normalizeBaseKey_steps. apply afterParens_bytes.
  - unfold writable. repeat constructor; discriminate.
  - apply afterQuotes_notSQ.
Qed.

(** *** Parenthesized groups *)

Definition isOpen (c : ascii) : bool := Ascii.eqb c "(".
Definition isClose (c : ascii) : bool := Ascii.eqb c ")".
Definition isParen (c : ascii) : bool := isOpen c || isClose c.

(** Some opening parenthesis has a closing one after it. *)
Fixpoint hasGroup (s : gostring) : bool :=
  match s with
  | [] => false
  | c :: t => (isOpen c && existsb isClose t) || hasGroup t
  end.

Lemma existsb_filter_paren (t : gostring) :
  existsb isClose (filter isParen t) = existsb isClose t.
Proof.
  induction t as [|c t IH]; simpl; [reflexivity|].
  unfold isParen at 1. destruct (isOpen c) eqn:Ho, (isClose c) eqn:Hc;
    simpl; rewrite ?Hc, ?IH; reflexivity.
Qed.

Lemma hasGroup_filter (s : gostring) :
  hasGroup (filter isParen s) = hasGroup s.
Proof.
  induction s as [|c s IH]; simpl; [reflexivity|].
  unfold isParen at 1. destruct (isOpen c) eqn:Ho, (isClose c) eqn:Hc;
    simpl; rewrite ?Ho, ?existsb_filter_paren, ?IH; reflexivity.
Qed.




Lemma reSpace_open : reSpace "("%char = false.
Proof. reflexivity. Qed.

(** An opening parenthesis at which the pattern fails has no closing one
    after it. *)
Lemma parenGroup_open_None (trailing : bool) (o t : gostring) :
  parenGroup trailing o ("("%char :: t) = None -> existsb isClose t = false.
Proof.
  unfold parenGroup. cbn [span]. rewrite reSpace_open.
  unfold after at 1. rewrite Ascii.eqb_refl.
  pose proof (span_app notClose t) as Ht.
  pose proof (span_all notClose t) as Hb.
  pose proof (span_stop notClose t) as Hs.
  destruct (span notClose t) as [body r3]. cbn [fst snd] in *.
  unfold after. destruct r3 as [|y r4].
  - intros _. rewrite app_nil_r in Ht. subst body.
    apply not_true_is_false. intros H.
    apply existsb_exists in H as (c & Hc & Hcl).
    rewrite forallb_forall in Hb. apply Hb in Hc.
    unfold notClose in Hc. unfold isClose in Hcl. rewrite Hcl in Hc.
    discriminate.
  - unfold notClose in Hs. apply negb_false_iff in Hs. rewrite Hs.
    discriminate.
Qed.

Definition notClosing (c : ascii) : Prop := isClose c = false.

Lemma existsb_notClosing (t : gostring) :
  existsb isClose t = false <-> Forall notClosing t.
Proof.
  induction t as [|c t IH]; simpl.
  - split; [constructor|reflexivity].
  - rewrite orb_false_iff, IH. split.
    + intros [Hc Ht]. now constructor.
    + intros H. now inversion H.
Qed.

(** Step five leaves no group. *)
Lemma parens_removed (s : gostring) :
  hasGroup (rewriteAll (parenGroup true " ") s) = false.
Proof.
  revert s.
  apply (rewriteAll_ind (parenGroup true " ")
           (fun s o => hasGroup o = false)).
  - apply parenGroup_bounded.
  - reflexivity.
  - intros c t E IH. cbn [hasGroup]. rewrite IH, orb_false_r.
    destruct (isOpen c) eqn:Ho; [|reflexivity]. cbn [andb].
    apply Ascii.eqb_eq in Ho. subst c.
    apply parenGroup_open_None in E. apply existsb_notClosing.
    apply existsb_notClosing in E.
    apply (rewriteAll_Forall (parenGroup true " ") notClosing).
    + apply parenGroup_bounded.
    + intros t' out n E' _.
      apply parenGroup_Some in E' as (_ & _ & _ & _ & _ & _ & _ & -> & _).
      constructor; [reflexivity|constructor].
    + assumption.
  - intros t out n E _ IH.
    apply parenGroup_Some in E as (_ & _ & _ & _ & _ & _ & _ & -> & _).
    exact IH.
Qed.

(** *** Steps that keep the parentheses *)

Lemma filter_none (keep : ascii -> bool) (w : gostring) :
  forallb (fun c => negb (keep c)) w = true -> filter keep w = [].
Proof.
  induction w as [|c w IH]; simpl; [reflexivity|].
  intros H. apply andb_true_iff in H as [Hc Hw].
  apply negb_true_iff in Hc. rewrite Hc. now apply IH.
Qed.

Lemma units_no_paren (u : gostring) : In u units -> filter isParen u = [].
Proof.
  simpl. intros [<-|[<-|[<-|[<-|[]]]]]; reflexivity.
Qed.

Lemma reSpace_no_paren (w : gostring) :
  forallb reSpace w = true -> filter isParen w = [].
Proof.
  intros H. apply filter_none. rewrite forallb_forall in H |- *.
  intros c Hc. apply H in Hc.
  destruct (isParen c) eqn:E; [|reflexivity].
  unfold isParen, isOpen, isClose in E.
  apply orb_true_iff in E as [E|E]; apply Ascii.eqb_eq in E; subst c;
    discriminate Hc.
Qed.

Lemma capacityUnit_parens (t out : gostring) (n : nat) :
  capacityUnit t = Some (out, n) ->
  filter isParen out = filter isParen (firstn n t).
Proof.
  intros E.
  apply capacityUnit_Some in E as (d1 & u & rest & -> & _ & _ & Hu & -> & ->).
  rewrite (app_assoc d1 u rest), (firstn_exact (d1 ++ u) rest)
    by now rewrite length_app.
  now rewrite !filter_app.
Qed.

Lemma dualCapacity_parens (t out : gostring) (n : nat) :
  dualCapacity t = Some (out, n) ->
  filter isParen out = filter isParen (firstn n t).
Proof.
  intros E.
  apply dualCapacity_Some in E
    as (d1 & d2 & w & u & rest & -> & _ & _ & _ & _ & Hw & Hu & -> & ->).
  replace (d1 ++ "/"%char :: d2 ++ w ++ u ++ rest)
    with ((d1 ++ "/"%char :: d2 ++ w ++ u) ++ rest)
    by (rewrite <- app_assoc; simpl; now rewrite <- !app_assoc).
  rewrite firstn_exact
    by (rewrite length_app; simpl; rewrite !length_app; lia).
  rewrite !filter_app. cbn [filter]. rewrite !filter_app.
  rewrite (reSpace_no_paren w Hw). reflexivity.
Qed.

Lemma literal_parens (old new t out : gostring) (n : nat) :
  filter isParen old = [] -> filter isParen new = [] ->
  literal old new t = Some (out, n) ->
  filter isParen out = filter isParen (firstn n t).
Proof.
  intros Ho Hn E. apply literal_Some in E as (Hp & -> & ->).
  now rewrite (HasPrefix_firstn _ _ Hp), Ho, Hn.
Qed.

Lemma ReplaceAll_parens (s old new : gostring) :
  old <> [] -> filter isParen old = [] -> filter isParen new = [] ->
  filter isParen (ReplaceAll s old new) = filter isParen s.
Proof.
  intros Hne Ho Hn. apply rewriteAll_filter.
  - now apply literal_bounded.
  - intros t out n. now apply literal_parens.
Qed.

Lemma collapse_parens (s : gostring) :
  filter isParen (collapse s) = filter isParen s.
Proof.
  apply collapse_filter. intros c H.
  unfold isParen, isOpen, isClose in H.
  apply orb_true_iff in H as [H|H]; apply Ascii.eqb_eq in H; now subst c.
Qed.

(** The normalized text has no group. *)
Lemma afterParens_noGroup (s4 : gostring) : hasGroup (afterParens s4) = false.
Proof.
  rewrite <- hasGroup_filter. unfold afterParens, wifiForms.
  rewrite collapse_parens.
  rewrite !ReplaceAll_parens by (discriminate || reflexivity).
  rewrite (rewriteAll_filter dualCapacity isParen dualCapacity_bounded
                             dualCapacity_parens).
  rewrite (rewriteAll_filter capacityUnit isParen capacityUnit_bounded
                             capacityUnit_parens).
  rewrite collapse_parens, hasGroup_filter. apply parens_removed.
Qed.

(** *** A digit never touches a unit *)

(** No digit of the text is followed at once by one of the units. *)
Definition noDigitUnit (s : gostring) : Prop :=
  forall d u, isDigit d = true -> In u units -> Contains s (d :: u) = false.

Definition unitLetter (c : ascii) : bool :=
  existsb (Ascii.eqb c) ("GBTMHzm" : gostring).
Definition unitStart (c : ascii) : bool :=
  existsb (Ascii.eqb c) ("GTMm" : gostring).

Lemma unit_shape (u : gostring) :
  In u units ->
  exists y r, u = y :: r /\ unitStart y = true
              /\ forallb unitLetter u = true
              /\ forallb (fun c => negb (isDigit c)) u = true.
Proof.
  simpl. intros [<-|[<-|[<-|[<-|[]]]]];
    eexists; eexists; (split; [reflexivity|]); repeat split.
Qed.

(** No digit is followed by the first letter of a unit. *)
Fixpoint pairFree (s : gostring) : bool :=
  match s with
  | x :: (y :: _) as t => negb (isDigit x && unitStart y) && pairFree t
  | _ => true
  end.

(** The same when a unit may follow the text. *)
Definition pairSafe (out : gostring) : bool := pairFree (out ++ "G").

Lemma pairFree_cons (x y : ascii) (t : gostring) :
  pairFree (x :: y :: t)
  = negb (isDigit x && unitStart y) && pairFree (y :: t).
Proof. reflexivity. Qed.

Lemma pairFree_digits (d1 : gostring) (y : ascii) (b : gostring) :
  forallb isDigit d1 = true -> unitStart y = false ->
  pairFree (y :: b) = true -> pairFree (d1 ++ y :: b) = true.
Proof.
  intros Hd Hy Hb. induction d1 as [|x d1 IH]; [assumption|].
  simpl in Hd. apply andb_true_iff in Hd as [Hx Hd].
  specialize (IH Hd). destruct d1 as [|x' d1].
  - change (pairFree (x :: y :: b) = true). rewrite pairFree_cons.
    now rewrite Hy, andb_false_r, Hb.
  - change (pairFree (x :: x' :: d1 ++ y :: b) = true).
    rewrite pairFree_cons. simpl in Hd.
    apply andb_true_iff in Hd as [Hx' _].
    assert (Hs : unitStart x' = false).
    { destruct x' as [[|] [|] [|] [|] [|] [|] [|] [|]];
        try reflexivity; discriminate Hx'. }
    rewrite Hs, andb_false_r. exact IH.
Qed.

Lemma pairFree_nondigit (x : ascii) (t : gostring) :
  isDigit x = false -> pairFree t = true -> pairFree (x :: t) = true.
Proof.
  intros Hx Ht. destruct t as [|y t]; [reflexivity|].
  rewrite pairFree_cons. now rewrite Hx, Ht.
Qed.

Lemma digit_not_unitLetter (x : ascii) :
  isDigit x = true -> unitLetter x = false.
Proof.
  destruct x as [[|] [|] [|] [|] [|] [|] [|] [|]];
    try reflexivity; discriminate.
Qed.

(** A pair-safe output clashes with every digit-unit text. *)
Lemma pairSafe_clash (d : ascii) (u : gostring) :
  isDigit d = true -> In u units ->
  forall out, pairSafe out = true ->
  forall o j, j < length out -> HasPrefix (skipn j out ++ o) (d :: u) = false.
Proof.
  intros Hd Hu. destruct (unit_shape u Hu) as (y & r & -> & Hy & _).
  induction out as [|x out IH]; intros Hs o j Hj; [simpl in Hj; lia|].
  destruct j as [|j].
  - cbn [skipn]. destruct (Ascii.eqb_spec d x) as [<-|Hne];
      [|now apply HasPrefix_head_ne].
    unfold pairSafe in Hs. destruct out as [|x' out].
    + exfalso. change (pairFree (d :: "G"%char :: []) = true) in Hs.
      rewrite pairFree_cons, Hd in Hs. discriminate Hs.
    + change (pairFree (d :: x' :: out ++ "G") = true) in Hs.
      rewrite pairFree_cons, Hd in Hs. cbn [andb] in Hs.
      apply andb_true_iff in Hs as [Hs _]. apply negb_true_iff in Hs.
      change (Ascii.eqb d d && HasPrefix (x' :: out ++ o) (y :: r) = false).
      rewrite (HasPrefix_head_ne y x' r (out ++ o)); [apply andb_false_r|].
      intros <-. congruence.
  - cbn [skipn]. apply IH; [|simpl in Hj; lia].
    unfold pairSafe in *. destruct out as [|x' out]; [simpl in Hj; lia|].
    change (pairFree (x :: x' :: out ++ "G") = true) in Hs.
    rewrite pairFree_cons in Hs. now apply andb_true_iff in Hs as [_ Hs].
Qed.

(** A pass whose outputs are pair-safe and start with no unit letter
    creates no digit-unit contact; the contacts it could copy are ruled
    out by [Hcopy]. *)
Lemma rewriteAll_noDigitUnit (m : gostring -> option (gostring * nat))
      (s : gostring) :
  bounded m ->
  (forall t out n, m t = Some (out, n) ->
                   exists x r, out = x :: r /\ unitLetter x = false
                               /\ pairSafe out = true) ->
  (forall d u a c t, isDigit d = true -> In u units ->
                     s = a ++ c :: t -> m (c :: t) = None ->
                     HasPrefix (c :: t) (d :: u) = false) ->
  noDigitUnit (rewriteAll m s).
Proof.
  intros Hb Hout Hcopy d u Hd Hu. apply rewriteAll_absent.
  - assumption.
  - discriminate.
  - intros t out n E. destruct (Hout _ _ _ E) as (x & r & -> & Hx & _).
    exists x, r. split; [reflexivity|]. cbn [tl]. intros Hin.
    destruct (unit_shape u Hu) as (_ & _ & _ & _ & Hl & _).
    rewrite forallb_forall in Hl. apply Hl in Hin. congruence.
  - intros t out n E. destruct (Hout _ _ _ E) as (_ & _ & _ & _ & Hs).
    now apply pairSafe_clash.
  - intros a c t. now apply Hcopy.
Qed.

Lemma noDigitUnit_copy (s : gostring) :
  noDigitUnit s ->
  forall d u a c t, isDigit d = true -> In u units ->
                    s = a ++ c :: t -> HasPrefix (c :: t) (d :: u) = false.
Proof.
  intros Hs d u a c t Hd Hu ->.
  destruct (HasPrefix (c :: t) (d :: u)) eqn:E; [|reflexivity].
  apply HasPrefix_spec in E as [b E].
  assert (Contains (a ++ c :: t) (d :: u) = true).
  { apply Contains_spec. exists a, b. now rewrite E. }
  now rewrite (Hs d u Hd Hu) in H.
Qed.

Lemma firstPrefix_found (alts : list gostring) (s u : gostring) :
  In u alts -> HasPrefix s u = true -> firstPrefix alts s <> None.
Proof.
  intros Hu Hp Hn. now rewrite (firstPrefix_None alts s u Hn Hu) in Hp.
Qed.

Lemma capacityUnit_out (t out : gostring) (n : nat) :
  capacityUnit t = Some (out, n) ->
  exists x r, out = x :: r /\ unitLetter x = false /\ pairSafe out = true.
Proof.
  intros E.
  apply capacityUnit_Some in E as (d1 & u & rest & _ & Hne & Hd & Hu & -> & _).
  destruct d1 as [|x d1]; [contradiction|].
  exists x, (d1 ++ " " ++ u). split; [reflexivity|]. split.
  - simpl in Hd. apply andb_true_iff in Hd as [Hx _].
    now apply digit_not_unitLetter.
  - unfold pairSafe.
    replace (((x :: d1) ++ " " ++ u) ++ "G")
      with ((x :: d1) ++ " "%char :: u ++ "G")
      by (rewrite <- app_assoc; reflexivity).
    apply pairFree_digits; [assumption|reflexivity|].
    simpl in Hu. destruct Hu as [<-|[<-|[<-|[<-|[]]]]]; reflexivity.
Qed.

Lemma dualCapacity_out (t out : gostring) (n : nat) :
  dualCapacity t = Some (out, n) ->
  exists x r, out = x :: r /\ unitLetter x = false /\ pairSafe out = true.
Proof.
  intros E.
  apply dualCapacity_Some in E
    as (d1 & d2 & w & u & rest & _ & Hne & Hd1 & _ & Hd2 & _ & Hu & -> & _).
  destruct d1 as [|x d1]; [contradiction|].
  exists x, (d1 ++ "/" ++ d2 ++ " " ++ u). split; [reflexivity|]. split.
  - simpl in Hd1. apply andb_true_iff in Hd1 as [Hx _].
    now apply digit_not_unitLetter.
  - unfold pairSafe.
    replace (((x :: d1) ++ "/" ++ d2 ++ " " ++ u) ++ "G")
      with ((x :: d1) ++ "/"%char :: d2 ++ " "%char :: u ++ "G")
      by (repeat rewrite <- app_assoc; reflexivity).
    apply pairFree_digits; [assumption|reflexivity|].
    apply pairFree_nondigit; [reflexivity|].
    apply pairFree_digits; [assumption|reflexivity|].
    apply bigUnits_units in Hu.
    simpl in Hu. destruct Hu as [<-|[<-|[<-|[<-|[]]]]]; reflexivity.
Qed.

(** Step seven separates every digit from a unit. *)
Lemma capacityUnit_noDigitUnit (s : gostring) :
  noDigitUnit (rewriteAll capacityUnit s).
Proof.
  apply rewriteAll_noDigitUnit.
  - apply capacityUnit_bounded.
  - apply capacityUnit_out.
  - intros d u a c t Hd Hu _ E.
    destruct (HasPrefix (c :: t) (d :: u)) eqn:Hp; [|reflexivity].
    exfalso. apply HasPrefix_spec in Hp as [b Hp].
    injection Hp as -> ->.
    destruct (unit_shape u Hu) as (y & r & -> & _ & _ & Hnd).
    unfold capacityUnit in E.
    change (d :: (y :: r) ++ b) with ([d] ++ (y :: r) ++ b) in E.
    rewrite (span_run isDigit [d] ((y :: r) ++ b)) in E.
    + destruct (firstPrefix units ((y :: r) ++ b)) eqn:Ef; [discriminate E|].
      apply (firstPrefix_found units ((y :: r) ++ b) (y :: r) Hu);
        [apply HasPrefix_app|assumption].
    + simpl. now rewrite Hd.
    + simpl in Hnd. apply andb_true_iff in Hnd as [Hy _].
      now apply negb_true_iff in Hy.
Qed.

Lemma literal_noDigitUnit (s old new : gostring) :
  old <> [] ->
  (exists x r, new = x :: r /\ unitLetter x = false /\ pairSafe new = true) ->
  noDigitUnit s -> noDigitUnit (ReplaceAll s old new).
Proof.
  intros Hold Hnew Hs. apply rewriteAll_noDigitUnit.
  - now apply literal_bounded.
  - intros t out n E. now apply literal_Some in E as (_ & -> & _).
  - intros d u a c t Hd Hu Ha _. now apply (noDigitUnit_copy s Hs d u a).
Qed.

Lemma collapse_noDigitUnit (s : gostring) :
  noDigitUnit s -> noDigitUnit (collapse s).
Proof.
  intros Hs d u Hd Hu. apply collapse_absent; [discriminate| |now apply Hs].
  intros [E|Hin].
  - subst d. discriminate Hd.
  - destruct (unit_shape u Hu) as (_ & _ & _ & _ & Hl & _).
    rewrite forallb_forall in Hl. apply Hl in Hin. discriminate Hin.
Qed.

(** The normalized text has no digit in contact with a unit. *)
Lemma afterParens_noDigitUnit (s4 : gostring) : noDigitUnit (afterParens s4).
Proof.
  unfold afterParens, wifiForms.
  apply collapse_noDigitUnit.
  apply literal_noDigitUnit;
    [discriminate|exists " "%char, []; now repeat split|].
  assert (Hw : exists x r, ("WiFi" : gostring) = x :: r
                           /\ unitLetter x = false
                           /\ pairSafe "WiFi" = true).
  { exists "W"%char, ("iFi" : gostring). now repeat split. }
  do 3 (apply literal_noDigitUnit; [discriminate|exact Hw|]).
  apply rewriteAll_noDigitUnit.
  - apply dualCapacity_bounded.
  - apply dualCapacity_out.
  - intros d u a c t Hd Hu Ha _.
    exact (noDigitUnit_copy _ (capacityUnit_noDigitUnit _) d u a c t
                            Hd Hu Ha).
Qed.

(** *** The spellings of WiFi *)

(** [a] and [q] differ at a position that both have. *)
Fixpoint clash (a q : gostring) : bool :=
  match a, q with
  | x :: a', y :: q' => negb (Ascii.eqb y x) || clash a' q'
  | _, _ => false
  end.

Lemma clash_sound (a q o : gostring) :
  clash a q = true -> HasPrefix (a ++ o) q = false.
Proof.
  revert q. induction a as [|x a IH]; intros [|y q] H; try discriminate H.
  change (Ascii.eqb y x && HasPrefix (a ++ o) q = false).
  simpl in H. destruct (Ascii.eqb y x); [|reflexivity].
  simpl in H |- *. now apply IH.
Qed.

(** [q] cannot overlap the replacement text [new]. *)
Definition apart (new q : gostring) : bool :=
  match new with
  | [] => false
  | x :: _ =>
      negb (existsb (Ascii.eqb x) (tl q))
      && forallb (fun j => clash (skipn j new) q) (seq 0 (length new))
  end.

Lemma existsb_eqb_In (x : ascii) (l : gostring) :
  existsb (Ascii.eqb x) l = false -> ~ In x l.
Proof.
  intros H Hin. assert (existsb (Ascii.eqb x) l = true); [|congruence].
  apply existsb_exists. exists x. split; [assumption|apply Ascii.eqb_refl].
Qed.

(** A text that is the replaced one, or that the input does not hold,
    does not occur after the replacement when it is apart from the
    replacement text. *)
Lemma ReplaceAll_absent (s old new q : gostring) :
  old <> [] -> q <> [] -> apart new q = true ->
  q = old \/ Contains s q = false ->
  Contains (ReplaceAll s old new) q = false.
Proof.
  intros Hold Hq Hap Hs. unfold apart in Hap.
  destruct new as [|x new']; [discriminate Hap|].
  apply andb_true_iff in Hap as [Hhead Hclash].
  apply negb_true_iff in Hhead.
  apply rewriteAll_absent.
  - now apply literal_bounded.
  - assumption.
  - intros t out n E. apply literal_Some in E as (_ & -> & _).
    exists x, new'. split; [reflexivity|]. now apply existsb_eqb_In.
  - intros t out n E o j Hj. apply literal_Some in E as (_ & -> & _).
    apply clash_sound. rewrite forallb_forall in Hclash. apply Hclash.
    apply in_seq. lia.
  - intros a c t Ha E. destruct Hs as [->|Hs].
    + now apply literal_None in E.
    + destruct (HasPrefix (c :: t) q) eqn:Hp; [|reflexivity].
      apply HasPrefix_spec in Hp as [b Hp].
      assert (Contains s q = true); [|congruence].
      apply Contains_spec. exists a, b. now rewrite Ha, Hp.
Qed.

Definition wifiSpellings : list gostring :=
  map list_ascii_of_string ["Wifi"; "wifi"; "wi-fi"].

Lemma wifiForms_absent (s q : gostring) :
  In q wifiSpellings -> Contains (wifiForms s) q = false.
Proof.
  unfold wifiForms.
  set (s1 := ReplaceAll s "Wifi" "WiFi").
  set (s2 := ReplaceAll s1 "wifi" "WiFi").
  assert (H1 : Contains s1 "Wifi" = false).
  { apply ReplaceAll_absent; try discriminate; [reflexivity|now left]. }
  assert (H2a : Contains s2 "Wifi" = false).
  { apply ReplaceAll_absent; try discriminate; [reflexivity|now right]. }
  assert (H2b : Contains s2 "wifi" = false).
  { apply ReplaceAll_absent; try discriminate; [reflexivity|now left]. }
  simpl. intros [<-|[<-|[<-|[]]]];
    (apply ReplaceAll_absent; try discriminate; [reflexivity|]);
    [now right|now right|now left].
Qed.

Lemma afterParens_wifi (s4 q : gostring) :
  In q wifiSpellings -> Contains (afterParens s4) q = false.
Proof.
  intros Hq. unfold afterParens.
  assert (Hsp : q <> [] /\ ~ In " "%char q /\ apart " " q = true).
  { simpl in Hq. destruct Hq as [<-|[<-|[<-|[]]]];
      (split; [discriminate|]); (split; [|reflexivity]);
      simpl; intuition discriminate. }
  destruct Hsp as (Hne & Hnb & Hap).
  apply collapse_absent; [assumption|assumption|].
  apply ReplaceAll_absent; [discriminate|assumption|assumption|].
  right. now apply wifiForms_absent.
Qed.

(** *** The inch patterns need an inch mark *)




Lemma Contains_byte (s : gostring) (c : ascii) :
  ~ In c s -> Contains s [c] = false.
Proof.
  intros H. destruct (Contains s [c]) eqn:E; [|reflexivity].
  apply Contains_spec in E as (a & b & ->). exfalso. apply H.
  apply in_or_app. right. now left.
Qed.

(** ** Idempotence of the normalizer *)


Lemma normalizeBaseKey_collapsed (s0 : gostring) :
  exists ws, Forall isWord ws /\ normalizeBaseKey s0 = Join ws " ".
Proof.
  rewrite normalizeBaseKey_steps. unfold afterParens, collapse.
  eexists. split; [apply Fields_words|reflexivity].
Qed.











(** * Further properties of the import code *)

(** ** The shape of a normalized key *)

(** Every key that [normalizeBaseKey] returns is in canonical spacing: it
    is the join, by single blanks, of its own words.  So it has no leading
    or trailing white space, no two blanks in a row, and no white space
    other than the blank (tabs and line breaks are gone). *)
Theorem normalizeBaseKey_spacing (x : gostring) :
  Join (Fields (normalizeBaseKey x)) " " = normalizeBaseKey x
  /\ TrimSpace (normalizeBaseKey x) = normalizeBaseKey x
  /\ Contains (normalizeBaseKey x) "  " = false
  /\ Forall blankOnly (normalizeBaseKey x).
Proof.
  destruct (normalizeBaseKey_collapsed x) as (ws & Hws & E). rewrite E.
  repeat split.
  - now rewrite Fields_Join.
  - now apply TrimSpace_words.
  - now apply words_single_blank.
  - now apply words_blankOnly.
Qed.

(** A normalized key holds no single quote (each one has become an inch
    mark) and no parenthesized group: no opening parenthesis is followed,
    anywhere later in the key, by a closing one. *)
Theorem normalizeBaseKey_quotes_and_parentheses (x : gostring) :
  ~ In "'"%char (normalizeBaseKey x)
  /\ hasGroup (normalizeBaseKey x) = false.
Proof.
  split.
  - intros H. pose proof (normalizeBaseKey_notSQ x) as Hq.
    rewrite Forall_forall in Hq. now apply (Hq _ H).
  - rewrite normalizeBaseKey_steps. apply afterParens_noGroup.
Qed.

(** In a normalized key no digit touches a unit of capacity, frequency or
    length (a blank separates them), and the only spelling of the wireless
    network left is WiFi: none of Wifi, wifi and wi-fi occurs. *)
Theorem normalizeBaseKey_units_and_wifi (x : gostring) :
  (forall d u, isDigit d = true -> In u units ->
               Contains (normalizeBaseKey x) (d :: u) = false)
  /\ (forall q, In q wifiSpellings -> Contains (normalizeBaseKey x) q = false).
Proof.
  rewrite normalizeBaseKey_steps. split.
  - apply afterParens_noDigitUnit.
  - intros q. apply afterParens_wifi.
Qed.

(** ** The keys and the prices of the price map *)

(** A key under which the parser stores a price is a normalized name. *)
Lemma parseLine_keys (P : gostring -> Prop) (res : PriceMap) (ln : gostring) :
  (forall name, P (normalizeBaseKey name)) ->
  Forall (fun kv => P (fst kv)) res ->
  Forall (fun kv => P (fst kv)) (parseLine res ln).
Proof.
  intros HP Hres. unfold parseLine.
  destruct (isEmpty (TrimSpace ln)); [assumption|].
  destruct (_ || _); [assumption|].
  destruct (findFirst priceRe (TrimSpace ln)) as [[[i m1] n]|]; [|assumption].
  destruct (_ && _); [|assumption].
  apply Forall_forall. intros [k v] Hin.
  apply In_set in Hin as [[= -> ->]|Hin].
  - apply HP.
  - rewrite Forall_forall in Hres. now apply (Hres (k, v)).
Qed.

Lemma parseUSDPrices_keys (P : gostring -> Prop) (text : gostring) :
  (forall name, P (normalizeBaseKey name)) ->
  Forall (fun kv => P (fst kv)) (parseUSDPrices text).
Proof.
  intros HP. unfold parseUSDPrices.
  destruct (isEmpty (TrimSpace text)); [constructor|].
  generalize (Split text ["010"%char]).
  assert (H0 : Forall (fun kv : gostring * float64 => P (fst kv)) [])
    by constructor.
  revert H0. generalize (@nil (gostring * float64)).
  intros res H0 lines. revert res H0.
  induction lines as [|ln lines IH]; intros res H0; simpl; [assumption|].
  apply IH. now apply parseLine_keys.
Qed.

(** The keys of the price map are in the canonical form of the spreadsheet
    keys: each key of [parseUSDPrices] is in canonical spacing (words
    joined by single blanks, nothing around them), holds no single quote
    and no parenthesized group. *)
Theorem parseUSDPrices_keys_canonical (text : gostring) :
  Forall (fun kv : gostring * float64 =>
            Join (Fields (fst kv)) " " = fst kv
            /\ TrimSpace (fst kv) = fst kv
            /\ ~ In "'"%char (fst kv)
            /\ hasGroup (fst kv) = false)
         (parseUSDPrices text).
Proof.
  apply (parseUSDPrices_keys
           (fun k => Join (Fields k) " " = k /\ TrimSpace k = k
                     /\ ~ In "'"%char k /\ hasGroup k = false)).
  intros name.
  destruct (normalizeBaseKey_collapsed name) as (ws & Hws & E).
  repeat split.
  - rewrite E. now rewrite Fields_Join.
  - rewrite E. now apply TrimSpace_words.
  - intros H. pose proof (normalizeBaseKey_notSQ name) as Hq.
    rewrite Forall_forall in Hq. now apply (Hq _ H).
  - rewrite normalizeBaseKey_steps. apply afterParens_noGroup.
Qed.

(** What the matcher returns is zero or the price of an entry of the
    map. *)
Lemma matchUSDPrice_zero_or_listed (m : PriceMap) (baseKey : gostring) :
  matchUSDPrice m baseKey = zero
  \/ exists k, In (k, matchUSDPrice m baseKey) m.
Proof.
  rewrite matchUSDPrice_tiers.
  unfold exactTier, normalizedTier, partialTier, lookup.
  destruct (get Strings.eqb m baseKey) as [v|] eqn:E1.
  { right. exists baseKey. now apply (get_In _ _ Strings.eqb eqb_eq). }
  destruct (find (fun kv : gostring * float64 =>
                    Strings.eqb (normalize (fst kv)) (normalize baseKey)) m)
    as [[k v]|] eqn:E2; cbn [option_map snd].
  { right. exists k. now apply find_some in E2 as [H _]. }
  destruct (2 <=? length (Fields (normalize baseKey)))%nat; [|now left].
  destruct (find (fun kv : gostring * float64 =>
                    partialHit (Fields (normalize baseKey)) (fst kv)) m)
    as [[k v]|] eqn:E3; cbn [option_map snd].
  - right. exists k. now apply find_some in E3 as [H _].
  - now left.
Qed.

(** The matcher never invents a price: its result is zero or a price
    that the map holds under some key; on the empty map it is zero; and a
    key that has just been given a price is matched with that price,
    whatever else the map holds. *)
Theorem matchUSDPrice_prices (m : PriceMap) (baseKey : gostring)
        (v : float64) :
  (matchUSDPrice m baseKey = zero
   \/ exists k, In (k, matchUSDPrice m baseKey) m)
  /\ matchUSDPrice [] baseKey = zero
  /\ matchUSDPrice (insert baseKey v m) baseKey = v.
Proof.
  split; [apply matchUSDPrice_zero_or_listed|]. split.
  - destruct (matchUSDPrice_zero_or_listed [] baseKey) as [H|[k []]].
    exact H.
  - unfold matchUSDPrice, lookup, insert.
    now rewrite (get_set_same _ _ Strings.eqb eqb_eq).
Qed.

(** The price of a spreadsheet row, read in a parsed price list, is zero
    (the row is unmatched) or a strictly positive price that the list
    holds under some key. *)
Theorem rowPrice_zero_or_listed (text baseKey : gostring) :
  let usd := rowPrice (parseUSDPrices text) baseKey in
  (usd = zero /\ le0 usd = true)
  \/ (gt0 usd = true /\ le0 usd = false
      /\ exists k, In (k, usd) (parseUSDPrices text)).
Proof.
  cbv zeta. unfold rowPrice, priceOf.
  pose proof (parseUSDPrices_wellPriced text) as Hw.
  destruct (lookup (parseUSDPrices text) baseKey) as [v|] eqn:E.
  - apply (get_In _ _ Strings.eqb eqb_eq) in E.
    destruct (Hw _ _ E) as [_ Hv]. rewrite (gt0_not_le0 _ Hv).
    right. repeat split; [assumption|now apply gt0_not_le0|now exists baseKey].
  - rewrite le0_zero.
    destruct (gt0 (matchUSDPrice (parseUSDPrices text) baseKey)) eqn:Eg.
    + right. repeat split; [assumption|now apply gt0_not_le0|].
      destruct (matchUSDPrice_zero_or_listed (parseUSDPrices text) baseKey)
        as [H0|H1]; [|assumption].
      rewrite H0 in Eg. discriminate Eg.
    + left. split; [reflexivity|apply le0_zero].
Qed.

(** ** Section titles and data rows *)

Lemma dropWhile_parts (p : ascii -> bool) (s : gostring) :
  exists a, s = a ++ dropWhile p s /\ forallb p a = true.
Proof. apply dropWhile_suffix. Qed.

(** What the trimming removes is of the trimmed class. *)
Lemma TrimFunc_parts (p : ascii -> bool) (s : gostring) :
  exists a b, s = a ++ TrimFunc p s ++ b
              /\ forallb p a = true /\ forallb p b = true.
Proof.
  unfold TrimFunc, TrimRightFunc, TrimLeftFunc.
  destruct (dropWhile_suffix p s) as (a & Ha & Hpa).
  destruct (dropWhile_suffix p (rev (dropWhile p s))) as (b & Hb & Hpb).
  exists a, (rev b). repeat split.
  - rewrite Ha at 1. f_equal.
    rewrite <- (rev_involutive (dropWhile p s)) at 1.
    rewrite Hb at 1. now rewrite rev_app_distr.
  - assumption.
  - now rewrite forallb_rev.
Qed.

Lemma isEmpty_TrimFunc (p : ascii -> bool) (s : gostring) :
  isEmpty (TrimFunc p s) = forallb p s.
Proof.
  apply eq_true_iff_eq. split.
  - intros H. apply isEmpty_nil in H. now apply TrimFunc_nil_all.
  - intros H. apply isEmpty_nil. now apply TrimFunc_all.
Qed.

Lemma toUpperByte_isSpace (c : ascii) : isSpace (toUpperByte c) = isSpace c.
Proof.
  destruct c as [[|] [|] [|] [|] [|] [|] [|] [|]]; reflexivity.
Qed.

Lemma toUpperByte_isDigit (c : ascii) : isDigit (toUpperByte c) = isDigit c.
Proof.
  destruct c as [[|] [|] [|] [|] [|] [|] [|] [|]]; reflexivity.
Qed.

Lemma space_not_digit (c : ascii) : isSpace c = true -> isDigit c = false.
Proof.
  destruct c as [[|] [|] [|] [|] [|] [|] [|] [|]]; try reflexivity;
    discriminate.
Qed.

Lemma existsb_digit_spaces (a : gostring) :
  forallb isSpace a = true -> existsb isDigit a = false.
Proof.
  induction a as [|c a IH]; simpl; [reflexivity|].
  intros H. apply andb_true_iff in H as [Hc Ha].
  now rewrite (space_not_digit _ Hc), IH.
Qed.

Lemma existsb_digit_TrimSpace (s : gostring) :
  existsb isDigit (TrimSpace s) = existsb isDigit s.
Proof.
  destruct (TrimFunc_parts isSpace s) as (a & b & E & Ha & Hb).
  fold (TrimSpace s) in E. rewrite E at 2.
  rewrite !existsb_app, (existsb_digit_spaces _ Ha),
    (existsb_digit_spaces _ Hb).
  now rewrite orb_false_r.
Qed.

Lemma forallb_space_ToUpper (s : gostring) :
  forallb isSpace (ToUpper s) = forallb isSpace s.
Proof.
  unfold ToUpper. induction s as [|c t IH]; cbn [map forallb];
    [reflexivity|]. now rewrite toUpperByte_isSpace, IH.
Qed.

Lemma existsb_digit_ToUpper (s : gostring) :
  existsb isDigit (ToUpper s) = existsb isDigit s.
Proof.
  unfold ToUpper. induction s as [|c t IH]; cbn [map existsb];
    [reflexivity|]. now rewrite toUpperByte_isDigit, IH.
Qed.

Lemma isSectionTitle_bytes (s : gostring) :
  isSectionTitle s = negb (forallb isSpace s) && negb (existsb isDigit s).
Proof.
  unfold isSectionTitle, TrimSpace. rewrite isEmpty_TrimFunc.
  fold (TrimSpace (ToUpper s)). rewrite existsb_digit_TrimSpace.
  rewrite forallb_space_ToUpper, existsb_digit_ToUpper.
  now destruct (forallb isSpace s).
Qed.





(** ** Rows that end the request *)

(** A row of exactly two cells whose name (column B) holds a digit. *)
Definition shortDataRow (row : Row) : bool :=
  (length row =? 2)%nat && existsb isDigit (nth 1 row []).

Definition sheetHasShortDataRow (sh : Sheet) : bool :=
  match sh with
  | Some rows => existsb shortDataRow rows
  | None => false
  end.

Lemma forallb_space_TrimSpace (s : gostring) :
  forallb isSpace (TrimSpace s) = forallb isSpace s.
Proof.
  destruct (TrimFunc_parts isSpace s) as (a & b & E & Ha & Hb).
  fold (TrimSpace s) in E. rewrite E at 2.
  rewrite !forallb_app, Ha, Hb. now rewrite andb_true_r.
Qed.

(** A name is that of a data row (not empty, not a title) exactly when it
    holds a digit. *)
Lemma data_name_digit (x : gostring) :
  negb (isSectionTitle (TrimSpace x)) && negb (isEmpty (TrimSpace x))
  = existsb isDigit x.
Proof.
  rewrite isSectionTitle_bytes, forallb_space_TrimSpace,
    existsb_digit_TrimSpace.
  unfold TrimSpace. rewrite isEmpty_TrimFunc.
  destruct (forallb isSpace x) eqn:E; cbn [negb andb].
  - symmetry. now apply existsb_digit_spaces.
  - rewrite ?andb_true_r. now rewrite negb_involutive.
Qed.

(** One row: the request ends in a panic exactly on a short data row, and
    the store is then as it was before the row. *)
Lemma processRow_panics (priceUSD : PriceMap) (pricesText : gostring)
      (fxRate defaultMargin : float64) (r : Repo) (ps : Pass)
      (category : gostring) (row : Row) :
  if shortDataRow row
  then processRow priceUSD pricesText fxRate defaultMargin r ps category row
       = (r, Panicked)
  else exists r1 ps1 category1,
      processRow priceUSD pricesText fxRate defaultMargin r ps category row
      = (r1, Done (ps1, category1)).
Proof.
  unfold shortDataRow, processRow.
  destruct row as [|c0 [|c1 [|c2 rest]]].
  - cbn [length Nat.eqb andb]. now exists r, ps, category.
  - cbn [length Nat.eqb andb cell Nat.ltb Nat.leb].
    change (isSectionTitle []) with false. cbn [isEmpty].
    now exists r, ps, category.
  - cbn [length Nat.eqb andb cell Nat.ltb Nat.leb nth nth_error].
    pose proof (data_name_digit c1) as Hd.
    destruct (isSectionTitle (TrimSpace c1)); cbn [negb andb] in Hd.
    { rewrite <- Hd. eexists _, _, _. reflexivity. }
    destruct (isEmpty (TrimSpace c1)); cbn [negb] in Hd; rewrite <- Hd.
    + now exists r, ps, category.
    + reflexivity.
  - cbn [length Nat.eqb andb cell Nat.ltb Nat.leb nth nth_error].
    destruct (isSectionTitle (TrimSpace c1)); [eexists _, _, _; reflexivity|].
    destruct (isEmpty (TrimSpace c1)); [eexists _, _, _; reflexivity|].
    destruct (EqualFold (TrimSpace c2) "Color");
      [eexists _, _, _; reflexivity|].
    destruct (le0 _); [eexists _, _, _; reflexivity|].
    destruct (upsertProduct _ _ _ _ _ _ _) as [[p r1] ps1].
    destruct (upsertVariant _ _ _ _ _ _) as [r2 ps2].
    eexists _, _, _; reflexivity.
Qed.

Lemma processRows_panics (priceUSD : PriceMap) (pricesText : gostring)
      (fxRate defaultMargin : float64) (rows : list Row) :
  forall r ps category,
    if existsb shortDataRow rows
    then exists r1,
        processRows priceUSD pricesText fxRate defaultMargin
                    r ps category rows = (r1, Panicked)
    else exists r1 ps1,
        processRows priceUSD pricesText fxRate defaultMargin
                    r ps category rows = (r1, Done ps1).
Proof.
  induction rows as [|row rows IH]; intros r ps category.
  - cbn [existsb processRows]. now exists r, ps.
  - cbn [existsb processRows].
    pose proof (processRow_panics priceUSD pricesText fxRate defaultMargin
                                  r ps category row) as H.
    destruct (shortDataRow row); cbn [orb].
    + rewrite H. now exists r.
    + destruct H as (r1 & ps1 & category1 & ->). apply IH.
Qed.

Lemma processSheets_panics (priceUSD : PriceMap) (pricesText : gostring)
      (fxRate defaultMargin : float64) (sheets : Workbook) :
  forall r ps,
    if existsb sheetHasShortDataRow sheets
    then exists r1,
        processSheets priceUSD pricesText fxRate defaultMargin r ps sheets
        = (r1, Panicked)
    else exists r1 ps1,
        processSheets priceUSD pricesText fxRate defaultMargin r ps sheets
        = (r1, Done ps1).
Proof.
  induction sheets as [|sh sheets IH]; intros r ps.
  - cbn [existsb processSheets]. now exists r, ps.
  - cbn [existsb processSheets]. destruct sh as [[|row rows]|].
    + cbn [sheetHasShortDataRow existsb orb]. apply IH.
    + cbn [sheetHasShortDataRow].
      pose proof (processRows_panics priceUSD pricesText fxRate defaultMargin
                                     (row :: rows) r ps []) as H.
      destruct (existsb shortDataRow (row :: rows)); cbn [orb].
      * destruct H as (r1 & ->). now exists r1.
      * destruct H as (r1 & ps1 & ->). apply IH.
    + cbn [sheetHasShortDataRow orb]. apply IH.
Qed.

(** The bound that the row loop does not check: the request of an upload
    ends in a run-time panic exactly when the price guard passes, the
    spreadsheet opens and one of its readable sheets has a row of exactly
    two cells whose name holds a digit (the loop reads the third cell of
    every named row that is not a title).  The report of the last import is
    then the one of before. *)
Theorem handleAdminImportCSV_panics (s : Server) (wb : option Workbook)
        (pricesText : gostring) (fxRate defaultMargin : float64) :
  let out := handleAdminImportCSV s wb pricesText fxRate defaultMargin in
  (snd out = Panicked
   <-> le0 fxRate = false
       /\ exists sheets, wb = Some sheets
                         /\ existsb sheetHasShortDataRow sheets = true)
  /\ (snd out = Panicked -> lastImport (fst out) = lastImport s).
Proof.
  cbv zeta. unfold handleAdminImportCSV.
  destruct (le0 fxRate).
  { cbn [fst snd]. split; [|discriminate]. split; [discriminate|].
    intros [H _]. discriminate H. }
  unfold importFromXLSXCombined. destruct wb as [sheets|].
  - pose proof (processSheets_panics (parseUSDPrices pricesText) pricesText
                  fxRate defaultMargin sheets
                  (ProductRepo.MarkAllInactive (repo s)) emptyPass) as H.
    destruct (existsb sheetHasShortDataRow sheets) eqn:E.
    + destruct H as (r1 & ->). cbn [fst snd lastImport]. split.
      * split; [|reflexivity]. intros _. split; [reflexivity|].
        exists sheets. split; [reflexivity|exact E].
      * reflexivity.
    + destruct H as (r1 & ps1 & ->).
      cbn [ProductRepo.GetInactiveSlugs].
      destruct (importFromPricesTextOnly _ _ _ _ _ _) as [s2 [[[cp up] cv] uv]].
      cbn [fst snd]. split; [|discriminate]. split; [discriminate|].
      intros [_ (sh & [= <-] & H)]. rewrite E in H. discriminate H.
  - destruct (importFromPricesTextOnly _ _ _ _ _ _) as [s2 [[[cp up] cv] uv]].
    cbn [fst snd]. split; [|discriminate]. split; [discriminate|].
    intros [_ (sh & H & _)]. discriminate H.
Qed.

(** ** The counters of the spreadsheet pass *)

(** The sum of the counts of a grouping. *)
Definition total (m : list (gostring * Z)) : Z :=
  fold_right Z.add 0%Z (map snd m).

(** What the row loop keeps true of its counters and of its lists. *)
Definition tallied (ps : Pass) : Prop :=
  (createdP ps + updatedP ps = createdV ps + updatedV ps)%Z
  /\ (0 <= createdP ps /\ 0 <= updatedP ps
      /\ 0 <= createdV ps /\ 0 <= updatedV ps)%Z
  /\ (Z.of_nat (length (createdProductSlugs ps)) <= createdP ps
      /\ Z.of_nat (length (updatedProductSlugs ps)) <= updatedP ps
      /\ Z.of_nat (length (createdVariantKeys ps)) <= createdV ps
      /\ Z.of_nat (length (updatedVariantKeys ps)) <= updatedV ps)%Z
  /\ unmatched ps = total (unmatchedItems ps)
  /\ Forall (fun kv => (0 < snd kv)%Z) (unmatchedItems ps)
  /\ map fst (unmatchedReasons ps) = map fst (unmatchedItems ps).

Section Grouping.
Variables (K V : Type) (keq : K -> K -> bool).
Hypothesis keq_eq : forall a b, keq a b = true <-> a = b.

Lemma get_existsb (m : list (K * V)) (k : K) :
  get keq m k = None <-> existsb (keq k) (map fst m) = false.
Proof.
  induction m as [|[k' v'] m IH]; simpl; [tauto|].
  destruct (keq k' k) eqn:E.
  - apply keq_eq in E. subst k'. rewrite (proj2 (keq_eq k k) eq_refl).
    simpl. split; discriminate.
  - assert (E' : keq k k' = false).
    { destruct (keq k k') eqn:E'; [|reflexivity].
      apply keq_eq in E'. subst k'.
      now rewrite (proj2 (keq_eq k k) eq_refl) in E. }
    rewrite E'. exact IH.
Qed.
End Grouping.

Lemma total_set (m : list (gostring * Z)) (k : gostring) (n : Z) :
  total (set Strings.eqb k n m)
  = (total m + n
     - match get Strings.eqb m k with Some old => old | None => 0 end)%Z.
Proof.
  unfold total. induction m as [|[k' v'] m IH]; simpl; [lia|].
  destruct (Strings.eqb k' k); simpl; [lia|]. rewrite IH. lia.
Qed.

Lemma positive_set (m : list (gostring * Z)) (k : gostring) (n : Z) :
  (0 < n)%Z -> Forall (fun kv => (0 < snd kv)%Z) m ->
  Forall (fun kv => (0 < snd kv)%Z) (set Strings.eqb k n m).
Proof.
  intros Hn Hm. apply Forall_forall. intros [k1 v1] Hin.
  apply In_set in Hin as [[= -> ->]|Hin]; [exact Hn|].
  rewrite Forall_forall in Hm. now apply (Hm (k1, v1)).
Qed.

Lemma recordUnmatched_tallied (pricesText baseKey : gostring) (ps : Pass) :
  tallied ps -> tallied (recordUnmatched pricesText baseKey ps).
Proof.
  intros (Hb & Hc & Hl & Hu & Hpos & Hk).
  unfold tallied, recordUnmatched.
  cbn [createdP updatedP createdV updatedV unmatched unmatchedItems
       unmatchedReasons createdProductSlugs updatedProductSlugs
       createdVariantKeys updatedVariantKeys].
  split; [exact Hb|]. split; [exact Hc|]. split; [exact Hl|].
  split; [|split].
  - rewrite total_set, Hu.
    destruct (get Strings.eqb (unmatchedItems ps) baseKey); lia.
  - apply positive_set; [|exact Hpos].
    destruct (get Strings.eqb (unmatchedItems ps) baseKey) as [n|] eqn:E;
      [|lia].
    apply (get_In _ _ Strings.eqb eqb_eq) in E.
    rewrite Forall_forall in Hpos. specialize (Hpos _ E). simpl in Hpos. lia.
  - rewrite (set_keys _ _ Strings.eqb eqb_eq).
    destruct (get Strings.eqb (unmatchedReasons ps) baseKey) as [old|] eqn:E.
    + destruct (existsb (Strings.eqb baseKey)
                        (map fst (unmatchedItems ps))) eqn:Ex;
        [exact Hk|].
      rewrite <- Hk in Ex.
      apply (get_existsb _ _ Strings.eqb eqb_eq) in Ex. congruence.
    + rewrite (set_keys _ _ Strings.eqb eqb_eq).
      apply (get_existsb _ _ Strings.eqb eqb_eq) in E.
      rewrite <- Hk, E. reflexivity.
Qed.

Lemma length_snoc_le {A : Type} (b : bool) (l : list A) (x : A) (n : Z) :
  (Z.of_nat (length l) <= n)%Z ->
  (Z.of_nat (length (if b then l ++ [x] else l)) <= n + 1)%Z.
Proof.
  intros H. destruct b; [|lia]. rewrite length_app. simpl. lia.
Qed.

Lemma processRow_tallied (priceUSD : PriceMap) (pricesText : gostring)
      (fxRate defaultMargin : float64) (r : Repo) (ps : Pass)
      (category : gostring) (row : Row) (r' : Repo) (ps' : Pass)
      (category' : gostring) :
  tallied ps ->
  processRow priceUSD pricesText fxRate defaultMargin r ps category row
  = (r', Done (ps', category')) ->
  tallied ps'.
Proof.
  intros Hps. unfold processRow.
  destruct (length row =? 0)%nat; [now intros [= _ <- _]|].
  destruct (isSectionTitle (cell row 1)); [now intros [= _ <- _]|].
  destruct (isEmpty (cell row 1)); [now intros [= _ <- _]|].
  destruct (nth_error row 2) as [c2|]; [|discriminate].
  destruct (EqualFold (TrimSpace c2) "Color"); [now intros [= _ <- _]|].
  destruct (le0 _).
  { intros [= _ <- _]. now apply recordUnmatched_tallied. }
  unfold upsertProduct, upsertVariant.
  destruct (inferBrandModel _) as [brand model].
  destruct (ProductUC.GetBySlug _ _) as [found r1].
  destruct Hps as (Hb & (H1 & H2 & H3 & H4) & (L1 & L2 & L3 & L4) & Hrest).
  destruct found as [q|];
    destruct (ProductUC.Create _ _) as [p r2];
    destruct (ProductUC.ListVariants _ _) as [vs r3];
    cbn [processedVariants createdP updatedP createdV updatedV unmatched
         unmatchedItems unmatchedReasons createdProductSlugs
         updatedProductSlugs createdVariantKeys updatedVariantKeys
         activatedSlugs];
    destruct (findVariant vs _) as [existing|];
    try destruct (ProductUC.CreateVariant _ _) as [v r4];
    intros [= _ <- _]; unfold tallied;
    cbn [processedVariants createdP updatedP createdV updatedV unmatched
         unmatchedItems unmatchedReasons createdProductSlugs
         updatedProductSlugs createdVariantKeys updatedVariantKeys
         activatedSlugs];
    (split; [lia|]); (split; [lia|]); (split; [|exact Hrest]);
    repeat split; try lia; try (apply length_snoc_le; assumption).
Qed.

Lemma processRows_tallied (priceUSD : PriceMap) (pricesText : gostring)
      (fxRate defaultMargin : float64) (rows : list Row) :
  forall r ps category r' ps',
    tallied ps ->
    processRows priceUSD pricesText fxRate defaultMargin r ps category rows
    = (r', Done ps') ->
    tallied ps'.
Proof.
  induction rows as [|row rows IH]; intros r ps category r' ps' Hps;
    cbn [processRows].
  - now intros [= _ <-].
  - destruct (processRow _ _ _ _ r ps category row) as [r1 [[ps1 c1]|]] eqn:E;
      [|discriminate].
    apply IH. exact (processRow_tallied _ _ _ _ _ _ _ _ _ _ _ Hps E).
Qed.

Lemma processSheets_tallied (priceUSD : PriceMap) (pricesText : gostring)
      (fxRate defaultMargin : float64) (sheets : Workbook) :
  forall r ps r' ps',
    tallied ps ->
    processSheets priceUSD pricesText fxRate defaultMargin r ps sheets
    = (r', Done ps') ->
    tallied ps'.
Proof.
  induction sheets as [|sh sheets IH]; intros r ps r' ps' Hps;
    cbn [processSheets].
  - now intros [= _ <-].
  - destruct sh as [[|row rows]|]; try (now apply IH).
    destruct (processRows _ _ _ _ r ps [] (row :: rows)) as [r1 [ps1|]] eqn:E;
      [|discriminate].
    apply IH. exact (processRows_tallied _ _ _ _ _ _ _ _ _ _ Hps E).
Qed.

Lemma emptyPass_tallied : tallied emptyPass.
Proof.
  unfold tallied, emptyPass, total. simpl.
  repeat split; try lia; constructor.
Qed.

(** The spreadsheet pass that completes leaves a report, and the report
    adds up.  The five numbers returned are those of the report; each
    priced row counts one product and one variant, so products created
    plus updated equal variants created plus updated; no list of slugs or
    of variant keys is longer than its counter; the number of deprecated
    products is the length of the list of deprecated slugs. *)
Theorem import_report_counts (s : Server) (sheets : Workbook)
        (priceUSD : PriceMap) (pricesText : gostring)
        (fxRate defaultMargin : float64) (s' : Server) (c : Counts5) :
  importFromXLSXCombined s (Some sheets) priceUSD pricesText
                         fxRate defaultMargin = (s', Done c) ->
  exists rep,
    lastImport s' = Some rep
    /\ c = (CreatedProducts rep, UpdatedProducts rep, CreatedVariants rep,
            UpdatedVariants rep, UnmatchedPrices rep)
    /\ (CreatedProducts rep + UpdatedProducts rep
        = CreatedVariants rep + UpdatedVariants rep)%Z
    /\ (0 <= CreatedProducts rep /\ 0 <= UpdatedProducts rep
        /\ 0 <= CreatedVariants rep /\ 0 <= UpdatedVariants rep)%Z
    /\ (Z.of_nat (length (CreatedProductSlugs rep)) <= CreatedProducts rep
        /\ Z.of_nat (length (UpdatedProductSlugs rep)) <= UpdatedProducts rep
        /\ Z.of_nat (length (CreatedVariantKeys rep)) <= CreatedVariants rep
        /\ Z.of_nat (length (UpdatedVariantKeys rep)) <= UpdatedVariants rep)%Z
    /\ DeprecatedProducts rep = Z.of_nat (length (DeprecatedSlugs rep)).
Proof.
  unfold importFromXLSXCombined.
  destruct (processSheets _ _ _ _ _ emptyPass sheets) as [r1 [ps|]] eqn:E;
    [|discriminate].
  cbn [ProductRepo.GetInactiveSlugs]. intros [= <- <-].
  destruct (processSheets_tallied _ _ _ _ _ _ _ _ _ emptyPass_tallied E)
    as (Hb & Hc & Hl & _).
  eexists. split; [reflexivity|].
  cbn [CreatedProducts UpdatedProducts CreatedVariants UpdatedVariants
       UnmatchedPrices DeprecatedProducts CreatedProductSlugs
       UpdatedProductSlugs CreatedVariantKeys UpdatedVariantKeys
       DeprecatedSlugs].
  repeat split; tauto.
Qed.

(** The unmatched rows of a completed pass are grouped by key: the number
    of unmatched rows is the sum of the counts of the groups, every group
    counts at least one row, and the reasons are recorded for the same
    keys, in the same order, as the groups. *)
Theorem import_report_unmatched (s : Server) (sheets : Workbook)
        (priceUSD : PriceMap) (pricesText : gostring)
        (fxRate defaultMargin : float64) (s' : Server) (c : Counts5) :
  importFromXLSXCombined s (Some sheets) priceUSD pricesText
                         fxRate defaultMargin = (s', Done c) ->
  exists rep,
    lastImport s' = Some rep
    /\ snd c = UnmatchedPrices rep
    /\ UnmatchedPrices rep = total (UnmatchedItems rep)
    /\ Forall (fun kv => (0 < snd kv)%Z) (UnmatchedItems rep)
    /\ map fst (UnmatchedReasons rep) = map fst (UnmatchedItems rep).
Proof.
  unfold importFromXLSXCombined.
  destruct (processSheets _ _ _ _ _ emptyPass sheets) as [r1 [ps|]] eqn:E;
    [|discriminate].
  cbn [ProductRepo.GetInactiveSlugs]. intros [= <- <-].
  destruct (processSheets_tallied _ _ _ _ _ _ _ _ _ emptyPass_tallied E)
    as (_ & _ & _ & Hu & Hpos & Hk).
  eexists. split; [reflexivity|].
  cbn [UnmatchedPrices UnmatchedItems UnmatchedReasons snd].
  repeat split; assumption.
Qed.

(** A run on which both reports can be read: one priced row, two rows of
    a phone that the price list does not hold. *)
Definition report_workbook : Workbook :=
  [ Some [ [ [] ; "MOTOROLA" : gostring ];
           [ [] ; "Moto G35 Negro" : gostring; "Negro" : gostring;
             [] ; "Disponible" : gostring ];
           [ [] ; "Moto G99" : gostring; "Azul" : gostring ];
           [ [] ; "Moto G99" : gostring; "Rojo" : gostring ] ] ].

Definition report_run : Server * Step Counts5 :=
  importFromXLSXCombined (mkServer c2_repo None) (Some report_workbook)
                         c2_prices "Moto G35   $100" (ofZ 1485) (ofZ 20).

Lemma report_run_done :
  importFromXLSXCombined (mkServer c2_repo None) (Some report_workbook)
                         c2_prices "Moto G35   $100" (ofZ 1485) (ofZ 20)
  = (fst report_run, Done (0, 1, 0, 1, 2)%Z).
Proof. vm_compute. reflexivity. Defined.

Lemma import_report_counts_witness :
  exists rep,
    lastImport (fst report_run) = Some rep
    /\ (0, 1, 0, 1, 2)%Z
       = (CreatedProducts rep, UpdatedProducts rep, CreatedVariants rep,
          UpdatedVariants rep, UnmatchedPrices rep)
    /\ (CreatedProducts rep + UpdatedProducts rep
        = CreatedVariants rep + UpdatedVariants rep)%Z
    /\ (0 <= CreatedProducts rep /\ 0 <= UpdatedProducts rep
        /\ 0 <= CreatedVariants rep /\ 0 <= UpdatedVariants rep)%Z
    /\ (Z.of_nat (length (CreatedProductSlugs rep)) <= CreatedProducts rep
        /\ Z.of_nat (length (UpdatedProductSlugs rep)) <= UpdatedProducts rep
        /\ Z.of_nat (length (CreatedVariantKeys rep)) <= CreatedVariants rep
        /\ Z.of_nat (length (UpdatedVariantKeys rep)) <= UpdatedVariants rep)%Z
    /\ DeprecatedProducts rep = Z.of_nat (length (DeprecatedSlugs rep)).
Proof.
  exact (import_report_counts _ _ _ _ _ _ _ _ report_run_done).
Defined.

Lemma import_report_unmatched_witness :
  exists rep,
    lastImport (fst report_run) = Some rep
    /\ 2%Z = UnmatchedPrices rep
    /\ UnmatchedPrices rep = total (UnmatchedItems rep)
    /\ Forall (fun kv => (0 < snd kv)%Z) (UnmatchedItems rep)
    /\ map fst (UnmatchedReasons rep) = map fst (UnmatchedItems rep).
Proof.
  exact (import_report_unmatched _ _ _ _ _ _ _ _ report_run_done).
Defined.

(** ** An upload without prices *)

Lemma rowPrice_empty (baseKey : gostring) : rowPrice [] baseKey = zero.
Proof.
  unfold rowPrice, priceOf, lookup. cbn [get]. rewrite le0_zero.
  destruct (matchUSDPrice_zero_or_listed [] baseKey) as [->|[k []]].
  reflexivity.
Qed.

(** The part of the bookkeeping that an unmatched row leaves alone. *)
Definition untouched (ps : Pass) : Prop :=
  createdP ps = 0%Z /\ updatedP ps = 0%Z /\ createdV ps = 0%Z
  /\ updatedV ps = 0%Z /\ processedVariants ps = [].

Lemma processRow_unpriced (pricesText : gostring)
      (fxRate defaultMargin : float64) (r : Repo) (ps : Pass)
      (category : gostring) (row : Row) :
  untouched ps ->
  fst (processRow [] pricesText fxRate defaultMargin r ps category row) = r
  /\ forall ps1 category1,
      snd (processRow [] pricesText fxRate defaultMargin r ps category row)
      = Done (ps1, category1) -> untouched ps1.
Proof.
  intros Hps. unfold processRow.
  destruct (length row =? 0)%nat;
    [split; [reflexivity|now intros ps1 c1 [= <- _]]|].
  destruct (isSectionTitle (cell row 1));
    [split; [reflexivity|now intros ps1 c1 [= <- _]]|].
  destruct (isEmpty (cell row 1));
    [split; [reflexivity|now intros ps1 c1 [= <- _]]|].
  destruct (nth_error row 2) as [c2|];
    [|split; [reflexivity|discriminate]].
  destruct (EqualFold (TrimSpace c2) "Color");
    [split; [reflexivity|now intros ps1 c1 [= <- _]]|].
  rewrite rowPrice_empty, le0_zero.
  split; [reflexivity|]. intros ps1 c1 [= <- _]. exact Hps.
Qed.

Lemma processRows_unpriced (pricesText : gostring)
      (fxRate defaultMargin : float64) (rows : list Row) :
  forall r ps category,
    untouched ps ->
    fst (processRows [] pricesText fxRate defaultMargin r ps category rows)
    = r
    /\ forall ps1,
        snd (processRows [] pricesText fxRate defaultMargin r ps category rows)
        = Done ps1 -> untouched ps1.
Proof.
  induction rows as [|row rows IH]; intros r ps category Hps;
    cbn [processRows].
  - split; [reflexivity|now intros ps1 [= <-]].
  - destruct (processRow_unpriced pricesText fxRate defaultMargin r ps
                                  category row Hps) as [Hr Hd].
    destruct (processRow _ _ _ _ r ps category row) as [r1 [[ps1 c1]|]].
    + cbn [fst] in Hr. subst r1. apply IH. now apply (Hd ps1 c1).
    + cbn [fst] in Hr. subst r1. split; [reflexivity|discriminate].
Qed.

Lemma processSheets_unpriced (pricesText : gostring)
      (fxRate defaultMargin : float64) (sheets : Workbook) :
  forall r ps,
    untouched ps ->
    fst (processSheets [] pricesText fxRate defaultMargin r ps sheets) = r
    /\ forall ps1,
        snd (processSheets [] pricesText fxRate defaultMargin r ps sheets)
        = Done ps1 -> untouched ps1.
Proof.
  induction sheets as [|sh sheets IH]; intros r ps Hps; cbn [processSheets].
  - split; [reflexivity|now intros ps1 [= <-]].
  - destruct sh as [[|row rows]|]; try (now apply IH).
    destruct (processRows_unpriced pricesText fxRate defaultMargin
                                   (row :: rows) r ps [] Hps) as [Hr Hd].
    destruct (processRows _ _ _ _ r ps [] (row :: rows)) as [r1 [ps1|]].
    + cbn [fst] in Hr. subst r1. apply IH. now apply Hd.
    + cbn [fst] in Hr. subst r1. split; [reflexivity|discriminate].
Qed.

Lemma inactive_slugs_all (ps : list Product.t) :
  map Product.Slug
      (filter (fun p => negb (Product.Active p))
              (map (fun p => Product.withActive p false) ps))
  = map Product.Slug ps.
Proof.
  induction ps as [|p ps IH]; simpl; [reflexivity|]. now rewrite IH.
Qed.

(** An upload whose price text gives no price (an empty text, or lines
    that all lack a price) takes the whole catalog off line: whatever the
    spreadsheet holds, every product of the store ends inactive and no
    variant is changed; if the request completes, it reports nothing
    created or updated and lists the slug of every product as
    deprecated. *)
Theorem import_without_prices (s : Server) (sheets : Workbook)
        (pricesText : gostring) (fxRate defaultMargin : float64) :
  le0 fxRate = false ->
  parseUSDPrices pricesText = [] ->
  let out :=
    handleAdminImportCSV s (Some sheets) pricesText fxRate defaultMargin in
  products (repo (fst out))
  = map (fun p => Product.withActive p false) (products (repo s))
  /\ variants (repo (fst out)) = variants (repo s)
  /\ forall resp,
      snd out = Done resp ->
      exists un rep,
        resp = OK 0 0 0 0 un (Some rep)
        /\ UnmatchedPrices rep = un
        /\ DeprecatedSlugs rep = map Product.Slug (products (repo s)).
Proof.
  intros Hfx Hprices. cbv zeta. unfold handleAdminImportCSV.
  rewrite Hfx, Hprices. unfold importFromXLSXCombined.
  assert (H0 : untouched emptyPass) by (repeat split).
  destruct (processSheets_unpriced pricesText fxRate defaultMargin sheets
              (ProductRepo.MarkAllInactive (repo s)) emptyPass H0)
    as [Hr Hd].
  destruct (processSheets _ _ _ _ _ emptyPass sheets) as [r1 [ps1|]].
  - cbn [fst] in Hr. subst r1.
    destruct (Hd ps1 eq_refl) as (E1 & E2 & E3 & E4 & E5).
    rewrite E1, E2, E3, E4, E5.
    cbn [stockZeroSweep fold_left ProductRepo.GetInactiveSlugs
         importFromPricesTextOnly excelProducts fst snd repo lastImport
         ProductRepo.called ProductRepo.MarkAllInactive products variants].
    repeat split.
    intros resp [= <-]. eexists _, _. split; [reflexivity|].
    cbn [UnmatchedPrices DeprecatedSlugs]. split; [reflexivity|].
    apply inactive_slugs_all.
  - cbn [fst] in Hr. subst r1.
    cbn [fst snd repo ProductRepo.called ProductRepo.MarkAllInactive
         products variants].
    repeat split. discriminate.
Qed.

Lemma import_without_prices_witness :
  let out :=
    handleAdminImportCSV (mkServer c2_repo None) (Some report_workbook)
                         "Moto G35 sin precio" (ofZ 1485) (ofZ 20) in
  products (repo (fst out))
  = map (fun p => Product.withActive p false) (products c2_repo)
  /\ variants (repo (fst out)) = variants c2_repo
  /\ forall resp,
      snd out = Done resp ->
      exists un rep,
        resp = OK 0 0 0 0 un (Some rep)
        /\ UnmatchedPrices rep = un
        /\ DeprecatedSlugs rep = map Product.Slug (products c2_repo).
Proof.
  apply (import_without_prices (mkServer c2_repo None) report_workbook
                               "Moto G35 sin precio" (ofZ 1485) (ofZ 20));
    vm_compute; reflexivity.
Defined.


(** ** The store: saving and finding a product *)

Lemma find_saved_update (p : Product.t) (ps : list Product.t) :
  (forall q, In q ps ->
             Strings.eqb (Product.Slug q) (Product.Slug p)
             && negb (Product.ID q =? Product.ID p)%nat = false) ->
  existsb (fun q => (Product.ID q =? Product.ID p)%nat) ps = true ->
  find (fun q => Strings.eqb (Product.Slug q) (Product.Slug p))
       (map (fun q => if (Product.ID q =? Product.ID p)%nat then p else q) ps)
  = Some p.
Proof.
  induction ps as [|q ps IH]; intros Hfree Hex; [discriminate Hex|].
  cbn [map find]. cbn [existsb] in Hex.
  destruct (Product.ID q =? Product.ID p)%nat eqn:Eid.
  - now rewrite eqb_refl.
  - pose proof (Hfree q (or_introl eq_refl)) as Hq.
    rewrite Eid, andb_true_r in Hq. rewrite Hq.
    apply IH; [|exact Hex]. intros q' Hq'. apply Hfree. now right.
Qed.

Lemma find_saved_insert (p : Product.t) (ps : list Product.t) :
  (forall q, In q ps ->
             Strings.eqb (Product.Slug q) (Product.Slug p)
             && negb (Product.ID q =? Product.ID p)%nat = false) ->
  existsb (fun q => (Product.ID q =? Product.ID p)%nat) ps = false ->
  find (fun q => Strings.eqb (Product.Slug q) (Product.Slug p)) (ps ++ [p])
  = Some p.
Proof.
  induction ps as [|q ps IH]; intros Hfree Hex.
  - cbn [app find]. now rewrite eqb_refl.
  - cbn [app find]. cbn [existsb] in Hex.
    apply orb_false_iff in Hex as [Eid Hex].
    pose proof (Hfree q (or_introl eq_refl)) as Hq.
    rewrite Eid, andb_true_r in Hq. rewrite Hq.
    apply IH; [|exact Hex]. intros q' Hq'. apply Hfree. now right.
Qed.

Lemma slugTaken_false (r : Repo) (p : Product.t) :
  ProductRepo.slugTaken r p = false ->
  forall q, In q (products r) ->
            Strings.eqb (Product.Slug q) (Product.Slug p)
            && negb (Product.ID q =? Product.ID p)%nat = false.
Proof.
  unfold ProductRepo.slugTaken. intros H q Hq.
  destruct (_ && _) eqn:E; [|reflexivity].
  assert (existsb (fun q => Strings.eqb (Product.Slug q) (Product.Slug p)
                            && negb (Product.ID q =? Product.ID p)%nat)
                  (products r) = true); [|congruence].
  apply existsb_exists. now exists q.
Qed.

Lemma Save_found (r r' : Repo) (p : Product.t) :
  ProductRepo.Save r p = (true, r') ->
  find (fun q => Strings.eqb (Product.Slug q) (Product.Slug p)) (products r')
  = Some p.
Proof.
  unfold ProductRepo.Save.
  destruct (ProductRepo.slugTaken r p) eqn:Et; [discriminate|].
  pose proof (slugTaken_false r p Et) as Hfree.
  destruct (existsb _ (products r)) eqn:Ex; intros [= <-]; cbn [products].
  - now apply find_saved_update.
  - now apply find_saved_insert.
Qed.

(** Saving and finding a product are a round trip: a save that the store
    accepts makes the product the one found under its slug (by the
    repository, and by the use case when the slug is not empty), and
    leaves the variants alone; a save that the unique index on the slug
    refuses changes neither table. *)
Theorem Save_then_FindBySlug (r : Repo) (p : Product.t) :
  let (ok, r') := ProductRepo.Save r p in
  if ok
  then fst (ProductRepo.FindBySlug r' (Product.Slug p)) = Some p
       /\ (Product.Slug p <> [] ->
           fst (ProductUC.GetBySlug r' (Product.Slug p)) = Some p)
       /\ variants r' = variants r
  else products r' = products r /\ variants r' = variants r.
Proof.
  destruct (ProductRepo.Save r p) as [ok r'] eqn:E.
  pose proof (Save_variants r p) as Hv. rewrite E in Hv. cbn [snd] in Hv.
  destruct ok.
  - pose proof (Save_found r r' p E) as Hf.
    split; [exact Hf|]. split; [|exact Hv].
    intros Hs. unfold ProductUC.GetBySlug.
    apply isEmpty_false in Hs. rewrite Hs. exact Hf.
  - split; [|exact Hv]. unfold ProductRepo.Save in E.
    destruct (ProductRepo.slugTaken r p); [now injection E as <-|].
    destruct (existsb _ (products r)); discriminate E.
Qed.

(** ** Slugs *)

(** Replacing one byte by another is a map over the bytes. *)
Lemma ReplaceAll_byte (a b : ascii) (s : gostring) :
  ReplaceAll s [a] [b] = map (fun c => if Ascii.eqb a c then b else c) s.
Proof.
  unfold ReplaceAll, rewriteAll.
  induction s as [|c t IH]; [reflexivity|].
  cbn [rewriteFrom map]. unfold literal at 1. cbn [HasPrefix length].
  rewrite andb_true_r.
  destruct (Ascii.eqb a c); cbn [app]; now rewrite IH.
Qed.

(** The slug that [ProductUC.Create] gives to a name. *)
Definition nameSlug (name : gostring) : gostring :=
  ToLower (ReplaceAll name " " "-").

Lemma nameSlug_map (name : gostring) :
  nameSlug name
  = map (fun c => toLowerByte (if Ascii.eqb " " c then "-"%char else c)) name.
Proof.
  unfold nameSlug, ToLower.
  change (list_ascii_of_string " ") with [" "%char].
  change (list_ascii_of_string "-") with ["-"%char].
  rewrite ReplaceAll_byte, map_map. reflexivity.
Qed.

Lemma slugify_nameSlug (s : gostring) : slugify s = nameSlug (TrimSpace s).
Proof. reflexivity. Qed.

(** A text is trimmed of a class when neither end is of the class. *)
Definition trimmed (p : ascii -> bool) (s : gostring) : Prop :=
  dropWhile p s = s /\ dropWhile p (rev s) = rev s.

Lemma TrimFunc_fixed (p : ascii -> bool) (s : gostring) :
  trimmed p s -> TrimFunc p s = s.
Proof.
  intros [Hl Hr]. unfold TrimFunc, TrimRightFunc, TrimLeftFunc.
  rewrite Hl, Hr. apply rev_involutive.
Qed.


Lemma dropWhile_stops (p : ascii -> bool) (s : gostring) (x : ascii)
      (t : gostring) :
  dropWhile p s = x :: t -> p x = false.
Proof.
  induction s as [|c s IH]; simpl; [discriminate|].
  destruct (p c) eqn:E; [exact IH|]. now intros [= <- _].
Qed.

Lemma dropWhile_fixed_iff (p : ascii -> bool) (s : gostring) :
  dropWhile p s = s <-> match s with [] => True | x :: _ => p x = false end.
Proof.
  destruct s as [|x t]; [simpl; tauto|]. split.
  - intros H. now apply (dropWhile_stops p (x :: t) x t).
  - intros H. simpl. now rewrite H.
Qed.






Lemma slugify_nil (s : gostring) :
  slugify s = [] <-> forallb isSpace s = true.
Proof.
  rewrite slugify_nameSlug, nameSlug_map. split.
  - intros H. apply map_eq_nil in H. now apply TrimFunc_nil_all.
  - intros H. unfold TrimSpace. now rewrite (TrimFunc_all _ _ H).
Qed.

(** The lookup slug of a normalized key is the slug of a product of that
    name. *)
Lemma slugify_key (x : gostring) :
  slugify (normalizeBaseKey x)
  = ToLower (ReplaceAll (normalizeBaseKey x) " " "-").
Proof.
  rewrite slugify_nameSlug.
  destruct (normalizeBaseKey_collapsed x) as (ws & Hws & E).
  now rewrite E, (TrimSpace_words _ Hws).
Qed.


(** ** A created product is found again *)

Lemma newUUID_fresh_product (r : Repo) (q : Product.t) :
  In q (products r) -> Product.ID q < ProductRepo.newUUID r.
Proof.
  intros H. unfold ProductRepo.newUUID. apply Nat.lt_succ_r.
  assert (Hall := proj1 (list_max_le
                 (map Product.ID (products r) ++ map Variant.ID (variants r))
                 _) (Nat.le_refl _)).
  rewrite Forall_forall in Hall. apply Hall.
  apply in_or_app. left. now apply in_map.
Qed.

Lemma existsb_false_forall {A : Type} (f : A -> bool) (l : list A) :
  (forall x, In x l -> f x = false) -> existsb f l = false.
Proof.
  intros H. induction l as [|x l IH]; simpl; [reflexivity|].
  rewrite (H x (or_introl eq_refl)). apply IH. intros y Hy. apply H. now right.
Qed.

(** The first row of a new product creates it in a way that the next rows
    find: when the store holds no product under the slug of a non-empty
    normalized key, [upsertProduct] appends one product to the store, with
    a fresh identifier, the key as its name, the slug of the key, the
    prices of the row, and active; that product is what the lookup by the
    slug of the key returns afterwards, so that a later row of the same
    key updates it instead of creating a second one. *)
Theorem upsertProduct_created_is_found (r : Repo) (ps : Pass)
        (x category : gostring) (gross margin price : float64) :
  normalizeBaseKey x <> [] ->
  fst (ProductUC.GetBySlug r (slugify (normalizeBaseKey x))) = None ->
  let '(p, r', ps') :=
    upsertProduct r ps (normalizeBaseKey x) category gross margin price in
  products r' = products r ++ [p]
  /\ variants r' = variants r
  /\ fst (ProductUC.GetBySlug r' (slugify (normalizeBaseKey x))) = Some p
  /\ Product.ID p = ProductRepo.newUUID r
  /\ Product.Name p = normalizeBaseKey x
  /\ Product.Slug p = slugify (normalizeBaseKey x)
  /\ Product.BasePrice p = price
  /\ Product.GrossPrice p = gross
  /\ Product.Active p = true
  /\ createdP ps' = (createdP ps + 1)%Z
  /\ updatedP ps' = updatedP ps.
Proof.
  intros Hne Hnone.
  pose proof (slugify_nil (normalizeBaseKey x)) as Hnil.
  pose proof (slugify_key x) as Hslug.
  assert (Hs : isEmpty (slugify (normalizeBaseKey x)) = false).
  { apply isEmpty_false. intros H. apply Hnil in H.
    apply TrimFunc_all in H. fold (TrimSpace (normalizeBaseKey x)) in H.
    destruct (normalizeBaseKey_collapsed x) as (ws & Hws & E).
    rewrite E, (TrimSpace_words _ Hws) in H. now rewrite E in Hne. }
  unfold upsertProduct.
  destruct (inferBrandModel (normalizeBaseKey x)) as [brand model].
  unfold ProductUC.GetBySlug in Hnone |- *. rewrite Hs in Hnone |- *.
  unfold ProductRepo.FindBySlug in Hnone |- *. cbn [fst] in Hnone.
  rewrite Hnone.
  unfold ProductUC.Create. cbn [Product.ID Nat.eqb Nil].
  change (0 =? 0)%nat with true. cbv iota.
  unfold Product.withID, Product.withSlug.
  cbn [Product.withID Product.withSlug Product.Name Product.ID Product.Slug
       Product.BasePrice Product.GrossPrice Product.MarginPct
       Product.Category Product.Brand Product.Model Product.Active].
  rewrite <- Hslug.
  set (slug := slugify (normalizeBaseKey x)) in *.
  set (r1 := ProductRepo.called r (CallFindBySlug slug)).
  set (p := Product.mk (ProductRepo.newUUID r1) slug (normalizeBaseKey x)
                       price gross margin category brand model true).
  assert (Hfree : forall q, In q (products r) ->
                            Strings.eqb (Product.Slug q) slug = false).
  { intros q Hq. destruct (Strings.eqb (Product.Slug q) slug) eqn:E;
      [|reflexivity].
    pose proof (find_none _ _ Hnone q Hq) as Hn. cbv beta in Hn.
    congruence. }
  assert (Ht : ProductRepo.slugTaken r1 p = false).
  { unfold ProductRepo.slugTaken. apply existsb_false_forall.
    intros q Hq. cbn [Product.Slug p]. now rewrite (Hfree q Hq). }
  assert (Hid : existsb (fun q => (Product.ID q =? Product.ID p)%nat)
                        (products r1) = false).
  { apply existsb_false_forall. intros q Hq. apply Nat.eqb_neq.
    pose proof (newUUID_fresh_product r q Hq) as Hlt.
    cbn [Product.ID p]. unfold r1, ProductRepo.called, ProductRepo.newUUID
      in *. cbn [products variants] in *. lia. }
  unfold ProductRepo.Save. rewrite Ht, Hid. cbn [snd].
  cbn [products variants ProductRepo.called r1 Product.Slug p
       Product.ID Product.Name Product.BasePrice Product.GrossPrice
       Product.Active createdP updatedP fst].
  repeat split.
  clear Hnone Hid Ht. induction (products r) as [|q l IH].
  - cbn [app find Product.Slug p]. now rewrite eqb_refl.
  - cbn [app find]. rewrite (Hfree q (or_introl eq_refl)).
    apply IH. intros q' Hq'. apply Hfree. now right.
Qed.

Lemma upsertProduct_created_is_found_witness :
  let '(p, r', ps') :=
    upsertProduct c2_repo emptyPass (normalizeBaseKey "Moto G99")
                  "motorola" (ofZ 148500) (ofZ 20) (ofZ 178200) in
  products r' = products c2_repo ++ [p]
  /\ variants r' = variants c2_repo
  /\ fst (ProductUC.GetBySlug r' (slugify (normalizeBaseKey "Moto G99")))
     = Some p
  /\ Product.ID p = ProductRepo.newUUID c2_repo
  /\ Product.Name p = normalizeBaseKey "Moto G99"
  /\ Product.Slug p = slugify (normalizeBaseKey "Moto G99")
  /\ Product.BasePrice p = ofZ 178200
  /\ Product.GrossPrice p = ofZ 148500
  /\ Product.Active p = true
  /\ createdP ps' = (createdP emptyPass + 1)%Z
  /\ updatedP ps' = updatedP emptyPass.
Proof.
  apply (upsertProduct_created_is_found c2_repo emptyPass "Moto G99"
           "motorola" (ofZ 148500) (ofZ 20) (ofZ 178200)).
  - intros H. vm_compute in H. discriminate H.
  - vm_compute. reflexivity.
Defined.

(** ** Brand, model and color of a name *)

(** The brand is the first word of the name and the model is the rest of
    its words, joined by single blanks: splitting the model into words
    gives back the words after the first.  A name without a word has
    neither. *)
Theorem inferBrandModel_words (s : gostring) :
  match Fields s with
  | [] => inferBrandModel s = ([], [])
  | w :: ws =>
      fst (inferBrandModel s) = w
      /\ snd (inferBrandModel s) = Join ws " "
      /\ Fields (snd (inferBrandModel s)) = ws
      /\ Join (fst (inferBrandModel s) :: Fields (snd (inferBrandModel s))) " "
         = Join (Fields s) " "
  end.
Proof.
  unfold inferBrandModel. pose proof (Fields_words s) as Hw.
  destruct (Fields s) as [|w ws]; [reflexivity|].
  inversion Hw as [|? ? _ Hws]; subst.
  cbn [fst snd]. rewrite (TrimSpace_words _ Hws), (Fields_Join _ Hws).
  repeat split.
Qed.

Lemma Contains_trans (s q p : gostring) :
  Contains s q = true -> Contains q p = true -> Contains s p = true.
Proof.
  intros H1 H2. apply Contains_spec in H1 as (a & b & ->).
  apply Contains_spec in H2 as (a' & b' & ->).
  apply Contains_spec. exists (a ++ a'), (b' ++ b).
  now rewrite <- !app_assoc.
Qed.

Lemma find_first {A : Type} (f : A -> bool) (l : list A) (x : A) :
  find f l = Some x ->
  exists a b, l = a ++ x :: b /\ f x = true
              /\ forall y, In y a -> f y = false.
Proof.
  induction l as [|y l IH]; [discriminate|]. simpl.
  destruct (f y) eqn:E.
  - intros [= <-]. exists [], l. repeat split; [assumption|intros z []].
  - intros H. destruct (IH H) as (a & b & -> & Hx & Ha).
    exists (y :: a), b. repeat split; [assumption|].
    intros z [<-|Hz]; [assumption|now apply Ha].
Qed.

(** An entry of the color list that contains an earlier entry is never
    the one found. *)
Lemma inferColors_shadowed (s c : gostring) :
  find (fun c => Contains (ToLower s) (ToLower c)) inferColors = Some c ->
  c <> "Space Black" /\ c <> "Sage Green" /\ c <> "Mist Blue".
Proof.
  intros E. unfold inferColors in E. cbn [map find] in E.
  repeat
    (match type of E with
     | (if ?b then _ else _) = _ => destruct b eqn:?
     end;
     [ injection E as <-; repeat split; intros H;
       first
         [ discriminate H
         | exfalso;
           match goal with
           | Hf : Contains (ToLower s) ?q = false,
             Ht : Contains (ToLower s) ?p = true |- _ =>
               assert (Hpq : Contains p q = true) by (vm_compute; reflexivity);
               rewrite (Contains_trans _ _ _ Ht Hpq) in Hf; discriminate Hf
           end ]
     | ]).
  discriminate E.
Qed.

(** The color that is read off a name is a color of the list that occurs
    in the name, case apart, and no color listed before it does; when no
    color of the list occurs the result is empty.  Three entries of the
    list can never be returned, because a one-word color that each of them
    contains is listed earlier: Space Black, Sage Green and Mist Blue. *)
Theorem inferColorFromName_first (s : gostring) :
  (inferColorFromName s = []
   <-> forall c, In c inferColors ->
                 Contains (ToLower s) (ToLower c) = false)
  /\ (inferColorFromName s <> [] ->
      exists before after,
        inferColors = before ++ inferColorFromName s :: after
        /\ Contains (ToLower s) (ToLower (inferColorFromName s)) = true
        /\ forall c, In c before ->
                     Contains (ToLower s) (ToLower c) = false)
  /\ inferColorFromName s <> "Space Black"
  /\ inferColorFromName s <> "Sage Green"
  /\ inferColorFromName s <> "Mist Blue".
Proof.
  unfold inferColorFromName.
  destruct (find (fun c => Contains (ToLower s) (ToLower c)) inferColors)
    as [c|] eqn:E.
  - destruct (find_first _ _ _ E) as (a & b & Hl & Hc & Ha).
    assert (Hin : In c inferColors) by (apply find_some in E; tauto).
    assert (Hne : c <> []).
    { intros ->. vm_compute in Hin. intuition discriminate. }
    split; [|split].
    + split; [intros H; contradiction|].
      intros H. rewrite (H c Hin) in Hc. discriminate Hc.
    + intros _. now exists a, b.
    + exact (inferColors_shadowed s c E).
  - split; [|split].
    + split; [|reflexivity]. intros _ c Hc.
      exact (find_none _ _ E c Hc).
    + intros H. now contradiction H.
    + repeat split; discriminate.
Qed.

(** ** Variants through the use case *)

(** Creating a variant and listing the variants of its product are a
    round trip: the new variant gets a fresh identifier, which is not the
    nil one, and comes last in the list of its product, after the variants
    that were listed before; the list of any other product is unchanged,
    and so is the table of products. *)
Theorem CreateVariant_then_ListVariants (r : Repo) (pid : uuid)
        (color : gostring) (n : Z) :
  pid <> Nil ->
  let (v, r') := ProductUC.CreateVariant r (Variant.mk Nil pid color n) in
  v = Variant.mk (ProductRepo.newUUID r) pid color n
  /\ Variant.ID v <> Nil
  /\ (forall w, In w (variants r) -> Variant.ID w <> Variant.ID v)
  /\ fst (ProductUC.ListVariants r' pid)
     = fst (ProductUC.ListVariants r pid) ++ [v]
  /\ (forall pid', pid' <> pid ->
                   fst (ProductUC.ListVariants r' pid')
                   = fst (ProductUC.ListVariants r pid'))
  /\ products r' = products r.
Proof.
  intros Hpid.
  destruct (CreateVariant_new r pid color n) as [Hv Hp].
  assert (Hfst : fst (ProductUC.CreateVariant r (Variant.mk Nil pid color n))
                 = Variant.mk (ProductRepo.newUUID r) pid color n).
  { unfold ProductUC.CreateVariant, ProductRepo.SaveVariant.
    cbn [Variant.ID Variant.withID Variant.ProductID Variant.Color
         Variant.Stock].
    change (Nil =? Nil)%nat with true. cbv iota.
    cbn [Variant.ID Variant.withID Variant.ProductID Variant.Color
         Variant.Stock].
    destruct (ProductRepo.newUUID r =? Nil)%nat eqn:E;
      [apply Nat.eqb_eq in E; now apply newUUID_not_Nil in E|].
    now destruct (existsb _ (variants r)). }
  destruct (ProductUC.CreateVariant r (Variant.mk Nil pid color n))
    as [v r'].
  cbn [fst snd] in *. subst v. cbn [Variant.ID].
  split; [reflexivity|]. split; [apply newUUID_not_Nil|].
  split.
  { intros w Hw. pose proof (newUUID_fresh r w Hw). lia. }
  split; [|split; [|exact Hp]].
  - unfold ProductUC.ListVariants.
    destruct (pid =? Nil)%nat eqn:E; [now apply Nat.eqb_eq in E|].
    unfold ProductRepo.ListVariants. cbn [fst]. rewrite Hv, filter_app.
    cbn [filter Variant.ProductID]. now rewrite Nat.eqb_refl.
  - intros pid' Hne. unfold ProductUC.ListVariants.
    destruct (pid' =? Nil)%nat; [reflexivity|].
    unfold ProductRepo.ListVariants. cbn [fst]. rewrite Hv, filter_app.
    cbn [filter Variant.ProductID].
    destruct (pid =? pid')%nat eqn:E;
      [apply Nat.eqb_eq in E; congruence|].
    apply app_nil_r.
Qed.

Lemma CreateVariant_then_ListVariants_witness :
  let (v, r') :=
    ProductUC.CreateVariant c2_repo (Variant.mk Nil 2 "Azul" 10) in
  v = Variant.mk (ProductRepo.newUUID c2_repo) 2 "Azul" 10
  /\ Variant.ID v <> Nil
  /\ (forall w, In w (variants c2_repo) -> Variant.ID w <> Variant.ID v)
  /\ fst (ProductUC.ListVariants r' 2)
     = fst (ProductUC.ListVariants c2_repo 2) ++ [v]
  /\ (forall pid', pid' <> 2 ->
                   fst (ProductUC.ListVariants r' pid')
                   = fst (ProductUC.ListVariants c2_repo pid'))
  /\ products r' = products c2_repo.
Proof.
  apply (CreateVariant_then_ListVariants c2_repo 2 "Azul" 10).
  discriminate.
Defined.

(** ** Products that only the price list holds *)

(** The variant given to a product that has none. *)
Definition defaultVariant (v : Variant.t) : Prop :=
  Variant.Color v = [] /\ Variant.Stock v = 10%Z /\ Variant.ID v <> Nil.

(** The entries of the price map that the second phase imports. *)
Definition priceOnly (excel : list gostring) (entry : gostring * float64)
  : bool :=
  negb (existsb (Strings.eqb (fst entry)) excel) && negb (le0 (snd entry)).

Lemma importPriceOnlyEntry_step (excel : list gostring)
      (pricesText : gostring) (fxRate defaultMargin : float64)
      (r : Repo) (cP uP cV uV : Z) (entry : gostring * float64) :
  let '(r', (cP', uP', cV', uV')) :=
    importPriceOnlyEntry excel pricesText fxRate defaultMargin
                         (r, (cP, uP, cV, uV)) entry in
  exists added,
    variants r' = variants r ++ added
    /\ Forall defaultVariant added
    /\ cV' = (cV + Z.of_nat (length added))%Z
    /\ uV' = uV
    /\ (cP' + uP' = cP + uP + (if priceOnly excel entry then 1 else 0))%Z
    /\ (cP <= cP' /\ uP <= uP')%Z.
Proof.
  unfold importPriceOnlyEntry, priceOnly. destruct entry as [baseKey usd].
  cbn [fst snd].
  destruct (existsb (Strings.eqb baseKey) excel); cbn [negb andb].
  { exists []. rewrite app_nil_r. simpl. repeat split; try lia. constructor. }
  destruct (le0 usd); cbn [negb].
  { exists []. rewrite app_nil_r. simpl. repeat split; try lia. constructor. }
  destruct (inferBrandModel baseKey) as [brand model].
  pose proof (GetBySlug_variants r (slugify baseKey)) as Hg.
  destruct (ProductUC.GetBySlug r (slugify baseKey)) as [found r1].
  cbn [snd] in Hg.
  destruct found as [q|];
    match goal with |- context [ProductUC.Create r1 ?p0] =>
      pose proof (Create_variants r1 p0) as Hc;
      destruct (ProductUC.Create r1 p0) as [p r2] end;
    cbn [snd] in Hc;
    pose proof (ListVariants_sound r2 (Product.ID p)) as [Hl _];
    destruct (ProductUC.ListVariants r2 (Product.ID p)) as [vs r3];
    cbn [snd] in Hl;
    (destruct (length vs =? 0)%nat;
     [ destruct (CreateVariant_new r3 (Product.ID p) [] 10) as [Hv _];
       destruct (ProductUC.CreateVariant r3 _) as [v r4]; cbn [snd] in Hv;
       exists [Variant.mk (ProductRepo.newUUID r3) (Product.ID p) [] 10];
       rewrite Hv, Hl, Hc, Hg; cbn [length];
       repeat split; try lia;
       constructor; [|constructor];
       repeat split; cbn [Variant.ID]; apply newUUID_not_Nil
     | exists []; rewrite app_nil_r, Hl, Hc, Hg; simpl;
       repeat split; try lia; constructor ]).
Qed.

Lemma importPriceOnly_fold (excel : list gostring)
      (pricesText : gostring) (fxRate defaultMargin : float64)
      (entries : PriceMap) :
  forall r cP uP cV uV,
    let '(r', (cP', uP', cV', uV')) :=
      fold_left (importPriceOnlyEntry excel pricesText fxRate defaultMargin)
                entries (r, (cP, uP, cV, uV)) in
    exists added,
      variants r' = variants r ++ added
      /\ Forall defaultVariant added
      /\ cV' = (cV + Z.of_nat (length added))%Z
      /\ uV' = uV
      /\ (cP' + uP'
          = cP + uP + Z.of_nat (length (filter (priceOnly excel) entries)))%Z
      /\ (cP <= cP' /\ uP <= uP')%Z.
Proof.
  induction entries as [|entry entries IH]; intros r cP uP cV uV.
  - cbn [fold_left filter length]. exists []. rewrite app_nil_r. simpl.
    repeat split; try lia. constructor.
  - cbn [fold_left filter].
    pose proof (importPriceOnlyEntry_step excel pricesText fxRate
                  defaultMargin r cP uP cV uV entry) as Hstep.
    destruct (importPriceOnlyEntry _ _ _ _ _ entry)
      as [r1 [[[cP1 uP1] cV1] uV1]].
    destruct Hstep as (a1 & Hv1 & Hd1 & HcV1 & HuV1 & Hsum1 & Hle1).
    specialize (IH r1 cP1 uP1 cV1 uV1).
    destruct (fold_left _ entries _) as [r' [[[cP' uP'] cV'] uV']].
    destruct IH as (a2 & Hv2 & Hd2 & HcV2 & HuV2 & Hsum2 & Hle2).
    exists (a1 ++ a2). rewrite Hv2, Hv1, <- app_assoc, length_app.
    split; [reflexivity|]. split; [now apply Forall_app|].
    destruct (priceOnly excel entry); cbn [length]; repeat split; lia.
Qed.

(** The second phase of the import, over the entries of the price map
    that the spreadsheet does not hold, never changes a stored variant: it
    only appends variants, each one the default variant of a product that
    had none (no color, stock 10, a fresh identifier).  It counts one
    created variant for each of them and no updated variant, one created
    or updated product for each entry of the map whose key is not a key of
    the spreadsheet, and it leaves the report of the first phase as it
    is. *)
Theorem importFromPricesTextOnly_effect (s : Server) (priceUSD : PriceMap)
        (pricesText : gostring) (fxRate defaultMargin : float64)
        (xlsxData : option Workbook) :
  let '(s', (cP, uP, cV, uV)) :=
    importFromPricesTextOnly s priceUSD pricesText fxRate defaultMargin
                             xlsxData in
  exists added,
    variants (repo s') = variants (repo s) ++ added
    /\ Forall defaultVariant added
    /\ cV = Z.of_nat (length added)
    /\ uV = 0%Z
    /\ (cP + uP
        = Z.of_nat (length (filter (priceOnly (excelProducts xlsxData))
                                   priceUSD)))%Z
    /\ (0 <= cP /\ 0 <= uP)%Z
    /\ lastImport s' = lastImport s.
Proof.
  unfold importFromPricesTextOnly.
  pose proof (importPriceOnly_fold (excelProducts xlsxData) pricesText
                fxRate defaultMargin priceUSD (repo s) 0 0 0 0)%Z as H.
  destruct (fold_left _ priceUSD _) as [r' [[[cP uP] cV] uV]].
  destruct H as (added & Hv & Hd & HcV & HuV & Hsum & Hle).
  exists added. cbn [repo lastImport]. repeat split; try assumption; lia.
Qed.

(** ** The comparison of the admin key *)

Lemma N_of_ascii_inj (x y : ascii) : N_of_ascii x = N_of_ascii y -> x = y.
Proof.
  intros H. rewrite <- (ascii_N_embedding x), <- (ascii_N_embedding y).
  now rewrite H.
Qed.

Lemma fold_lor_zero (l : list (ascii * ascii)) :
  forall v,
    fold_left (fun (v : N) (xy : ascii * ascii) =>
                 N.lor v (N.lxor (N_of_ascii (fst xy)) (N_of_ascii (snd xy))))
              l v = 0%N
    <-> v = 0%N /\ Forall (fun xy => fst xy = snd xy) l.
Proof.
  induction l as [|[x y] l IH]; intros v; cbn [fold_left].
  - split; [intros ->; split; [reflexivity|constructor]|tauto].
  - rewrite IH, N.lor_eq_0_iff, N.lxor_eq_0_iff. cbn [fst snd]. split.
    + intros [[Hv Hxy] Hl]. split; [exact Hv|].
      constructor; [now apply N_of_ascii_inj|exact Hl].
    + intros [Hv Hl]. inversion Hl as [|? ? Hxy Hl']; subst.
      cbn [fst snd] in Hxy. subst y. repeat split; assumption.
Qed.

Lemma combine_same (a : gostring) :
  forall b, length a = length b ->
            Forall (fun xy : ascii * ascii => fst xy = snd xy) (combine a b)
            -> a = b.
Proof.
  induction a as [|x a IH]; intros [|y b] Hlen H; try discriminate Hlen.
  - reflexivity.
  - cbn [combine] in H. inversion H as [|? ? Hxy Hl]; subst.
    cbn [fst snd] in Hxy. subst y. f_equal. apply IH; [|exact Hl].
    now injection Hlen.
Qed.

(** The comparison of the admin key accepts exactly the equal strings:
    it answers true if and only if the two byte strings are the same. *)
Theorem secureCompare_spec (a b : gostring) :
  secureCompare a b = true <-> a = b.
Proof.
  unfold secureCompare. split.
  - destruct (length a =? length b)%nat eqn:Hlen; cbn [negb];
      [|discriminate].
    apply Nat.eqb_eq in Hlen. intros H. apply N.eqb_eq in H.
    apply fold_lor_zero in H as [_ H]. now apply combine_same.
  - intros <-. rewrite Nat.eqb_refl. cbn [negb]. apply N.eqb_eq.
    apply fold_lor_zero. split; [reflexivity|].
    induction a as [|x a IH]; cbn [combine]; constructor;
      [reflexivity|exact IH].
Qed.

(** ** Shipping *)

(** The shipping cost is flat: nothing for the empty province, 9000 for
    every other text, whether the table lists it or not. *)
Theorem shippingCostFor_flat (province : gostring) :
  shippingCostFor province = if isEmpty province then zero else ofZ 9000.
Proof.
  unfold shippingCostFor.
  destruct province as [|c t]; [reflexivity|]. cbn [isEmpty].
  destruct (get Strings.eqb provinceCosts (c :: t)) as [v|] eqn:E;
    [|reflexivity].
  apply (get_In _ _ Strings.eqb eqb_eq) in E.
  unfold provinceCosts in E. apply in_map_iff in E as (p & [= _ <-] & _).
  reflexivity.
Qed.

(** ** Color names *)









(** ** File names *)












(** ** The lines of the cart *)

Definition sumZ (l : list Z) : Z := fold_right Z.add 0%Z l.

(** The items that count: those of a strictly positive quantity. *)
Definition counted (items : list cartItem) : list cartItem :=
  filter (fun it => (0 <? itemQty it)%Z) items.

Definition lineKey (l : cartLine) : gostring :=
  lineSlug l ++ "|" ++ lineColor l.

Lemma wrap64_small (z : Z) :
  (- 2 ^ 63 <= z < 2 ^ 63)%Z -> wrap64 z = z.
Proof.
  intros H. unfold wrap64. rewrite Z.mod_small; lia.
Qed.

Lemma sumZ_set (f : cartLine -> Z) (m : list (gostring * cartLine))
      (k : gostring) (v : cartLine) :
  sumZ (map (fun kl => f (snd kl)) (set Strings.eqb k v m))
  = (sumZ (map (fun kl => f (snd kl)) m) + f v
     - match get Strings.eqb m k with Some old => f old | None => 0 end)%Z.
Proof.
  unfold sumZ. induction m as [|[k' v'] m IH]; simpl; [lia|].
  destruct (Strings.eqb k' k); simpl; [lia|]. rewrite IH. lia.
Qed.

Lemma sumZ_bound (f : cartLine -> Z) (m : list (gostring * cartLine))
      (k : gostring) (v : cartLine) :
  Forall (fun kl => (0 < f (snd kl))%Z) m ->
  In (k, v) m -> (f v <= sumZ (map (fun kl => f (snd kl)) m))%Z.
Proof.
  unfold sumZ. induction 1 as [|[k' v'] m Hx Hm IH]; [intros []|].
  assert (0 <= fold_right Z.add 0 (map (fun kl => f (snd kl)) m))%Z.
  { clear IH. induction Hm as [|y m Hy _ IH]; simpl; [lia|]. lia. }
  simpl in *. intros [[= -> ->]|Hin]; [lia|]. specialize (IH Hin). lia.
Qed.

(** What the first loop keeps true of the map. *)
Definition cartOK (m : list (gostring * cartLine)) : Prop :=
  NoDup (map fst m)
  /\ Forall (fun kl => fst kl = lineKey (snd kl)) m
  /\ Forall (fun kl => (0 < lineQty (snd kl))%Z) m.

Lemma addItem_OK (m : list (gostring * cartLine)) (it : cartItem) (S : Z) :
  cartOK m ->
  sumZ (map (fun kl => lineQty (snd kl)) m) = S ->
  (S + (if (0 <? itemQty it)%Z then itemQty it else 0) < 2 ^ 63)%Z ->
  cartOK (addItem m it)
  /\ sumZ (map (fun kl => lineQty (snd kl)) (addItem m it))
     = (S + (if (0 <? itemQty it)%Z then itemQty it else 0))%Z
  /\ length (addItem m it)
     <= length m + (if (0 <? itemQty it)%Z then 1 else 0).
Proof.
  intros (Hnd & Hkey & Hpos) Hsum Hlt. unfold addItem.
  destruct (Z.leb_spec (itemQty it) 0) as [Hq|Hq].
  { destruct (Z.ltb_spec 0 (itemQty it)); [lia|].
    repeat split; try assumption; lia. }
  destruct (Z.ltb_spec 0 (itemQty it)) as [_|]; [|lia].
  set (key := itemSlug it ++ "|" ++ itemColor it).
  assert (Hold : exists line,
             line = match get Strings.eqb m key with
                    | Some line => line
                    | None => mkCartLine (itemSlug it) (itemColor it) 0
                                         (itemPrice it) zero [] []
                    end
             /\ lineKey line = key
             /\ (0 <= lineQty line <= S)%Z
             /\ lineQty line
                = match get Strings.eqb m key with
                  | Some old => lineQty old | None => 0%Z end).
  { eexists. split; [reflexivity|].
    destruct (get Strings.eqb m key) as [line|] eqn:G.
    - apply (get_In _ _ Strings.eqb eqb_eq) in G.
      pose proof (sumZ_bound lineQty m key line Hpos G) as Hb.
      rewrite Forall_forall in Hkey, Hpos.
      specialize (Hkey _ G). specialize (Hpos _ G). cbn [fst snd] in *.
      repeat split; try lia. now symmetry.
    - cbn [lineQty]. repeat split; try reflexivity; try lia.
      assert (0 <= sumZ (map (fun kl => lineQty (snd kl)) m))%Z; [|lia].
      clear -Hpos. induction Hpos as [|y m Hy _ IH]; simpl; [lia|].
      unfold sumZ in *. simpl. lia. }
  destruct Hold as (line & <- & Hk & Hrange & Hq0).
  rewrite wrap64_small by lia.
  split; [|split].
  - split; [|split].
    + now apply (set_keys_NoDup _ _ Strings.eqb eqb_eq).
    + apply Forall_forall. intros [k l] Hin.
      apply In_set in Hin as [[= -> ->]|Hin].
      * cbn [fst snd]. unfold lineKey in *. cbn [lineSlug lineColor].
        now symmetry.
      * rewrite Forall_forall in Hkey. now apply (Hkey (k, l)).
    + apply Forall_forall. intros [k l] Hin.
      apply In_set in Hin as [[= -> ->]|Hin].
      * cbn [fst snd lineQty]. lia.
      * rewrite Forall_forall in Hpos. now apply (Hpos (k, l)).
  - rewrite sumZ_set. cbn [lineQty]. rewrite <- Hq0. lia.
  - rewrite <- (length_map fst), (set_keys _ _ Strings.eqb eqb_eq).
    destruct (existsb _ _); rewrite ?length_app, length_map; simpl; lia.
Qed.

Lemma counted_sum_nonneg (items : list cartItem) :
  (0 <= sumZ (map itemQty (counted items)))%Z.
Proof.
  unfold counted, sumZ. induction items as [|it items IH]; simpl; [lia|].
  destruct (Z.ltb_spec 0 (itemQty it)); simpl; lia.
Qed.

Lemma addItem_fold (items : list cartItem) :
  forall m S,
    cartOK m ->
    sumZ (map (fun kl => lineQty (snd kl)) m) = S ->
    (S + sumZ (map itemQty (counted items)) < 2 ^ 63)%Z ->
    cartOK (fold_left addItem items m)
    /\ sumZ (map (fun kl => lineQty (snd kl)) (fold_left addItem items m))
       = (S + sumZ (map itemQty (counted items)))%Z
    /\ length (fold_left addItem items m)
       <= length m + length (counted items).
Proof.
  induction items as [|it items IH]; intros m S Hok Hsum Hlt.
  - cbn [fold_left]. unfold counted. cbn [filter map length].
    change (sumZ []) with 0%Z. split; [exact Hok|]. split; lia.
  - cbn [fold_left].
    pose proof (counted_sum_nonneg items) as Hnn.
    assert (Hc : sumZ (map itemQty (counted (it :: items)))
                 = ((if (0 <? itemQty it)%Z then itemQty it else 0)
                    + sumZ (map itemQty (counted items)))%Z
                 /\ length (counted (it :: items))
                    = (if (0 <? itemQty it)%Z then 1 else 0)
                      + length (counted items)).
    { unfold counted. cbn [filter].
      destruct (0 <? itemQty it)%Z; cbn [map sumZ fold_right length];
        split; reflexivity. }
    destruct Hc as [Hc Hl]. rewrite Hc in Hlt |- *. rewrite Hl.
    destruct (addItem_OK m it S Hok Hsum) as (Hok1 & Hsum1 & Hlen1); [lia|].
    destruct (IH (addItem m it) _ Hok1 Hsum1) as (Hok2 & Hsum2 & Hlen2);
      [lia|].
    split; [exact Hok2|]. split; lia.
Qed.

Lemma priceLine_keeps (lookup : gostring -> option (Product.t * list gostring))
      (l : cartLine) :
  lineSlug (priceLine lookup l) = lineSlug l
  /\ lineColor (priceLine lookup l) = lineColor l
  /\ lineQty (priceLine lookup l) = lineQty l
  /\ lineSubtotal (priceLine lookup l)
     = mul (lineUnitPrice (priceLine lookup l))
           (ofZ (lineQty (priceLine lookup l))).
Proof.
  unfold priceLine. destruct (lookup (lineSlug l)) as [[p images]|];
    repeat split.
Qed.

(** The lines of the cart account for the items.  When the quantities
    that count (the strictly positive ones) add up to less than 2^63, so
    that no sum wraps around, then in whatever order the map is ranged
    over: the quantities of the lines add up to the quantities of the
    items that count; every line has a strictly positive quantity and a
    subtotal that is its unit price times its quantity; no two lines are
    for the same slug and color; and there are no more lines than items
    that count, hence none for a cart without such an item. *)
Theorem aggregateCart_accounts (items : list cartItem)
        (lookup : gostring -> option (Product.t * list gostring))
        (res : list cartLine) :
  (sumZ (map itemQty (counted items)) < 2 ^ 63)%Z ->
  Permutation res (aggregateCart items lookup) ->
  sumZ (map lineQty res) = sumZ (map itemQty (counted items))
  /\ Forall (fun l => (0 < lineQty l)%Z
                      /\ lineSubtotal l
                         = mul (lineUnitPrice l) (ofZ (lineQty l))) res
  /\ NoDup (map lineKey res)
  /\ length res <= length (counted items).
Proof.
  intros Hlt Hperm.
  assert (H0 : cartOK []).
  { split; [constructor|]. split; constructor. }
  destruct (addItem_fold items [] 0%Z H0 eq_refl) as (Hok & Hsum & Hlen);
    [lia|].
  destruct Hok as (Hnd & Hkey & Hpos).
  unfold aggregateCart in Hperm.
  set (m := fold_left addItem items []) in *.
  assert (Hq : map lineQty (map (fun kl => priceLine lookup (snd kl)) m)
               = map (fun kl => lineQty (snd kl)) m).
  { rewrite map_map. apply map_ext. intros kl.
    apply (priceLine_keeps lookup (snd kl)). }
  assert (Hk : map lineKey (map (fun kl => priceLine lookup (snd kl)) m)
               = map fst m).
  { rewrite map_map. apply map_ext_in. intros kl Hin.
    rewrite Forall_forall in Hkey. rewrite (Hkey kl Hin).
    unfold lineKey.
    destruct (priceLine_keeps lookup (snd kl)) as (-> & -> & _).
    reflexivity. }
  split; [|split; [|split]].
  - assert (Hs : forall a b, Permutation a b -> sumZ a = sumZ b).
    { unfold sumZ. induction 1; simpl; lia. }
    rewrite (Hs _ _ (Permutation_map lineQty Hperm)), Hq, Hsum. lia.
  - apply Forall_forall. intros l Hl.
    apply (Permutation_in _ Hperm) in Hl.
    apply in_map_iff in Hl as (kl & <- & Hin).
    rewrite Forall_forall in Hpos. specialize (Hpos kl Hin).
    destruct (priceLine_keeps lookup (snd kl)) as (_ & _ & Eq & Es).
    rewrite Eq in *. split; [exact Hpos|exact Es].
  - apply (Permutation_NoDup (l := map fst m)); [|exact Hnd].
    rewrite <- Hk. apply Permutation_sym. now apply Permutation_map.
  - rewrite (Permutation_length Hperm), length_map. simpl in Hlen. lia.
Qed.

Definition cart_example : list cartItem :=
  [ mkCartItem "moto-g35" "Negro" 2 (ofZ 100);
    mkCartItem "tab-a9" "Gris" 1 (ofZ 300);
    mkCartItem "moto-g35" "Negro" 3 (ofZ 120);
    mkCartItem "moto-g35" "Azul" 0 (ofZ 100) ].

Definition cart_lookup (slug : gostring)
  : option (Product.t * list gostring) :=
  match fst (ProductUC.GetBySlug c2_repo slug) with
  | Some p => Some (p, [])
  | None => None
  end.

Lemma aggregateCart_accounts_witness :
  sumZ (map lineQty (aggregateCart cart_example cart_lookup))
  = sumZ (map itemQty (counted cart_example))
  /\ Forall (fun l => (0 < lineQty l)%Z
                      /\ lineSubtotal l
                         = mul (lineUnitPrice l) (ofZ (lineQty l)))
            (aggregateCart cart_example cart_lookup)
  /\ NoDup (map lineKey (aggregateCart cart_example cart_lookup))
  /\ length (aggregateCart cart_example cart_lookup)
     <= length (counted cart_example).
Proof.
  apply (aggregateCart_accounts cart_example cart_lookup).
  - vm_compute. reflexivity.
  - apply Permutation_refl.
Defined.

(** ** A row of a color that the product does not have yet *)

Lemma mapStock_tier (stockStr : gostring) :
  mapStock stockStr = stockTier stockStr 0.
Proof.
  unfold mapStock, stockTier.
  rewrite TrimSpace_ToLower, ToLower_nil.
  destruct (isEmpty (TrimSpace stockStr)); [reflexivity|].
  rewrite <- TrimSpace_ToLower.
  change ("sin" : gostring) with ("s"%char :: ("i" : gostring) ++ ["n"%char]).
  change ("bajo" : gostring) with ("b"%char :: ("aj" : gostring) ++ ["o"%char]).
  rewrite !Contains_TrimSpace_eq by reflexivity. reflexivity.
Qed.

(** A priced data row whose color matches no stored variant of its
    product (compared trimmed and without case) changes no stored variant
    and appends one: of that product, of the color of the row as the row
    writes it, with a fresh identifier, and with the stock of the stock
    cell, which for a new variant is 0 when the cell is empty (and 0, 2 or
    10 otherwise). *)
Theorem new_color_creates_variant (priceUSD : PriceMap)
        (pricesText : gostring) (fxRate defaultMargin : float64) (r : Repo)
        (ps : Pass) (category : gostring) (row : Row) :
  isDataRow row = true ->
  le0 (rowPrice priceUSD (rowKey row)) = false ->
  (let gross := mul (rowPrice priceUSD (rowKey row)) fxRate in
   let '(p, r1, _) :=
     upsertProduct r ps (rowKey row) category gross defaultMargin
                   (withMargin gross defaultMargin) in
   findVariant (fst (ProductUC.ListVariants r1 (Product.ID p))) (rowColor row)
   = None) ->
  let r' := fst (processRow priceUSD pricesText fxRate defaultMargin
                            r ps category row) in
  let gross := mul (rowPrice priceUSD (rowKey row)) fxRate in
  let '(p, r1, _) :=
    upsertProduct r ps (rowKey row) category gross defaultMargin
                  (withMargin gross defaultMargin) in
  variants r'
  = variants r
      ++ [Variant.mk (ProductRepo.newUUID r1) (Product.ID p) (rowColor row)
                     (stockTier (stockCell row) 0)]
  /\ ProductRepo.newUUID r1 <> Nil
  /\ Product.ID p <> Nil
  /\ forall v, In v (variants r) -> Variant.ID v <> ProductRepo.newUUID r1.
Proof.
  intros Hd Hp Hf r'. subst r'.
  rewrite (processRow_priced _ _ _ _ _ _ _ _ Hd Hp). cbv zeta in Hf |- *.
  match goal with |- context [upsertProduct r ps ?k ?c ?g ?m ?pr] =>
    pose proof (upsertProduct_frame r ps k c g m pr) as Hfr;
    destruct (upsertProduct r ps k c g m pr) as [[p r1] ps1] end.
  destruct Hfr as (Hv1 & _ & Hid).
  pose proof (upsertVariant_spec r1 ps1 p (rowColor row) (stockCell row)
                (mapStock (stockCell row))) as Hs.
  cbv zeta in Hs. rewrite Hf in Hs. destruct Hs as (_ & _ & Hv).
  destruct (upsertVariant r1 ps1 p (rowColor row) (stockCell row)
                          (mapStock (stockCell row))) as [r2 ps2].
  cbn [fst] in *. rewrite Hv, Hv1, mapStock_tier.
  split; [reflexivity|]. split; [apply newUUID_not_Nil|].
  split; [exact Hid|].
  intros v Hin. rewrite <- Hv1 in Hin.
  pose proof (newUUID_fresh r1 v Hin). lia.
Qed.

(** The sheet brings a color that the stored phone does not have, with an
    empty stock cell. *)
Definition new_color_row : Row :=
  [ [] ; "Moto G35 Verde" : gostring; "Verde" : gostring ].

Lemma new_color_creates_variant_witness :
  let r' := fst (processRow c2_prices "Moto G35   $100" (ofZ 1485) (ofZ 20)
                            c2_repo emptyPass [] new_color_row) in
  let gross := mul (rowPrice c2_prices (rowKey new_color_row)) (ofZ 1485) in
  let '(p, r1, _) :=
    upsertProduct c2_repo emptyPass (rowKey new_color_row) [] gross (ofZ 20)
                  (withMargin gross (ofZ 20)) in
  variants r'
  = variants c2_repo
      ++ [Variant.mk (ProductRepo.newUUID r1) (Product.ID p)
                     (rowColor new_color_row)
                     (stockTier (stockCell new_color_row) 0)]
  /\ ProductRepo.newUUID r1 <> Nil
  /\ Product.ID p <> Nil
  /\ forall v, In v (variants c2_repo) ->
               Variant.ID v <> ProductRepo.newUUID r1.
Proof.
  apply (new_color_creates_variant c2_prices "Moto G35   $100" (ofZ 1485)
           (ofZ 20) c2_repo emptyPass [] new_color_row);
    vm_compute; reflexivity.
Defined.

(** ** Matching without case *)

Lemma normalize_ToLower (a b : gostring) :
  ToLower a = ToLower b -> normalize a = normalize b.
Proof. intros H. unfold normalize. now rewrite H. Qed.

(** The matcher ignores case: when the price list holds, with a price, a
    key that differs from the key of the row by case only, the row gets a
    strictly positive price, that of an entry whose key is the key of the
    row or has the same comparison form. *)
Theorem matchUSDPrice_ignores_case (m : PriceMap) (baseKey k : gostring)
        (v : float64) :
  wellPriced m ->
  In (k, v) m ->
  EqualFold k baseKey = true ->
  gt0 (matchUSDPrice m baseKey) = true
  /\ exists k', In (k', matchUSDPrice m baseKey) m
                /\ (k' = baseKey \/ normalize k' = normalize baseKey).
Proof.
  intros Hw Hin Hfold. unfold EqualFold in Hfold. apply eqb_eq in Hfold.
  rewrite matchUSDPrice_tiers. unfold exactTier, normalizedTier, lookup.
  destruct (get Strings.eqb m baseKey) as [v1|] eqn:E1.
  { apply (get_In _ _ Strings.eqb eqb_eq) in E1.
    split; [apply (Hw _ _ E1)|]. exists baseKey. split; [exact E1|now left]. }
  destruct (find (fun kv : gostring * float64 =>
                    Strings.eqb (normalize (fst kv)) (normalize baseKey)) m)
    as [[k2 v2]|] eqn:E2; cbn [option_map snd].
  - apply find_some in E2 as [Hin2 He]. cbn [fst] in He.
    apply eqb_eq in He.
    split; [apply (Hw _ _ Hin2)|]. exists k2. split; [exact Hin2|now right].
  - pose proof (find_none _ _ E2 (k, v) Hin) as Hn. cbn [fst] in Hn.
    rewrite (normalize_ToLower _ _ Hfold), eqb_refl in Hn. discriminate Hn.
Qed.

Lemma matchUSDPrice_ignores_case_witness :
  gt0 (matchUSDPrice c2_prices "MOTO G35") = true
  /\ exists k', In (k', matchUSDPrice c2_prices "MOTO G35") c2_prices
                /\ (k' = ("MOTO G35" : gostring)
                    \/ normalize k' = normalize "MOTO G35").
Proof.
  apply (matchUSDPrice_ignores_case c2_prices "MOTO G35" "Moto G35"
                                    (ofZ 100)).
  - apply parseUSDPrices_wellPriced.
  - vm_compute. left. reflexivity.
  - vm_compute. reflexivity.
Defined.

(** ** What the color stripping removes *)

(** The color stripping only ever removes trailing words.  With the
    parenthesized groups replaced by a blank and the name trimmed, the
    result is that text itself, or the join by single blanks of all its
    words but the last one, or of all its words but the last two: a color
    word that is followed by another word stays. *)
Theorem removeColorFromName_trailing_words (s0 : gostring) :
  let s := TrimSpace (rewriteAll (parenGroup true " ") s0) in
  let ws := Fields s in
  exists k,
    k <= 2
    /\ Fields (removeColorFromName s0) = firstn (length ws - k) ws
    /\ (k = 0 -> removeColorFromName s0 = s)
    /\ (0 < k -> k <= length ws
                 /\ removeColorFromName s0
                    = Join (firstn (length ws - k) ws) " ").
Proof.
  cbv zeta. unfold removeColorFromName.
  set (s := TrimSpace (rewriteAll (parenGroup true " ") s0)).
  pose proof (Fields_words s) as Hw.
  destruct (rev (Fields s)) as [|lastw before] eqn:E.
  { exists 0. rewrite Nat.sub_0_r, firstn_all.
    split; [lia|]. split; [reflexivity|].
    split; [reflexivity|intros H; lia]. }
  apply (f_equal (@rev gostring)) in E. rewrite rev_involutive in E.
  cbn [rev] in E.
  assert (Hb : Forall isWord (rev before)).
  { rewrite E in Hw. now apply Forall_app in Hw as [Hw _]. }
  destruct (existsb _ colors).
  { exists 1. rewrite (TrimSpace_words _ Hb), (Fields_Join _ Hb).
    rewrite E, length_app. cbn [length].
    rewrite (firstn_exact (rev before) [lastw]) by lia.
    split; [lia|]. split; [reflexivity|].
    split; [intros H; lia|intros _; split; [lia|reflexivity]]. }
  destruct before as [|prev before2].
  { exists 0. rewrite Nat.sub_0_r, firstn_all.
    split; [lia|]. split; [reflexivity|].
    split; [reflexivity|intros H; lia]. }
  destruct (existsb _ colors).
  - assert (Hb2 : Forall isWord (rev before2)).
    { cbn [rev] in Hb. now apply Forall_app in Hb as [Hb _]. }
    exists 2. rewrite (TrimSpace_words _ Hb2), (Fields_Join _ Hb2).
    rewrite E. cbn [rev]. rewrite <- app_assoc, !length_app. cbn [length app].
    rewrite (firstn_exact (rev before2) [prev; lastw]) by lia.
    split; [lia|]. split; [reflexivity|].
    split; [intros H; lia|intros _; split; [lia|reflexivity]].
  - exists 0. rewrite Nat.sub_0_r, firstn_all.
    split; [lia|]. split; [reflexivity|].
    split; [reflexivity|intros H; lia].
Qed.

(** ** A line of the price list *)

Lemma dropWhile_app_all (p : ascii -> bool) (w s : gostring) :
  forallb p w = true -> dropWhile p (w ++ s) = dropWhile p s.
Proof.
  induction w as [|x w IH]; [reflexivity|]. simpl. intros H.
  apply andb_true_iff in H as [Hx Hw]. rewrite Hx. now apply IH.
Qed.

(** White space after a text that starts with none is trimmed away. *)
Lemma TrimFunc_app_all (p : ascii -> bool) (c : ascii) (t w : gostring) :
  p c = false -> forallb p w = true ->
  TrimFunc p ((c :: t) ++ w) = TrimFunc p (c :: t).
Proof.
  intros Hc Hw. unfold TrimFunc, TrimRightFunc, TrimLeftFunc.
  cbn [app]. rewrite !dropWhile_head by exact Hc.
  change (c :: t ++ w) with ((c :: t) ++ w).
  rewrite rev_app_distr, dropWhile_app_all; [reflexivity|].
  now rewrite forallb_rev.
Qed.

Lemma digit_not_space (c : ascii) : isDigit c = true -> isSpace c = false.
Proof.
  intros H. destruct (isSpace c) eqn:E; [|reflexivity].
  rewrite (space_not_digit _ E) in H. discriminate H.
Qed.

Lemma digit_facts (c : ascii) :
  isDigit c = true ->
  reSpace c = false /\ isPriceByte c = true /\ c <> ","%char.
Proof.
  destruct c as [[|] [|] [|] [|] [|] [|] [|] [|]]; intros H;
    try discriminate H; repeat split; discriminate.
Qed.

(** The price token at the head of a text: a dollar sign and digits. *)
Lemma priceRe_digits (d0 : ascii) (ds : gostring) :
  forallb isDigit (d0 :: ds) = true ->
  priceRe ("$"%char :: d0 :: ds) = Some (d0 :: ds, 2 + length ds).
Proof.
  intros H. cbn [forallb] in H. apply andb_true_iff in H as [H0 Hs].
  unfold priceRe. cbn [after]. rewrite Ascii.eqb_refl.
  destruct (digit_facts d0 H0) as (Hr & _ & _).
  cbn [span]. rewrite Hr, H0.
  assert (Hp : forallb isPriceByte ds = true).
  { apply forallb_forall. intros c Hc. rewrite forallb_forall in Hs.
    apply (digit_facts c (Hs c Hc)). }
  pose proof (span_run isPriceByte ds [] Hp I) as Hsp.
  rewrite app_nil_r in Hsp. rewrite Hsp. reflexivity.
Qed.

Lemma priceRe_other (c : ascii) (t : gostring) :
  c <> "$"%char -> priceRe (c :: t) = None.
Proof.
  intros H. unfold priceRe. cbn [after].
  now destruct (Ascii.eqb_spec c "$").
Qed.

Lemma findFirst_skip (m : gostring -> option (gostring * nat))
      (a t out : gostring) (n : nat) :
  (forall c r, In c a -> m (c :: r) = None) ->
  m t = Some (out, n) ->
  findFirst m (a ++ t) = Some (length a, out, n).
Proof.
  intros Ha Ht. induction a as [|c a IH].
  - cbn [app length]. destruct t; cbn [findFirst]; now rewrite Ht.
  - cbn [app length findFirst]. rewrite (Ha c _ (or_introl eq_refl)).
    rewrite IH; [reflexivity|]. intros c' r Hc'. apply Ha. now right.
Qed.

Lemma rewriteAll_skip (m : gostring -> option (gostring * nat))
      (a t : gostring) :
  (forall c r, In c a -> m (c :: r) = None) ->
  rewriteAll m (a ++ t) = a ++ rewriteAll m t.
Proof.
  intros Ha. induction a as [|c a IH]; [reflexivity|].
  cbn [app]. rewrite rewriteAll_copy by (apply Ha; now left).
  rewrite IH; [reflexivity|]. intros c' r Hc'. apply Ha. now right.
Qed.

(** A line that gives a name, any white space, a dollar sign and digits
    is read as that name with that number: the parser stores the number
    read by [ParseFloat] under the normalized form of the name, trimmed
    of white space, hyphens and colons, provided that this key is not
    empty and the number is strictly positive (otherwise the line changes
    nothing).  The name holds no dollar sign and starts with a byte that
    is not white space; the line is not one of the excluded ones. *)
Theorem parseLine_name_and_price (res : PriceMap) (c : ascii)
        (t gap : gostring) (d0 : ascii) (ds : gostring) :
  isSpace c = false ->
  ~ In "$"%char (c :: t) ->
  forallb isSpace gap = true ->
  forallb isDigit (d0 :: ds) = true ->
  excludedLine ((c :: t) ++ gap ++ "$" ++ d0 :: ds) = false ->
  let key := normalizeBaseKey
               (Trim (TrimSpace (c :: t)) ("-:" ++ ["009"%char] ++ " ")) in
  let usd := ofDecimal (digitsValue (d0 :: ds)) 0 in
  ParseFloat (d0 :: ds) = usd
  /\ parseLine res ((c :: t) ++ gap ++ "$" ++ d0 :: ds)
     = if negb (isEmpty key) && gt0 usd then insert key usd res else res.
Proof.
  intros Hc Hdollar Hgap Hd Hex key usd.
  set (name := c :: t) in *.
  set (line := name ++ gap ++ "$" ++ d0 :: ds) in *.
  assert (Hsp : span isDigit (d0 :: ds) = (d0 :: ds, [])).
  { pose proof (span_run isDigit (d0 :: ds) [] Hd I) as H.
    now rewrite app_nil_r in H. }
  assert (Hpf : ParseFloat (d0 :: ds) = usd).
  { unfold ParseFloat. rewrite Hsp. reflexivity. }
  split; [exact Hpf|].
  assert (Hnd : forall x r, In x (name ++ gap) -> priceRe (x :: r) = None).
  { intros x r Hx. apply priceRe_other. intros ->.
    apply in_app_or in Hx as [Hx|Hx]; [now apply Hdollar|].
    rewrite forallb_forall in Hgap. specialize (Hgap _ Hx).
    discriminate Hgap. }
  assert (Hline : line = (name ++ gap) ++ "$"%char :: d0 :: ds).
  { unfold line. now rewrite <- app_assoc. }
  assert (Htrim : TrimSpace line = line).
  { apply TrimFunc_fixed. split.
    - unfold line, name. cbn [app]. now apply dropWhile_head.
    - apply dropWhile_fixed_iff. rewrite Hline, rev_app_distr.
      change ("$"%char :: d0 :: ds) with (["$"%char] ++ d0 :: ds).
      rewrite rev_app_distr.
      assert (Hrd : forallb isDigit (rev (d0 :: ds)) = true).
      { apply forallb_forall. intros x Hx. apply in_rev in Hx.
        rewrite forallb_forall in Hd. now apply Hd. }
      destruct (rev (d0 :: ds)) as [|x r] eqn:E.
      + apply (f_equal (@length ascii)) in E. rewrite length_rev in E.
        discriminate E.
      + cbn [app]. cbn [forallb] in Hrd.
        apply andb_true_iff in Hrd as [Hx _]. now apply digit_not_space. }
  unfold excludedLine in Hex. rewrite Htrim in Hex.
  apply orb_false_iff in Hex as [Hex Hprecio].
  apply orb_false_iff in Hex as [Hempty Hstock].
  unfold parseLine. rewrite Htrim, Hempty, Hstock, Hprecio. cbn [orb].
  rewrite Hline.
  rewrite (findFirst_skip priceRe (name ++ gap) _ _ _ Hnd
                          (priceRe_digits d0 ds Hd)).
  rewrite (ReplaceAll_absent_id (d0 :: ds) "," []).
  2:{ apply (Contains_byte (d0 :: ds) ","%char). intros Hin.
      rewrite forallb_forall in Hd.
      now apply (digit_facts _ (Hd _ Hin)). }
  rewrite Hpf.
  assert (Hdrop : rewriteAll dropPrice ((name ++ gap) ++ "$"%char :: d0 :: ds)
                  = name ++ gap).
  { rewrite rewriteAll_skip.
    2:{ intros x r Hx. unfold dropPrice. now rewrite (Hnd x r Hx). }
    rewrite (rewriteAll_match dropPrice ("$"%char :: d0 :: ds) []
                              (2 + length ds)).
    - change (2 + length ds) with (S (S (length ds))).
      cbn [app skipn]. rewrite skipn_all. now rewrite app_nil_r.
    - unfold dropPrice. now rewrite (priceRe_digits d0 ds Hd).
    - cbn [length]. lia. }
  rewrite Hdrop.
  assert (Ht : TrimSpace (name ++ gap) = TrimSpace name)
    by exact (TrimFunc_app_all isSpace c t gap Hc Hgap).
  rewrite Ht. reflexivity.
Qed.

Lemma parseLine_name_and_price_witness :
  let key := normalizeBaseKey
               (Trim (TrimSpace ("M"%char :: "oto G35"))
                     ("-:" ++ ["009"%char] ++ " ")) in
  let usd := ofDecimal (digitsValue ("1"%char :: "00")) 0 in
  ParseFloat ("1"%char :: "00") = usd
  /\ parseLine [] (("M"%char :: "oto G35") ++ "   " ++ "$" ++ "1"%char :: "00")
     = if negb (isEmpty key) && gt0 usd then insert key usd [] else [].
Proof.
  apply (parseLine_name_and_price [] "M"%char "oto G35" "   " "1"%char "00").
  - reflexivity.
  - vm_compute. intuition discriminate.
  - reflexivity.
  - reflexivity.
  - vm_compute. reflexivity.
Defined.

(** ** An unreadable spreadsheet *)














